(** * Lost Knowledge: helix motion, constellation gestures, slide puzzle

    A shallow embedding of the three algorithmic cores of the repository:
    - the sliding-tile puzzle engine (the 3x4 slide puzzle module),
    - the click-and-drag constellation edge engine ([constellation.js]),
    - the helical camera constraint and revolution wrap ([main.js]),

    and of the helpers around them: the tile textures and animations of the
    puzzle, the movement controller, the stair segments, the projection of
    the pointer onto the sphere of the stars, the sound effects
    ([audio_manager.js]) and the particle field of the cosmic sky
    ([philosophy.js]).

    Part I holds the definitions, translated function by function from the
    JavaScript sources; Part II holds the lemmas and theorems about them.

    Conventions.  JavaScript arrays are lists read with stdpp's lookup
    [l !! i] and written with [<[i:=x]>]; a JavaScript [Set] of strings is a
    [gset string]; JavaScript numbers that are array indices or tile ids are
    [nat], indices that may leave the grid are [Z], and the camera geometry
    is carried out over the real numbers [R] (doubles without rounding). *)

From Stdlib Require Import ZArith Lia Reals Lra Psatz Permutation.
From Stdlib Require Import DecimalString DecimalNat.
From stdpp Require Import base option list gmap strings.

(* ===================================================================== *)
(** * Part I: definitions *)
(* ===================================================================== *)

(** ** The slide puzzle engine *)

Module SlidePuzzle.

(** [_board]: a ROWS x COLS array of tile ids, 0 is the blank. *)
Abbreviation Board := (list (list nat)).

Section Grid.

(** [const ROWS], [const COLS]: the grid size (3 and 4 in the module; the
    engine itself only ever reads them as bounds). *)
Variables ROWS COLS : nat.

(** [board[r][c]]: [None] stands for JavaScript's [undefined]. *)
Definition cellAt (board : Board) (r c : nat) : option nat :=
  board !! r ≫= (λ row, row !! c).

(** [board[r][c] = v], for a cell inside the array. *)
Definition setCell (board : Board) (r c : nat) (v : nat) : Board :=
  alter (λ row, <[c := v]> row) r board.

(** The order in which [for r < ROWS, for c < COLS] visits the cells. *)
Definition cells : list (nat * nat) :=
  r ← seq 0 ROWS; c ← seq 0 COLS; [(r, c)].

(** [_createEmptyBoard]: the solved layout, the last cell blank; [idx] is
    the running counter of the two loops. *)
Definition _createEmptyBoard : Board :=
  fst (foldl (λ '(arr, idx) r,
         let '(row, idx') :=
           foldl (λ '(row, idx) c,
                    if (r =? ROWS - 1) && (c =? COLS - 1)
                    then (row ++ [0], idx)
                    else (row ++ [idx], S idx))
                 ([], idx) (seq 0 COLS) in
         (arr ++ [row], idx'))
       ([], 1) (seq 0 ROWS)).

(** [_findBlank]: the first cell, in loop order, that holds 0. *)
Definition _findBlank (board : Board) : option (nat * nat) :=
  find (λ '(r, c), bool_decide (cellAt board r c = Some 0)) cells.

(** The row and column offsets of the source tile, as both [_canMove] and
    [_applyMove] compute them from the direction letter. *)
Definition rowOffset (dir : string) : Z :=
  if String.eqb dir "U" then (-1)%Z else if String.eqb dir "D" then 1%Z else 0%Z.
Definition colOffset (dir : string) : Z :=
  if String.eqb dir "L" then (-1)%Z else if String.eqb dir "R" then 1%Z else 0%Z.

(** [sr>=0 && sr<ROWS && sc>=0 && sc<COLS]. *)
Definition inGrid (sr sc : Z) : bool :=
  (0 <=? sr)%Z && (sr <? Z.of_nat ROWS)%Z && (0 <=? sc)%Z && (sc <? Z.of_nat COLS)%Z.

(** [_canMove(board, r, c, dir)]; the arguments [r] and [c] are unused in
    the source (the shuffle passes [null] for both). *)
Definition _canMove (board : Board) (r c : option nat) (dir : string) : bool :=
  match _findBlank board with
  | None => false
  | Some (br, bc) =>
      let sr := (Z.of_nat br + rowOffset dir)%Z in
      let sc := (Z.of_nat bc + colOffset dir)%Z in
      inGrid sr sc
  end.

(** [_applyMove(board, dir)]: the board after the call and the returned
    flag.  The array is mutated in place in the source; here the new board
    is returned.  Inside the grid [board[sr][sc]] is always defined on a
    ROWS x COLS array; the [None] case is JavaScript's failure on a ragged
    array, on which nothing is written. *)
Definition _applyMove (board : Board) (dir : string) : Board * bool :=
  match _findBlank board with
  | None => (board, false)
  | Some (br, bc) =>
      let sr := (Z.of_nat br + rowOffset dir)%Z in
      let sc := (Z.of_nat bc + colOffset dir)%Z in
      if negb (inGrid sr sc) then (board, false)
      else
        match cellAt board (Z.to_nat sr) (Z.to_nat sc) with
        | None => (board, false)
        | Some v =>
            let board1 := setCell board br bc v in
            (setCell board1 (Z.to_nat sr) (Z.to_nat sc) 0, true)
        end
  end.

(** [_boardToIndexArray]: the cells in row-major order. *)
Definition _boardToIndexArray (board : Board) : list (option nat) :=
  (λ '(r, c), cellAt board r c) <$> cells.

(** [_isSolved]: [flat.every((v,i) => i === flat.length-1 ? v === 0 : v === i+1)]. *)
Definition _isSolved (board : Board) : bool :=
  let flat := _boardToIndexArray board in
  forallb (λ '(i, v),
             if i =? length flat - 1
             then bool_decide (v = Some 0)
             else bool_decide (v = Some (i + 1)))
          (imap (λ i v, (i, v)) flat).

(** [_shuffleByMoves(board, moves)].  [rnd i] is the value of
    [Math.floor(Math.random()*legal.length)] drawn in round [i]; it is
    reduced modulo the number of legal directions, the range the source
    guarantees. *)
Fixpoint _shuffleByMoves_from (i : nat) (rnd : nat → nat) (moves : nat)
    (board : Board) : Board :=
  match moves with
  | O => board
  | S moves' =>
      let legal := filter (λ d, _canMove board None None d = true) ["U"; "D"; "L"; "R"] in
      match legal !! (rnd i mod length legal) with
      | None => _shuffleByMoves_from (S i) rnd moves' board
      | Some d => _shuffleByMoves_from (S i) rnd moves' (fst (_applyMove board d))
      end
  end.

Definition _shuffleByMoves (rnd : nat → nat) (board : Board) (moves : nat) : Board :=
  _shuffleByMoves_from 0 rnd moves board.

(** The fallback of [_minimalMovesToBottomRight]: the first of the given
    directions that applies. *)
Fixpoint firstApplicable (board : Board) (dirs : list string) : option (Board * string) :=
  match dirs with
  | [] => None
  | d :: dirs' =>
      let '(b, moved) := _applyMove board d in
      if moved then Some (b, d) else firstApplicable board dirs'
  end.

(** [_minimalMovesToBottomRight]: the loop runs at most [maxSteps] rounds
    (the safety cap), so the cap is the recursion's fuel. *)
Fixpoint seekBottomRight (fuel : nat) (board : Board) (steps : list string)
    : Board * list string :=
  match fuel with
  | O => (board, steps)
  | S fuel' =>
      match _findBlank board with
      | None => (board, steps)
      | Some (br, bc) =>
          if (br =? ROWS - 1) && (bc =? COLS - 1) then (board, steps)
          else
            let tryD := if br <? ROWS - 1 then _applyMove board "D" else (board, false) in
            if snd tryD then seekBottomRight fuel' (fst tryD) (steps ++ ["D"])
            else
              let tryR := if bc <? COLS - 1 then _applyMove board "R" else (board, false) in
              if snd tryR then seekBottomRight fuel' (fst tryR) (steps ++ ["R"])
              else
                match firstApplicable board ["D"; "R"; "U"; "L"] with
                | Some (b, d) => seekBottomRight fuel' b (steps ++ [d])
                | None => (board, steps)
                end
      end
  end.

Definition _minimalMovesToBottomRight (board : Board) : Board * list string :=
  seekBottomRight (ROWS * COLS * 50) board [].

(** [for (i<bursts) _shuffleByMoves(board, moves)]: burst [j] draws the
    random numbers [rnd (j*moves) ..]. *)
Fixpoint shuffleBursts (moves : nat) (rnd : nat → nat) (j bursts : nat)
    (board : Board) : Board :=
  match bursts with
  | O => board
  | S bursts' =>
      shuffleBursts moves rnd (S j) bursts'
        (_shuffleByMoves_from (j * moves) rnd moves board)
  end.

(** A whole sequence of [_applyMove] calls, the returned flags dropped. *)
Definition applyMoves (board : Board) (dirs : list string) : Board :=
  foldl (λ b d, fst (_applyMove b d)) board dirs.

(** The shape every board of the module has. *)
Definition wf_board (board : Board) : Prop :=
  length board = ROWS ∧ Forall (λ row, length row = COLS) board.

(** The board invariant: the cells hold 0 .. ROWS*COLS-1, each once. *)
Definition board_inv (board : Board) : Prop :=
  wf_board board ∧ concat board ≡ₚ seq 0 (ROWS * COLS).

End Grid.

(** The module's constants. *)
Definition ROWS : nat := 3.
Definition COLS : nat := 4.
Definition SHUFFLE_MOVES : nat := 80.

(** The randomize step shared by [init], the R key and the R dialog. *)
Definition randomize (rnd : nat → nat) (board : Board) : Board :=
  fst (_minimalMovesToBottomRight ROWS COLS
         (shuffleBursts ROWS COLS SHUFFLE_MOVES rnd 0 10 board)).

(** The animation in flight while [_animating] is set. *)
Inductive Flight : Type :=
  | Slide (dir : string)   (* a tile slides into the blank: [_animateMeshPosition] *)
  | Quiver                 (* illegal-move feedback: [_animateQuiver] *)
  | FadeIn.                (* the final tile fades in: [_fadeInBlank] *)

(** The module-level variables the key handler reads and writes. *)
Record Puzzle : Type := mkPuzzle {
  _board : Board;
  _active : bool;
  _animating : bool;
  _controlsInverted : bool;
  inFlight : option Flight;
  puzzleSolved : bool
}.

(** The module state right after its top-level [let]s and [init]'s
    [_createEmptyBoard]: inactive, nothing animating, controls inverted. *)
Definition initial : Puzzle :=
  mkPuzzle (_createEmptyBoard ROWS COLS) false false true None false.

(** [init(..)] as far as the engine goes: the solved board is shuffled in
    ten bursts and the blank is driven to the bottom-right corner. *)
Definition init (rnd : nat → nat) : Puzzle :=
  mkPuzzle (randomize rnd (_createEmptyBoard ROWS COLS)) false false true None false.

(** Lines 536-539: the arrow key to direction mapping. *)
Definition arrowDir (inverted : bool) (code : string) : option string :=
  if String.eqb code "ArrowUp" then Some (if inverted then "D" else "U")
  else if String.eqb code "ArrowDown" then Some (if inverted then "U" else "D")
  else if String.eqb code "ArrowLeft" then Some (if inverted then "R" else "L")
  else if String.eqb code "ArrowRight" then Some (if inverted then "L" else "R")
  else None.

(** A cell inside the grid that holds a tile (every cell has a mesh once the
    board is rendered, so only the board value decides). *)
Definition tileAt (board : Board) (r c : Z) : bool :=
  inGrid ROWS COLS r c
  && bool_decide (cellAt board (Z.to_nat r) (Z.to_nat c) ≠ Some 0).

(** Lines 574-609: the tile that quivers on an illegal move: the attempted
    source, else the opposite neighbour, else an orthogonal neighbour. *)
Definition quiverTile (board : Board) (br bc : nat) (dir : string) : option (Z * Z) :=
  let dr := rowOffset dir in
  let dc := colOffset dir in
  let sr := (Z.of_nat br + dr)%Z in
  let sc := (Z.of_nat bc + dc)%Z in
  if tileAt board sr sc then Some (sr, sc)
  else
    let oppR := (Z.of_nat br - dr)%Z in
    let oppC := (Z.of_nat bc - dc)%Z in
    if tileAt board oppR oppC then Some (oppR, oppC)
    else
      let orth : list (Z * Z) :=
        if String.eqb dir "L" || String.eqb dir "R"
        then [((-1)%Z, 0%Z); (1%Z, 0%Z)]
        else [(0%Z, (-1)%Z); (0%Z, 1%Z)] in
      find (λ '(nr, nc), tileAt board nr nc)
           ((λ '(o0, o1), ((Z.of_nat br + o0)%Z, (Z.of_nat bc + o1)%Z)) <$> orth).

(** [window._slidePuzzle_keyHandler]: the state after the synchronous part
    of the handler.  Every non-blank cell has a mesh in [_tiles], so the
    handler's [if (!mesh)] branch (a move with no animation) is not
    taken. *)
Definition _slidePuzzle_keyHandler (rnd : nat → nat) (st : Puzzle) (code : string)
    : Puzzle :=
  if negb (_active st) then st
  else if _animating st then st
  else
    let dir := arrowDir (_controlsInverted st) code in
    if String.eqb code "KeyR" then
      mkPuzzle (randomize rnd (_board st)) (_active st) (_animating st)
               (_controlsInverted st) (inFlight st) (puzzleSolved st)
    else if String.eqb code "KeyI" then
      mkPuzzle (_board st) (_active st) (_animating st)
               (negb (_controlsInverted st)) (inFlight st) (puzzleSolved st)
    else
      match dir with
      | None => st
      | Some dir =>
          match _findBlank ROWS COLS (_board st) with
          | None => st
          | Some (br, bc) =>
              let sr := (Z.of_nat br + rowOffset dir)%Z in
              let sc := (Z.of_nat bc + colOffset dir)%Z in
              if negb (inGrid ROWS COLS sr sc) then
                match quiverTile (_board st) br bc dir with
                | Some _ =>
                    mkPuzzle (_board st) (_active st) true
                             (_controlsInverted st) (Some Quiver) (puzzleSolved st)
                | None => st
                end
              else
                mkPuzzle (_board st) (_active st) true
                         (_controlsInverted st) (Some (Slide dir)) (puzzleSolved st)
          end
      end.

(** The continuation that runs when the animation in flight resolves. *)
Definition animationDone (st : Puzzle) : Puzzle :=
  match inFlight st with
  | None => st
  | Some Quiver =>
      mkPuzzle (_board st) (_active st) false (_controlsInverted st) None (puzzleSolved st)
  | Some (Slide dir) =>
      let board := fst (_applyMove ROWS COLS (_board st) dir) in
      if _isSolved ROWS COLS board
      then mkPuzzle board (_active st) true (_controlsInverted st) (Some FadeIn) (puzzleSolved st)
      else mkPuzzle board (_active st) false (_controlsInverted st) None (puzzleSolved st)
  | Some FadeIn =>
      mkPuzzle (_board st) false false (_controlsInverted st) None true
  end.

(** [show()] and [hide()], as far as the handler's guards see them. *)
Definition show (st : Puzzle) : Puzzle :=
  mkPuzzle (_board st) true (_animating st) (_controlsInverted st) (inFlight st) (puzzleSolved st).
Definition hide (st : Puzzle) : Puzzle :=
  mkPuzzle (_board st) false (_animating st) (_controlsInverted st) (inFlight st) (puzzleSolved st).

(** The solved 3x4 board of the specification's scenario. *)
Definition solvedBoard : Board := [[1; 2; 3; 4]; [5; 6; 7; 8]; [9; 10; 11; 0]].


End SlidePuzzle.

(** ** The constellation edge engine ([constellation.js]) *)

Module Constellation.

(** [const CREATION_DISABLED = true]. *)
Definition CREATION_DISABLED : bool := true.

(** A star of [this.stars]: the flags the engine reads and writes.
    [filledSprite] tells whether [sprite.material.map] is the filled
    texture; [_linkedTemp] starts out [undefined], which is falsy. *)
Record Star : Type := mkStar {
  linked : bool;
  shooting : bool;
  _linkedTemp : bool;
  filledSprite : bool
}.

(** A [THREE.Line] object.  [lineId] is its identity (objects are compared
    by reference when the scene removes one); the end points are star
    indices, both equal for the dynamic line that follows the pointer. *)
Record Line : Type := mkLine {
  lineId : nat;
  lineFrom : nat;
  lineTo : nat
}.

#[global] Instance Line_eq_dec : EqDecision Line.
Proof. solve_decision. Defined.

(** The fields of a [ConstellationGame] that the gesture logic touches,
    with the lines the scene currently holds and the supply of fresh
    object identities. *)
Record Game : Type := mkGame {
  stars : list Star;
  edges : gset string;
  permanentLines : list Line;
  matchedEdges : gset string;
  dragging : bool;
  currentPath : list nat;
  currentLine : option Line;
  _tempLinesThisClick : list Line;
  _edgesThisClick : list string;
  _starsLinkedThisClick : list nat;
  creationMode : bool;
  sceneLines : list Line;
  nextLine : nat;
  completions : nat
}.

Definition set_stars v g := mkGame v (edges g) (permanentLines g) (matchedEdges g)
  (dragging g) (currentPath g) (currentLine g) (_tempLinesThisClick g)
  (_edgesThisClick g) (_starsLinkedThisClick g) (creationMode g) (sceneLines g)
  (nextLine g) (completions g).
Definition set_edges v g := mkGame (stars g) v (permanentLines g) (matchedEdges g)
  (dragging g) (currentPath g) (currentLine g) (_tempLinesThisClick g)
  (_edgesThisClick g) (_starsLinkedThisClick g) (creationMode g) (sceneLines g)
  (nextLine g) (completions g).
Definition set_permanentLines v g := mkGame (stars g) (edges g) v (matchedEdges g)
  (dragging g) (currentPath g) (currentLine g) (_tempLinesThisClick g)
  (_edgesThisClick g) (_starsLinkedThisClick g) (creationMode g) (sceneLines g)
  (nextLine g) (completions g).
Definition set_matchedEdges v g := mkGame (stars g) (edges g) (permanentLines g) v
  (dragging g) (currentPath g) (currentLine g) (_tempLinesThisClick g)
  (_edgesThisClick g) (_starsLinkedThisClick g) (creationMode g) (sceneLines g)
  (nextLine g) (completions g).
Definition set_dragging v g := mkGame (stars g) (edges g) (permanentLines g)
  (matchedEdges g) v (currentPath g) (currentLine g) (_tempLinesThisClick g)
  (_edgesThisClick g) (_starsLinkedThisClick g) (creationMode g) (sceneLines g)
  (nextLine g) (completions g).
Definition set_currentPath v g := mkGame (stars g) (edges g) (permanentLines g)
  (matchedEdges g) (dragging g) v (currentLine g) (_tempLinesThisClick g)
  (_edgesThisClick g) (_starsLinkedThisClick g) (creationMode g) (sceneLines g)
  (nextLine g) (completions g).
Definition set_currentLine v g := mkGame (stars g) (edges g) (permanentLines g)
  (matchedEdges g) (dragging g) (currentPath g) v (_tempLinesThisClick g)
  (_edgesThisClick g) (_starsLinkedThisClick g) (creationMode g) (sceneLines g)
  (nextLine g) (completions g).
Definition set_tempLines v g := mkGame (stars g) (edges g) (permanentLines g)
  (matchedEdges g) (dragging g) (currentPath g) (currentLine g) v
  (_edgesThisClick g) (_starsLinkedThisClick g) (creationMode g) (sceneLines g)
  (nextLine g) (completions g).
Definition set_edgesThisClick v g := mkGame (stars g) (edges g) (permanentLines g)
  (matchedEdges g) (dragging g) (currentPath g) (currentLine g)
  (_tempLinesThisClick g) v (_starsLinkedThisClick g) (creationMode g)
  (sceneLines g) (nextLine g) (completions g).
Definition set_starsLinked v g := mkGame (stars g) (edges g) (permanentLines g)
  (matchedEdges g) (dragging g) (currentPath g) (currentLine g)
  (_tempLinesThisClick g) (_edgesThisClick g) v (creationMode g)
  (sceneLines g) (nextLine g) (completions g).
Definition set_sceneLines v g := mkGame (stars g) (edges g) (permanentLines g)
  (matchedEdges g) (dragging g) (currentPath g) (currentLine g)
  (_tempLinesThisClick g) (_edgesThisClick g) (_starsLinkedThisClick g)
  (creationMode g) v (nextLine g) (completions g).
Definition set_nextLine v g := mkGame (stars g) (edges g) (permanentLines g)
  (matchedEdges g) (dragging g) (currentPath g) (currentLine g)
  (_tempLinesThisClick g) (_edgesThisClick g) (_starsLinkedThisClick g)
  (creationMode g) (sceneLines g) v (completions g).
Definition set_completions v g := mkGame (stars g) (edges g) (permanentLines g)
  (matchedEdges g) (dragging g) (currentPath g) (currentLine g)
  (_tempLinesThisClick g) (_edgesThisClick g) (_starsLinkedThisClick g)
  (creationMode g) (sceneLines g) (nextLine g) v.

(** How an event handler ends: it returns, or a [TypeError] escapes it.
    Either way the fields keep what was written up to that point. *)
Inductive Outcome : Type :=
  | Returned (g : Game)
  | Threw (g : Game).

Definition state_of (o : Outcome) : Game :=
  match o with Returned g => g | Threw g => g end.

(** The decimal text of a number inside a template string. *)
Definition numberText (n : nat) : string :=
  NilEmpty.string_of_uint (Nat.to_uint n).

(** [_edgeKey(a,b)]: [(a<b) ? `${a}-${b}` : `${b}-${a}`]. *)
Definition _edgeKey (a b : nat) : string :=
  if a <? b then numberText a +:+ "-" +:+ numberText b
  else numberText b +:+ "-" +:+ numberText a.

(** The level data handed to [load]: how many stars, the required index
    pairs, the indices of the shooting stars. *)
Record Sample : Type := mkSample {
  sampleStars : nat;
  sampleEdges : list (nat * nat);
  sampleShooting : list nat
}.

(** The object the constructor builds. *)
Definition newGame : Game :=
  mkGame [] ∅ [] ∅ false [] None [] [] [] false [] 0 0.

(** [scene.add(line)] and [scene.remove(line)]. *)
Definition sceneAdd (l : Line) (g : Game) : Game :=
  set_sceneLines (sceneLines g ++ [l]) g.
Definition sceneRemove (l : Line) (g : Game) : Game :=
  set_sceneLines (filter (λ l', lineId l' ≠ lineId l) (sceneLines g)) g.

(** [new THREE.Line(..)]: a line with a fresh identity. *)
Definition newLine (a b : nat) (g : Game) : Line * Game :=
  (mkLine (nextLine g) a b, set_nextLine (S (nextLine g)) g).

(** [load(sample)]: [matchedEdges] is reset, [_createSprites] pushes one
    star per sample entry onto [this.stars] and rebuilds [this.edges].
    The source awaits the two star textures in between; the call is taken
    here as one step, with no pointer event during the wait. *)
Definition load (sample : Sample) (g : Game) : Game :=
  let g1 := set_matchedEdges ∅ g in
  let fresh := (λ i, mkStar false (bool_decide (i ∈ sampleShooting sample)) false false)
                 <$> seq 0 (sampleStars sample) in
  let g2 := set_stars (stars g1 ++ fresh) g1 in
  set_edges (foldl (λ acc e, acc ∪ {[ _edgeKey e.1 e.2 ]}) ∅ (sampleEdges sample)) g2.

(** [_createDynamicLine(start, end)]. *)
Definition _createDynamicLine (idx : nat) (g : Game) : Game :=
  let '(line, g1) := newLine idx idx g in
  set_currentLine (Some line) (sceneAdd line g1).

(** [if (this.currentLine) { scene.remove(this.currentLine) }]. *)
Definition removeCurrentLine (g : Game) : Game :=
  match currentLine g with
  | Some l => sceneRemove l g
  | None => g
  end.

(** [this.stars[idx]] updated in place. *)
Definition updateStar (f : Star → Star) (idx : nat) (g : Game) : Game :=
  set_stars (alter f idx (stars g)) g.

(** The body of the loop of [_dropCurrentClick] over the stars linked in
    this click: [s._linkedTemp = false; if (!s.linked && s.emptyTex)
    s.sprite.material.map = s.emptyTex]. *)
Definition dropStar (s : Star) : Star :=
  mkStar (linked s) (shooting s) false (if negb (linked s) then false else filledSprite s).

(** The body of the loop of [_commitTempLines]: [s.linked = true;
    s._linkedTemp = false]. *)
Definition commitStar (s : Star) : Star :=
  mkStar true (shooting s) false (filledSprite s).

(** [for (const l of lines) scene.remove(l)]. *)
Definition sceneRemoveAll (lines : list Line) (g : Game) : Game :=
  foldl (λ acc l, sceneRemove l acc) g lines.

(** [_dropCurrentClick()]. *)
Definition _dropCurrentClick (g : Game) : Game :=
  let g1 := set_currentLine None (removeCurrentLine g) in
  let g2 := sceneRemoveAll (_tempLinesThisClick g1) g1 in
  let g3 := set_tempLines [] g2 in
  let g4 := foldl (λ acc idx, updateStar dropStar idx acc) g3 (_starsLinkedThisClick g3) in
  set_currentPath [] (set_edgesThisClick [] (set_starsLinked [] g4)).

(** [_checkCompletion()]: [onComplete] is counted, not run. *)
Definition _checkCompletion (g : Game) : Game :=
  if bool_decide (edges g ≠ ∅) then
    if bool_decide (edges g ⊆ matchedEdges g)
    then set_completions (S (completions g)) g else g
  else if forallb linked (stars g)
    then set_completions (S (completions g)) g else g.

(** [_commitTempLines()]. *)
Definition _commitTempLines (g : Game) : Game :=
  let g1 := set_permanentLines (permanentLines g ++ _tempLinesThisClick g) g in
  let g2 := if creationMode g1
            then set_edges (foldl (λ acc e, acc ∪ {[ e ]}) (edges g1) (_edgesThisClick g1)) g1
            else g1 in
  let g3 := set_matchedEdges
              (foldl (λ acc e, acc ∪ {[ e ]}) (matchedEdges g2) (_edgesThisClick g2)) g2 in
  let g4 := foldl (λ acc idx, updateStar commitStar idx acc) g3 (_starsLinkedThisClick g3) in
  let g5 := set_starsLinked [] (set_edgesThisClick [] (set_tempLines [] g4)) in
  let g6 := set_currentLine None (removeCurrentLine g5) in
  _checkCompletion (set_currentPath [] g6).

(** The two [if (!s._linkedTemp) { .. }] statements of
    [_finalizeSegmentAndStartNew]. *)
Definition markLinkedTemp (idx : nat) (g : Game) : Game :=
  match stars g !! idx with
  | Some s =>
      if _linkedTemp s then g
      else set_starsLinked (_starsLinkedThisClick g ++ [idx])
             (updateStar (λ s, mkStar (linked s) (shooting s) true true) idx g)
  | None => g
  end.

(** [_finalizeSegmentAndStartNew(aIdx, bIdx)].  [aIdx] is [None] when the
    caller read it from an empty [currentPath] ([undefined]); then, and for
    an index outside [this.stars], [this.stars[aIdx].pos] throws before
    anything is written. *)
Definition _finalizeSegmentAndStartNew (aIdx : option nat) (bIdx : nat) (g : Game)
    : Outcome :=
  match aIdx with
  | None => Threw g
  | Some a =>
      match stars g !! a, stars g !! bIdx with
      | Some _, Some _ =>
          let '(line, g1) := newLine a bIdx g in
          let g2 := set_tempLines (_tempLinesThisClick g1 ++ [line]) (sceneAdd line g1) in
          let g3 := set_edgesThisClick (_edgesThisClick g2 ++ [_edgeKey a bIdx]) g2 in
          let g4 := markLinkedTemp bIdx (markLinkedTemp a g3) in
          let g5 := removeCurrentLine g4 in
          let '(dyn, g6) := newLine bIdx bIdx g5 in
          let g7 := set_currentLine (Some dyn) (sceneAdd dyn g6) in
          Returned (set_currentPath [bIdx] g7)
      | _, _ => Threw g
      end
  end.

(** [this.stars.findIndex(s => s.collider === hit.object)]: a hit is given
    by the index of the star whose collider the ray met; a number that is
    no index of [this.stars] stands for an object that is no collider
    (result -1). *)
Definition findIndex (g : Game) (hit : nat) : option nat :=
  if decide (hit < length (stars g)) then Some hit else None.

(** [_onPointerDown(ev)], given the ordered raycast hits. *)
Definition _onPointerDown (hits : list nat) (g : Game) : Outcome :=
  match hits with
  | [] => Returned g
  | hit :: _ =>
      match findIndex g hit with
      | None => Returned g
      | Some idx =>
          let g1 := set_currentPath [idx] (set_dragging true g) in
          let g2 := set_starsLinked [] (set_edgesThisClick [] (set_tempLines [] g1)) in
          let g3 := _createDynamicLine idx g2 in
          match stars g3 !! idx with
          | Some s => Returned (if shooting s then _dropCurrentClick g3 else g3)
          | None => Threw g3
          end
      end
  end.

(** The loop of [_onPointerMove] over the hits: the first hit that is a
    star other than the last of [currentPath] is finalized, then [break]. *)
Fixpoint passThrough (hits : list nat) (g : Game) : Outcome :=
  match hits with
  | [] => Returned g
  | hit :: hits' =>
      match findIndex g hit with
      | None => passThrough hits' g
      | Some idx =>
          let last' := last (currentPath g) in
          if bool_decide (last' = Some idx) then passThrough hits' g
          else _finalizeSegmentAndStartNew last' idx g
      end
  end.

(** [_onPointerMove(ev)]. *)
Definition _onPointerMove (hits : list nat) (g : Game) : Outcome :=
  if negb (dragging g) then Returned g else passThrough hits g.

(** [_onPointerUp(ev)]. *)
Definition _onPointerUp (g : Game) : Outcome :=
  if negb (dragging g) then Returned g
  else
    let g1 := set_dragging false g in
    let bad := existsb (λ e, negb (creationMode g1) && bool_decide (e ∉ edges g1))
                       (_edgesThisClick g1) in
    Returned (if bad then _dropCurrentClick g1 else _commitTempLines g1).

(** [_clearAllLines()], run by the Show button. *)
Definition _clearAllLines (g : Game) : Game :=
  let g1 := sceneRemoveAll (permanentLines g) g in
  let g2 := set_permanentLines [] g1 in
  set_stars ((λ s, mkStar false (shooting s) (_linkedTemp s) false) <$> stars g2) g2.

(** What can happen to a game object. *)
Inductive Event : Type :=
  | Load (sample : Sample)
  | PointerDown (hits : list nat)
  | PointerMove (hits : list nat)
  | PointerUp
  | ShowClicked.

(** One event; an exception ends the handler and leaves the state as it
    is at that point. *)
Definition step (g : Game) (ev : Event) : Game :=
  match ev with
  | Load sample => load sample g
  | PointerDown hits => state_of (_onPointerDown hits g)
  | PointerMove hits => state_of (_onPointerMove hits g)
  | PointerUp => state_of (_onPointerUp g)
  | ShowClicked => _clearAllLines g
  end.

Definition run (g : Game) (evs : list Event) : Game := foldl step g evs.

(** The pointer events alone (a level is played with these). *)
Definition isPointerEvent (ev : Event) : bool :=
  match ev with
  | PointerDown _ | PointerMove _ | PointerUp => true
  | _ => false
  end.

(** The states a game object can be in: built by the constructor, then
    driven by events. *)
Definition reachable (g : Game) : Prop := ∃ evs, g = run newGame evs.

(** The ledger of a level: the required edges, the matched edges, the
    accepted lines and the mode.  A gesture may change it only on commit. *)
Definition ledger (g : Game) : gset string * gset string * list Line * bool :=
  (edges g, matchedEdges g, permanentLines g, creationMode g).

(** A field that none of the setters used during a click writes. *)
Definition click_free {B} (proj : Game → B) : Prop :=
  (∀ v g, proj (set_stars v g) = proj g) ∧
  (∀ v g, proj (set_sceneLines v g) = proj g) ∧
  (∀ v g, proj (set_currentLine v g) = proj g) ∧
  (∀ v g, proj (set_tempLines v g) = proj g) ∧
  (∀ v g, proj (set_edgesThisClick v g) = proj g) ∧
  (∀ v g, proj (set_starsLinked v g) = proj g) ∧
  (∀ v g, proj (set_currentPath v g) = proj g) ∧
  (∀ v g, proj (set_nextLine v g) = proj g).

(** Between gestures nothing of a click is left over. *)
Definition idle_clean (g : Game) : Prop :=
  dragging g = false →
  _edgesThisClick g = [] ∧ _tempLinesThisClick g = [] ∧ _starsLinkedThisClick g = [].

(** The level of the specification's scenario: three stars, one required
    edge (0,1), no shooting star; and the drag 0 -> 1 -> 2 up to the
    moment before the pointer is released. *)
Definition scenarioSample : Sample := mkSample 3 [(0, 1)] [].
Definition scenarioDrag : Game :=
  run newGame [Load scenarioSample; PointerDown [0]; PointerMove [1]; PointerMove [2]].

(** A level with a shooting star (index 1) at the end of its one required
    edge, and the drag 0 -> 1 released. *)
Definition shootingSample : Sample := mkSample 2 [(0, 1)] [1].
Definition shootingDrag : Game :=
  run newGame [Load shootingSample; PointerDown [0]; PointerMove [1]; PointerUp].

(** *** The lines in the scene *)

(** The lines the game object still refers to: the committed ones, those
    of the gesture in flight, and the dynamic line that follows the
    pointer. *)
Definition trackedLines (g : Game) : list Line :=
  permanentLines g ++ _tempLinesThisClick g ++ option_list (currentLine g).

(** The scene holds the tracked lines and no other, each once, under
    identities that were handed out; between gestures no line of a click
    is left. *)
Definition scene_exact (g : Game) : Prop :=
  sceneLines g ≡ₚ trackedLines g ∧
  NoDup (lineId <$> sceneLines g) ∧
  (∀ l, l ∈ sceneLines g → lineId l < nextLine g).
Definition scene_tracked (g : Game) : Prop :=
  scene_exact g ∧
  (dragging g = false → _tempLinesThisClick g = [] ∧ currentLine g = None).

(** A press arrives only between gestures: no [pointerdown] while a drag
    is in flight. *)
Fixpoint pressesWhenIdle (g : Game) (evs : list Event) : Prop :=
  match evs with
  | [] => True
  | ev :: evs' =>
      (match ev with PointerDown _ => dragging g = false | _ => True end)
      ∧ pressesWhenIdle (step g ev) evs'
  end.

End Constellation.

(** ** The helix motion model ([main.js]) *)

Module Helix.

Local Open Scope R_scope.

(** Comparisons of numbers, as the source's [if]s decide them. *)
#[global] Instance Rlt_decision (x y : R) : Decision (x < y) := Rlt_dec x y.
#[global] Instance Rle_decision (x y : R) : Decision (x <= y) := Rle_dec x y.
#[global] Instance Req_decision : EqDecision R := Req_dec_T.

(** *** JavaScript's [Math] functions, over the reals *)

(** [Math.atan2(y, x)], the angle of the point [(x, y)] in (-PI, PI];
    the reals have one zero, so the double's [-0] cases are not told
    apart. *)
Definition atan2 (y x : R) : R :=
  if decide (0 < x) then atan (y / x)
  else if decide (x < 0) then
    (if decide (0 <= y) then atan (y / x) + PI else atan (y / x) - PI)
  else if decide (0 < y) then PI / 2
  else if decide (y < 0) then - (PI / 2)
  else 0.

(** [Math.round(x)]: the nearest integer, halves rounded up. *)
Definition round (x : R) : Z := Int_part (x + / 2).

(** [Math.hypot(a, b)]. *)
Definition hypot (a b : R) : R := sqrt (a * a + b * b).

(** *** Vectors of three.js *)

Record Vector3 : Type := mkVector3 { vx : R; vy : R; vz : R }.

Definition vlength (v : Vector3) : R :=
  sqrt (vx v * vx v + vy v * vy v + vz v * vz v).

(** [v.normalize()]: [v.divideScalar(v.length() || 1)]. *)
Definition normalize (v : Vector3) : Vector3 :=
  let len := if decide (vlength v = 0) then 1 else vlength v in
  mkVector3 (vx v / len) (vy v / len) (vz v / len).

(** [crossVectors(a, b)]. *)
Definition crossVectors (a b : Vector3) : Vector3 :=
  mkVector3 (vy a * vz b - vz a * vy b)
            (vz a * vx b - vx a * vz b)
            (vx a * vy b - vy a * vx b).

(** [v.addScaledVector(u, s)]. *)
Definition addScaledVector (v u : Vector3) (s : R) : Vector3 :=
  mkVector3 (vx v + vx u * s) (vy v + vy u * s) (vz v + vz u * s).

(** *** The [helix] object and the scene state *)

(** The [helix] configuration object; [centerX], [centerZ] are
    [helix.center.x] and [helix.center.y] (a [Vector2] holding world X, Z).
    Times are milliseconds of [Date.now()]. *)
Record HelixCfg : Type := mkHelix {
  enabled : bool;
  centerX : R;
  centerZ : R;
  radius : R;
  thickness : R;
  pitch : R;
  baseY : R;
  offsetY : R;
  inverted : bool;
  lastTheta : R;
  wrapCooldown : Z;
  _lastWrapTime : Z
}.

(** The rest of what [updateMovement] and [constrainCameraToHelix] read:
    the camera position, the pointer lock, and the [scene.userData] flags
    ([initialHelixRef] is kept by its [cameraPos.y], the only part read). *)
Record World : Type := mkWorld {
  helix : HelixCfg;
  camera : Vector3;
  isLocked : bool;
  modelsLoaded : bool;
  towerRef : bool;
  initialHelixRef : option R;
  wrapReady : bool;
  wrapReadyAt : option Z
}.

(** The pressed keys that [updateMovement] looks at. *)
Record Keys : Type := mkKeys {
  KeyW : bool; KeyS : bool; KeyA : bool; KeyD : bool;
  KeyE : bool; KeyQ : bool; ShiftLeft : bool; ShiftRight : bool
}.

Definition WALK_SPEED : R := 3.
Definition RUN_MULT : R := 18 / 10.
Definition FLOOR_Y : R := 1 / 10.

Definition set_lastTheta (t : R) (h : HelixCfg) : HelixCfg :=
  mkHelix (enabled h) (centerX h) (centerZ h) (radius h) (thickness h) (pitch h)
          (baseY h) (offsetY h) (inverted h) t (wrapCooldown h) (_lastWrapTime h).
Definition set_offsetY (o : R) (h : HelixCfg) : HelixCfg :=
  mkHelix (enabled h) (centerX h) (centerZ h) (radius h) (thickness h) (pitch h)
          (baseY h) o (inverted h) (lastTheta h) (wrapCooldown h) (_lastWrapTime h).
Definition set_lastWrapTime (t : Z) (h : HelixCfg) : HelixCfg :=
  mkHelix (enabled h) (centerX h) (centerZ h) (radius h) (thickness h) (pitch h)
          (baseY h) (offsetY h) (inverted h) (lastTheta h) (wrapCooldown h) t.
Definition set_helix (h : HelixCfg) (w : World) : World :=
  mkWorld h (camera w) (isLocked w) (modelsLoaded w) (towerRef w)
          (initialHelixRef w) (wrapReady w) (wrapReadyAt w).
Definition set_camera (c : Vector3) (w : World) : World :=
  mkWorld (helix w) c (isLocked w) (modelsLoaded w) (towerRef w)
          (initialHelixRef w) (wrapReady w) (wrapReadyAt w).

(** *** The pieces of the helix mapping *)

(** [let wrappedTheta = Math.atan2(dz, dx); if (wrappedTheta < 0)
    wrappedTheta += Math.PI * 2]: the angle in [0, 2 PI). *)
Definition wrappedTheta (dz dx : R) : R :=
  let t := atan2 dz dx in
  if decide (t < 0) then t + PI * 2 else t.

(** [k = Math.round((near - wrapped) / (2 * Math.PI));
    theta = wrapped + k * (2 * Math.PI)]: the branch nearest to [near]. *)
Definition branchNear (near wrapped : R) : R :=
  let k := round ((near - wrapped) / (2 * PI)) in
  wrapped + IZR k * (2 * PI).

(** [const sign = helix.inverted ? -1 : 1]. *)
Definition sign (h : HelixCfg) : R := if inverted h then -1 else 1.

(** [helix.baseY + sign * (theta / (2 * Math.PI)) * helix.pitch + helix.offsetY]. *)
Definition helixY (h : HelixCfg) (theta : R) : R :=
  baseY h + sign h * (theta / (2 * PI)) * pitch h + offsetY h.

Definition rMin (h : HelixCfg) : R := radius h - thickness h / 2.
Definition rMax (h : HelixCfg) : R := radius h + thickness h / 2.

(** [Math.min(Math.max(r, rMin), rMax)]. *)
Definition rClamped (h : HelixCfg) (r : R) : R :=
  Rmin (Rmax r (rMin h)) (rMax h).

(** Lines 381-401 of [updateMovement]: from the target point to the new
    [lastTheta] and camera position. *)
Definition moveToTarget (targetX targetZ : R) (w : World) : World :=
  let h := helix w in
  let cx := centerX h in
  let cz := centerZ h in
  let wrapped := wrappedTheta (targetZ - cz) (targetX - cx) in
  let theta := branchNear (lastTheta h) wrapped in
  let h' := set_lastTheta theta h in
  let rTarget := hypot (targetX - cx) (targetZ - cz) in
  let rc := rClamped h' rTarget in
  set_camera (mkVector3 (cx + rc * cos theta) (helixY h' theta) (cz + rc * sin theta))
             (set_helix h' w).

(** [initHelixLastThetaFromCamera()]. *)
Definition initHelixLastThetaFromCamera (w : World) : World :=
  let h := helix w in
  let dx := vx (camera w) - centerX h in
  let dz := vz (camera w) - centerZ h in
  let wrapped := wrappedTheta dz dx in
  let denom := if decide (sign h * pitch h = 0) then 1 / 1000000 else sign h * pitch h in
  let desiredThetaFull := ((vy (camera w) - baseY h - offsetY h) * 2 * PI) / denom in
  set_helix (set_lastTheta (branchNear desiredThetaFull wrapped) h) w.

(** The guard of the wrap block: the tower is placed, a reference pose is
    stored, and wrap was enabled more than a second ago. *)
Definition wrapArmed (now : Z) (w : World) : option R :=
  match initialHelixRef w, wrapReadyAt w with
  | Some refY, Some t =>
      if towerRef w && wrapReady w && bool_decide (t ≠ 0%Z)
         && bool_decide (1000 < now - t)%Z
      then Some refY else None
  | _, _ => None
  end.

(** The first step of a wrap: [camera.position.y] moved by three rings,
    down when it is at or above the upper threshold, up when it is at or
    below the lower one. *)
Definition translatedY (refY : R) (w : World) : R :=
  let upThreshold := refY + 2 * pitch (helix w) in
  let downThreshold := refY - 2 * pitch (helix w) in
  let wrapAmount := 3 * pitch (helix w) in
  let y := vy (camera w) in
  if decide (upThreshold <= y) then y - wrapAmount
  else if decide (y <= downThreshold) then y + wrapAmount else y.

(** The wrap itself (the [else] branch of the cooldown test): translate
    [camera.position.y], recompute [lastTheta], snap Y to the helix,
    remember the time. *)
Definition wrapCamera (refY : R) (now : Z) (w : World) : World :=
  let w1 := set_camera (mkVector3 (vx (camera w)) (translatedY refY w) (vz (camera w))) w in
  let w2 := initHelixLastThetaFromCamera w1 in
  let canonicalY := helixY (helix w2) (lastTheta (helix w2)) in
  let w3 := set_camera (mkVector3 (vx (camera w2)) canonicalY (vz (camera w2))) w2 in
  set_helix (set_lastWrapTime now (helix w3)) w3.

(** [constrainCameraToHelix()]; [now] and [now'] are the two readings of
    [Date.now()] the function takes. *)
Definition constrainCameraToHelix (now now' : Z) (w : World) : World :=
  if negb (modelsLoaded w) then w
  else if negb (enabled (helix w)) then w
  else
    let h := helix w in
    let cx := centerX h in
    let cz := centerZ h in
    let dx := vx (camera w) - cx in
    let dz := vz (camera w) - cz in
    let wrapped := wrappedTheta dz dx in
    let theta := branchNear (lastTheta h) wrapped in
    let unwrapped :=
      let h' := set_lastTheta theta h in
      let r := hypot dx dz in
      let rc := rClamped h' r in
      set_camera (mkVector3 (cx + rc * cos theta) (helixY h' theta) (cz + rc * sin theta))
                 (set_helix h' w) in
    match wrapArmed now w with
    | Some refY =>
        if bool_decide (refY + 2 * pitch h <= vy (camera w)
                        ∨ vy (camera w) <= refY - 2 * pitch h)
        then
          if bool_decide (now' - _lastWrapTime h < wrapCooldown h)%Z
          then unwrapped
          else wrapCamera refY now' w
        else unwrapped
    | None => unwrapped
    end.

(** A revolution wrap fires in this call: the models are loaded, the helix
    is enabled, the wrap is armed with reference height [refY], the camera
    is two rings or more above or below it, and the cooldown has passed. *)
Definition wrapFires (now now' : Z) (w : World) (refY : R) : Prop :=
  modelsLoaded w = true ∧ enabled (helix w) = true ∧
  wrapArmed now w = Some refY ∧
  (refY + 2 * pitch (helix w) <= vy (camera w)
   ∨ vy (camera w) <= refY - 2 * pitch (helix w)) ∧
  ¬ (now' - _lastWrapTime (helix w) < wrapCooldown (helix w))%Z.

(** [controls.moveForward(d)] and [controls.moveRight(d)] of
    PointerLockControls; [camRight] is column 0 of the camera matrix. *)
Definition moveForward (camRight : Vector3) (d : R) (c : Vector3) : Vector3 :=
  addScaledVector c (crossVectors (mkVector3 0 1 0) camRight) d.
Definition moveRight (camRight : Vector3) (d : R) (c : Vector3) : Vector3 :=
  addScaledVector c camRight d.

(** The horizontal movement vector [_v_move] built from the camera's world
    direction and the WASD axes [f] and [s]. *)
Definition horizontalMove (camDir : Vector3) (f s : Z) (speed dt : R) : Vector3 :=
  let _v_dir := normalize (mkVector3 (vx camDir) 0 (vz camDir)) in
  let _v_right := normalize (crossVectors _v_dir (mkVector3 0 1 0)) in
  addScaledVector
    (addScaledVector (mkVector3 0 0 0) _v_dir (IZR f * speed * dt))
    _v_right (IZR s * speed * dt).

Definition axis (plus minus : bool) : Z :=
  ((if plus then 1 else 0) - (if minus then 1 else 0))%Z.

(** The first half of [updateMovement]: free walking when the helix is
    disabled, else the WASD intent mapped onto the helix. *)
Definition horizontalInput (speed dt : R) (keys : Keys) (camDir camRight : Vector3)
    (w : World) : World :=
  if negb (enabled (helix w)) then
    let c1 := if KeyW keys then moveForward camRight (speed * dt) (camera w) else camera w in
    let c2 := if KeyS keys then moveForward camRight (- speed * dt) c1 else c1 in
    let c3 := if KeyA keys then moveRight camRight (- speed * dt) c2 else c2 in
    let c4 := if KeyD keys then moveRight camRight (speed * dt) c3 else c3 in
    set_camera c4 w
  else
    let f := axis (KeyW keys) (KeyS keys) in
    let s := axis (KeyD keys) (KeyA keys) in
    if bool_decide (f ≠ 0%Z) || bool_decide (s ≠ 0%Z) then
      let _v_move := horizontalMove camDir f s speed dt in
      moveToTarget (vx (camera w) + vx _v_move) (vz (camera w) + vz _v_move) w
    else w.

(** The second half, "vertical fly or helix offset": Q and E move
    [helix.offsetY] in helix mode, the camera itself otherwise. *)
Definition verticalInput (speed dt : R) (keys : Keys) (w : World) : World :=
  if enabled (helix w) then
    let h1 := if KeyE keys then set_offsetY (offsetY (helix w) + speed * dt) (helix w)
              else helix w in
    let h2 := if KeyQ keys then set_offsetY (offsetY h1 - speed * dt) h1 else h1 in
    set_helix h2 w
  else
    let c1 := if KeyE keys
              then mkVector3 (vx (camera w)) (vy (camera w) + speed * dt) (vz (camera w))
              else camera w in
    let c2 := if KeyQ keys
              then mkVector3 (vx c1) (vy c1 - speed * dt) (vz c1) else c1 in
    let c3 := if decide (vy c2 < FLOOR_Y)
              then mkVector3 (vx c2) FLOOR_Y (vz c2) else c2 in
    set_camera c3 w.

(** [updateMovement(dt)], given the keys, the camera's world direction
    and right vector, and the clock readings of the constraint step. *)
Definition updateMovement (dt : R) (keys : Keys) (camDir camRight : Vector3)
    (now now' : Z) (w : World) : World :=
  if negb (isLocked w) then w
  else if negb (modelsLoaded w) then w
  else
    let speed := if ShiftLeft keys || ShiftRight keys
                 then WALK_SPEED * RUN_MULT else WALK_SPEED in
    let w1 := horizontalInput speed dt keys camDir camRight w in
    let w2 := verticalInput speed dt keys w1 in
    constrainCameraToHelix now now' w2.

(** The radial distance of the camera from the helix axis. *)
Definition cameraRadius (w : World) : R :=
  hypot (vx (camera w) - centerX (helix w)) (vz (camera w) - centerZ (helix w)).

(** The helix mapping [theta -> position] at radial distance [r]. *)
Definition helixPosition (h : HelixCfg) (r theta : R) : Vector3 :=
  mkVector3 (centerX h + r * cos theta) (helixY h theta) (centerZ h + r * sin theta).

(** Re-deriving the angle of a position, seeded with [seed] as [lastTheta]
    (lines 382-386 and 427-431). *)
Definition thetaOfPosition (h : HelixCfg) (seed : R) (p : Vector3) : R :=
  branchNear seed (wrappedTheta (vz p - centerZ h) (vx p - centerX h)).

(** The scenario of the specification: center (0,0), radius 2, thickness
    0.6, pitch 2, inverted, baseY 10, offsetY 0, lastTheta 0. *)
Definition scenarioHelix : HelixCfg :=
  mkHelix true 0 0 2 (6 / 10) 2 10 0 true 0 250%Z 0%Z.

(** A world with the scenario's helix: the camera on the band at angle 0,
    everything loaded, the wrap armed with reference height 10. *)
Definition scenarioWorld : World :=
  mkWorld scenarioHelix (mkVector3 2 10 0) true true true (Some 10) true (Some 1%Z).


(** A camera two and a half rings above the reference height 0, with the
    wrap armed and the cooldown long past. *)
Definition nearWorld : World :=
  mkWorld (mkHelix true 0 0 2 (6 / 10) 2 0 5 true 0 250%Z 0%Z)
          (mkVector3 2 5 0) true true true (Some 0) true (Some 1%Z).


(** The configuration [main.js] sets up at module level, before the tower
    is placed. *)
Definition _helixTop_theta : R := - (33936299897535235 / 1000000000000000).
Definition _helixTop_helixY : R := 19277361614729536 / 1000000000000000.
Definition moduleHelix : HelixCfg :=
  mkHelix true 0 0 (1943 / 1000) (6 / 10) (216255 / 100000)
          (_helixTop_helixY - (-1) * (_helixTop_theta / (2 * PI)) * (216255 / 100000) - 0)
          0 true _helixTop_theta 250%Z 0%Z.

(** *** The start angle *)

(** [computeHelixLastThetaFromPosition(worldPos)]; [None] is the
    [undefined] returned for a missing position. *)
Definition computeHelixLastThetaFromPosition (h : HelixCfg) (worldPos : option Vector3)
    : option R :=
  match worldPos with
  | None => None
  | Some p =>
      let dx := vx p - centerX h in
      let dz := vz p - centerZ h in
      let wrapped := wrappedTheta dz dx in
      let denom := if decide (sign h * pitch h = 0) then 1 / 1000000 else sign h * pitch h in
      let desiredThetaFull := ((vy p - baseY h - offsetY h) * 2 * PI) / denom in
      Some (branchNear desiredThetaFull wrapped)
  end.

(** [helix.lastTheta = computeHelixLastThetaFromPosition(startPose.pos) ||
    helix.lastTheta] of [placeTowerAndStairs]: a result that is
    [undefined] or [0] is falsy and keeps the old angle. *)
Definition startLastTheta (h : HelixCfg) (startPos : option Vector3) : R :=
  match computeHelixLastThetaFromPosition h startPos with
  | Some t => if decide (t = 0) then lastTheta h else t
  | None => lastTheta h
  end.

End Helix.

(** ** The slide puzzle animations *)

Module PuzzleView.
Import SlidePuzzle Helix.
Local Open Scope R_scope.

(** [const t = Math.min(1, (now - start) / duration)]: the progress of an
    animation started at [start], at the frame time [now]. *)
Definition progress (start duration now : R) : R :=
  Rmin 1 ((now - start) / duration).

(** [const tt = t < 0.5 ? 2*t*t : -1 + (4-2*t)*t]. *)
Definition easeInOut (t : R) : R :=
  if decide (t < 1 / 2) then 2 * t * t else -1 + (4 - 2 * t) * t.

(** One frame of [_animateMeshPosition(mesh, fromPos, toPos, duration)]:
    the position written to the mesh, and whether the promise resolves
    in this frame ([if (t < 1) requestAnimationFrame(step); else
    resolve()]). *)
Definition _animateMeshPosition (fromPos toPos : Vector3) (duration start now : R)
    : Vector3 * bool :=
  let t := progress start duration now in
  let tt := easeInOut t in
  (mkVector3 (vx fromPos + (vx toPos - vx fromPos) * tt)
             (vy fromPos + (vy toPos - vy fromPos) * tt)
             (vz fromPos + (vz toPos - vz fromPos) * tt),
   bool_decide (¬ t < 1)).

(** One frame of [_animateQuiver(mesh, axis, amount, duration)]: the
    coordinate written to [mesh.position[axis]], and whether the promise
    resolves; [from] is the coordinate read when the animation began. *)
Definition _animateQuiver (from amount duration start now : R) : R * bool :=
  let half := duration / 2 in
  let elapsed := now - start in
  if decide (elapsed < half) then (from + amount * (elapsed / half), false)
  else if decide (elapsed < duration)
       then (from + amount * (1 - (elapsed - half) / half), false)
       else (from, true).

End PuzzleView.

(** ** The slide puzzle tiles *)

Module PuzzleTiles.
Import SlidePuzzle Helix.

(** What a tile's canvas holds: the rectangle of the source image drawn
    onto it ([ctxTile.drawImage(img, sx, sy, sw, sh, 0, 0, tw, th)]), or the
    fallback colour [hsl(hue, 60%, 40%)] when the image failed to load. *)
Inductive TileContent : Type :=
  | Slice (sx sy sw sh : nat)
  | Fallback (hue : nat).

(** A [THREE.CanvasTexture]: the canvas size and what was drawn. *)
Record Texture : Type := mkTexture {
  texWidth : nat;
  texHeight : nat;
  texContent : TileContent
}.

(** A mesh of [_tileMeshes]: a tile with its texture ([textures[idx-1]],
    [None] when the array has no such entry), or the invisible mesh that
    stands in the blank cell. *)
Inductive MeshKind : Type :=
  | TileMesh (tex : option Texture)
  | BlankMesh.

Record Mesh : Type := mkMesh {
  meshPosition : Vector3;
  meshKind : MeshKind
}.

Section Tiles.
Variables ROWS COLS : nat.

(** [_createTileTextures(src)], given the size of the loaded image
    ([None]: the image failed to load). *)
Definition _createTileTextures (img : option (nat * nat)) : list Texture :=
  let '(tw, th) := match img with
                   | Some (iw, ih) => (iw / COLS, ih / ROWS)
                   | None => (128, 128)
                   end in
  r ← seq 0 ROWS; c ← seq 0 COLS;
    [mkTexture tw th
       (match img with
        | Some _ => Slice (c * tw) (r * th) tw th
        | None => Fallback ((r * COLS + c) * 6)
        end)].

Local Open Scope R_scope.

(** The position [_renderBoard] gives the mesh of cell (r, c):
    [(startX + c*spacing, startY - r*spacing, baseZ)]. *)
Definition tilePosition (_tileSize : R) (r c : nat) : Vector3 :=
  let baseZ := - (1 / 2) in
  let spacing := _tileSize * (98 / 100) in
  let startX := - (INR COLS / 2 - 1 / 2) * spacing in
  let startY := (INR ROWS / 2 - 1 / 2) * spacing in
  mkVector3 (startX + INR c * spacing) (startY - INR r * spacing) baseZ.

(** [_renderBoard(textures)]: the array [_tileMeshes] it builds from
    [_board].  [None] is the [TypeError] of reading [_board[r][c]] in a
    missing row; a missing cell reads [undefined], which is not [0] and
    indexes no texture. *)
Definition _renderBoard (textures : list Texture) (_tileSize : R) (board : Board)
    : option (list (list Mesh)) :=
  mapM (λ r,
    row ← board !! r;
    Some ((λ c,
       mkMesh (tilePosition _tileSize r c)
         (match row !! c with
          | Some idx => if (idx =? 0)%nat then BlankMesh
                        else TileMesh (textures !! (idx - 1)%nat)
          | None => TileMesh None
          end)) <$> seq 0 COLS)) (seq 0 ROWS).

(** The texture [_fadeInBlank] puts on the blank cell (when the board has
    one) once the puzzle is solved: [_lastTextures[finalIndex-1]] if the
    array is long enough; the grid has at least one cell. *)
Definition _fadeInBlank_texture (textures : list Texture) : option Texture :=
  let finalIndex := (ROWS * COLS)%nat in
  if decide (finalIndex ≤ length textures)%nat
  then textures !! (finalIndex - 1)%nat else None.

End Tiles.
End PuzzleTiles.

(** ** The movement controller *)

Module Platform.
Import Helix.
Local Open Scope R_scope.

(** The [opts] object handed to [createMovementController]; a field that
    is absent (or, for the numbers, not of type number) is [None]. *)
Record ControllerOpts : Type := mkOpts {
  optCenter : option Vector3;
  optRadius : option R;
  optMinY : option R;
  optMaxY : option R
}.

(** The closure state of a movement controller. *)
Record MovementController : Type := mkController {
  ctlCenter : Vector3;
  ctlRadius : R;
  ctlMinY : R;
  ctlMaxY : R;
  disposed : bool
}.

(** [createMovementController(cameraRef, opts)]. *)
Definition createMovementController (opts : ControllerOpts) : MovementController :=
  mkController (default (mkVector3 0 0 0) (optCenter opts))
               (default 6 (optRadius opts))
               (default (1 / 2) (optMinY opts))
               (default 10 (optMaxY opts))
               false.

(** [clampPosition()]: the camera position it leaves. *)
Definition clampPosition (mc : MovementController) (pos : Vector3) : Vector3 :=
  if disposed mc then pos
  else
    let dx := vx pos - vx (ctlCenter mc) in
    let dz := vz pos - vz (ctlCenter mc) in
    let dist := hypot dx dz in
    let p1 := if decide (ctlRadius mc < dist)
              then let scale := ctlRadius mc / dist in
                   mkVector3 (vx (ctlCenter mc) + dx * scale) (vy pos)
                             (vz (ctlCenter mc) + dz * scale)
              else pos in
    let p2 := if decide (vy p1 < ctlMinY mc)
              then mkVector3 (vx p1) (ctlMinY mc) (vz p1) else p1 in
    if decide (ctlMaxY mc < vy p2)
    then mkVector3 (vx p2) (ctlMaxY mc) (vz p2) else p2.

(** The returned object's [update(dt)] and [dispose()]. *)
Definition update (mc : MovementController) (dt : R) (pos : Vector3) : Vector3 :=
  clampPosition mc pos.
Definition dispose (mc : MovementController) : MovementController :=
  mkController (ctlCenter mc) (ctlRadius mc) (ctlMinY mc) (ctlMaxY mc) true.

End Platform.

(** ** The stair segments ([main.js]) *)

Module Stairs.
Import Helix.
Local Open Scope R_scope.

(** An entry of [stairsSegmentsData]: [{ position, rotation, scale }]. *)
Record SegmentData : Type := mkSegmentData {
  position : Vector3;
  rotation : Vector3;
  scale : Vector3
}.

(** [[...data].sort((a,b) => a.position.y - b.position.y)]: the copy
    sorted by ascending [position.y].  JavaScript's sort is stable, which
    fixes its result; it is computed here by insertion, an entry going
    in front of the first one that is not below it. *)
Fixpoint insertByY (d : SegmentData) (l : list SegmentData) : list SegmentData :=
  match l with
  | [] => [d]
  | x :: l' =>
      if decide (vy (position d) <= vy (position x)) then d :: l
      else x :: insertByY d l'
  end.

Definition sortByY (data : list SegmentData) : list SegmentData :=
  foldr insertByY [] data.

(** [sorted[i].position.y]. *)
Definition yAt (sorted : list SegmentData) (i : nat) : R :=
  nth i (vy ∘ position <$> sorted) 0.

(** [averageSpacing(data)]. *)
Definition averageSpacing (data : list SegmentData) : R :=
  if decide (length data < 2)%nat then 0
  else
    let sorted := sortByY data in
    let total := foldl (λ total i, total + (yAt sorted i - yAt sorted (i - 1)))
                       0 (seq 1 (length sorted - 1)) in
    total / INR (length sorted - 1).

(** A stair segment placed in the scene: the base mesh itself for the
    first entry, a clone added to [stairsGroup] for the others. *)
Record Segment : Type := mkSegment {
  isClone : bool;
  segPosition : Vector3;
  segRotation : Vector3;
  segScale : Vector3
}.

(** [rebuildStairsFromData(baseStairs, data)]: the returned [group].
    [None] is the [TypeError] of [sorted[0].position] on empty data. *)
Definition rebuildStairsFromData (data : list SegmentData) : option (list Segment) :=
  let sorted := sortByY data in
  let spacing := averageSpacing sorted in
  match sorted with
  | [] => None
  | first :: _ =>
      let baseY := vy (position first) in
      Some (imap (λ i d,
                    mkSegment (bool_decide (i ≠ 0%nat))
                      (mkVector3 (vx (position d)) (baseY + spacing * INR i)
                                 (vz (position d)))
                      (rotation d) (scale d))
                 sorted)
  end.

(** [position.y] of an entry, and what "sorted by it" means. *)
Definition yOf (d : SegmentData) : R := vy (position d).
Definition ascending (l : list SegmentData) : Prop :=
  ∀ i j a b, (i <= j)%nat → l !! i = Some a → l !! j = Some b → yOf a <= yOf b.

(** [const stairsSegmentsData = [..]]: the four entries of the module. *)
Definition segmentAt (y : R) : SegmentData :=
  mkSegmentData (mkVector3 (-2) y (174 / 10)) (mkVector3 0 0 0)
                (mkVector3 (574 / 1000) (53 / 100) (574 / 1000)).
Definition stairsSegmentsData : list SegmentData :=
  [ segmentAt (625 / 100);
    segmentAt (10572143951743062 / 1000000000000000);
    segmentAt (19292879034861175 / 10000000000000000);
    segmentAt (14896431855229162 / 1000000000000000) ].

End Stairs.

(** ** The pointer on the sphere of the stars ([constellation.js]) *)

Module Pointer.
Import Helix.
Local Open Scope R_scope.

(** [a.dot(b)]. *)
Definition dot (a b : Vector3) : R := vx a * vx b + vy a * vy b + vz a * vz b.

(** The projection of the pointer ray onto the sphere of the stars
    ([_onPointerMove], [_createStarAtPointer]): the far root of
    [|origin + t dir|^2 = radius^2] when the discriminant is not negative,
    else the point at distance factor [far] along the ray (1000 in
    [_onPointerMove], [this.radius] in [_createStarAtPointer]).  The
    direction of a ray is not the null vector, so [a] is not 0. *)
Definition sphereHit (origin dir : Vector3) (radius far : R) : Vector3 :=
  let a := dot dir dir in
  let b := 2 * dot dir origin in
  let c := dot origin origin - radius * radius in
  let disc := b * b - 4 * a * c in
  if decide (0 <= disc)
  then let t := (- b + sqrt disc) / (2 * a) in addScaledVector origin dir t
  else addScaledVector origin dir far.

End Pointer.

(** ** The sound effects ([audio_manager.js]) *)

Module Audio.

(** [const SOUND_MAP]: the own properties of the object literal. *)
Definition SOUND_MAP : gmap string string :=
  list_to_map
    [ ("painting:move-tile", "./assets/audio/sound-effects/painting/move-tile.mp3");
      ("painting:scene-victory",
       "./assets/audio/sound-effects/painting/scene-load-and-victory.mp3");
      ("philosophy:on-level-start",
       "./assets/audio/sound-effects/philosophy/on-level-start.mp3");
      ("philosophy:on-star-link",
       "./assets/audio/sound-effects/philosophy/on-star-link.mp3") ].

(** The properties every object literal inherits from [Object.prototype]
    (ECMAScript, Annex B included).  Each is a function, but [__proto__],
    whose getter answers [Object.prototype] itself: all are truthy. *)
Definition objectPrototypeNames : list string :=
  [ "constructor"; "hasOwnProperty"; "isPrototypeOf"; "propertyIsEnumerable";
    "toLocaleString"; "toString"; "valueOf"; "__proto__";
    "__defineGetter__"; "__defineSetter__"; "__lookupGetter__"; "__lookupSetter__" ].

(** What [SOUND_MAP[key]] evaluates to: the path of an own property, else
    an inherited value, else [undefined] ([None]). *)
Inductive Entry : Type :=
  | Path (src : string)
  | Inherited.

Definition SOUND_MAP_get (key : string) : option Entry :=
  match SOUND_MAP !! key with
  | Some src => Some (Path src)
  | None => if bool_decide (key ∈ objectPrototypeNames) then Some Inherited else None
  end.

(** The keys for which [SOUND_MAP[key]] is truthy. *)
Definition soundKeys : gset string :=
  dom SOUND_MAP ∪ list_to_set objectPrototypeNames.

(** The module state: the keys of [_audioEls], the set [_activeKeys], and
    the keys of the [a.play()] promises that have not settled yet, oldest
    first. *)
Record AudioState : Type := mkAudio {
  _audioEls : gset string;
  _activeKeys : gset string;
  pending : list string
}.

Definition noAudio : AudioState := mkAudio ∅ ∅ [].

(** How the browser's [a.play()] answers: with a promise, with nothing
    (older browsers), or by throwing. *)
Inductive PlayResult : Type := ReturnsPromise | ReturnsNothing | PlayThrows.

(** [AudioManager.play(key)]: the state after the call and the returned
    flag.  The guard [!SOUND_MAP[key]] and the one of [_createAudio] read
    the same entry; [new Audio(src)] takes the text of whatever it is
    given. *)
Definition play (key : string) (res : PlayResult) (st : AudioState)
    : AudioState * bool :=
  match SOUND_MAP_get key with
  | None => (st, false)
  | Some _ =>
      let activeCount := size (_activeKeys st) in
      if bool_decide (activeCount = 0)
         || bool_decide (activeCount = 1) && bool_decide (key ∉ _activeKeys st)
      then
        let els := _audioEls st ∪ {[ key ]} in
        match res with
        | ReturnsPromise => (mkAudio els (_activeKeys st) (pending st ++ [key]), true)
        | ReturnsNothing => (mkAudio els (_activeKeys st ∪ {[ key ]}) (pending st), true)
        | PlayThrows => (mkAudio els (_activeKeys st ∖ {[ key ]}) (pending st), false)
        end
      else (st, false)
  end.

(** [AudioManager.stopAll()]. *)
Definition stopAll (st : AudioState) : AudioState :=
  mkAudio (_audioEls st) ∅ (pending st).

(** What happens to the module between calls. *)
Inductive AudioEvent : Type :=
  | Play (key : string) (res : PlayResult)
  | Settle (i : nat) (fulfilled : bool)   (* the i-th pending promise settles *)
  | Ended (key : string)                  (* the 'ended' listener of the key's element *)
  | Paused (key : string) (atStartOrEnded : bool)   (* its 'pause' listener *)
  | StopAll.

Definition audioStep (st : AudioState) (ev : AudioEvent) : AudioState :=
  match ev with
  | Play key res => fst (play key res st)
  | Settle i fulfilled =>
      match pending st !! i with
      | None => st
      | Some key =>
          mkAudio (_audioEls st)
                  (if fulfilled then _activeKeys st ∪ {[ key ]}
                   else _activeKeys st ∖ {[ key ]})
                  (delete i (pending st))
      end
  | Ended key =>
      if bool_decide (key ∈ _audioEls st)
      then mkAudio (_audioEls st) (_activeKeys st ∖ {[ key ]}) (pending st) else st
  | Paused key atStartOrEnded =>
      if bool_decide (key ∈ _audioEls st) && atStartOrEnded
      then mkAudio (_audioEls st) (_activeKeys st ∖ {[ key ]}) (pending st) else st
  | StopAll => stopAll st
  end.

Definition audioRun (st : AudioState) (evs : list AudioEvent) : AudioState :=
  foldl audioStep st evs.

(** No call of [a.play()] answers with a promise. *)
Definition withoutPromises (evs : list AudioEvent) : Prop :=
  Forall (λ ev, match ev with Play _ ReturnsPromise => False | _ => True end) evs.

End Audio.

(** ** The particle field of the cosmic sky ([philosophy.js]) *)

Module Philosophy.
Import Helix.
Local Open Scope R_scope.

(** One point of the particle field of [init], from the three
    [Math.random()] draws of its loop iteration (each in [0, 1)):
    [r = 80 + Math.random() * 40], [theta = Math.random() * Math.PI * 2],
    [phi = Math.acos(2 * Math.random() - 1)]; the coordinates are taken
    before they are stored in the [Float32Array]. *)
Definition particle (u1 u2 u3 : R) : Vector3 :=
  let r := 80 + u1 * 40 in
  let theta := u2 * PI * 2 in
  let phi := acos (2 * u3 - 1) in
  mkVector3 (r * sin phi * cos theta) (r * sin phi * sin theta) (r * cos phi).

End Philosophy.

(* ===================================================================== *)
(** * Part II: lemmas and theorems *)
(* ===================================================================== *)

(** ** The slide puzzle engine *)

Module SlidePuzzleFacts.

Import SlidePuzzle.

Section GridFacts.
Variables ROWS COLS : nat.

Lemma elem_of_cells r c : (r, c) ∈ cells ROWS COLS ↔ r < ROWS ∧ c < COLS.
Proof.
  unfold cells. rewrite list_elem_of_bind. split.
  - intros (r' & Hin & Hr). apply list_elem_of_bind in Hin as (c' & Hin & Hc).
    apply list_elem_of_singleton in Hin. inversion Hin; subst.
    apply elem_of_seq in Hr, Hc. lia.
  - intros [Hr Hc]. exists r. split; [|apply elem_of_seq; lia].
    apply list_elem_of_bind. exists c. split; [set_solver|apply elem_of_seq; lia].
Qed.

Lemma findBlank_Some board br bc :
  _findBlank ROWS COLS board = Some (br, bc) →
  cellAt board br bc = Some 0 ∧ br < ROWS ∧ bc < COLS.
Proof.
  unfold _findBlank. intros H. apply find_some in H as [Hin Hz].
  apply list_elem_of_In, elem_of_cells in Hin.
  apply bool_decide_eq_true in Hz. tauto.
Qed.

Lemma findBlank_None board r c :
  _findBlank ROWS COLS board = None → r < ROWS → c < COLS →
  cellAt board r c ≠ Some 0.
Proof.
  unfold _findBlank. intros H Hr Hc.
  pose proof (find_none _ _ H (r, c)) as Hn. simpl in Hn.
  intros Hz. rewrite bool_decide_eq_false in Hn. apply Hn; [|done].
  apply list_elem_of_In, elem_of_cells. done.
Qed.

(** Reading and writing cells of a rectangular array, seen through the
    row-major flattening [concat]. *)
Lemma concat_lookup_cell (board : Board) r c :
  Forall (λ row, length row = COLS) board → c < COLS →
  concat board !! (r * COLS + c) = cellAt board r c.
Proof.
  intros Hwf Hc. revert r. induction Hwf as [|row board Hrow Hwf IH]; intros r.
  - by destruct r.
  - destruct r as [|r]; simpl.
    + unfold cellAt; simpl. rewrite lookup_app_l by lia. done.
    + rewrite lookup_app_r by lia.
      replace (COLS + r * COLS + c - length row) with (r * COLS + c) by lia.
      rewrite IH. done.
Qed.

Lemma concat_setCell (board : Board) r c v :
  Forall (λ row, length row = COLS) board → r < length board → c < COLS →
  concat (setCell board r c v) = <[r * COLS + c := v]> (concat board).
Proof.
  intros Hwf. revert r. induction Hwf as [|row board Hrow Hwf IH]; intros r Hr Hc.
  - simpl in Hr. lia.
  - destruct r as [|r]; simpl in *.
    + rewrite insert_app_l by lia. done.
    + rewrite insert_app_r_alt by lia.
      replace (COLS + r * COLS + c - length row) with (r * COLS + c) by lia.
      rewrite <- IH by lia. done.
Qed.

Lemma wf_setCell board r c v :
  wf_board ROWS COLS board → wf_board ROWS COLS (setCell board r c v).
Proof.
  intros [Hlen Hrows]. split.
  - unfold setCell. by rewrite length_alter.
  - unfold setCell. apply Forall_alter; [done|].
    intros row _ Hrow. by rewrite length_insert.
Qed.

Lemma wf_cellAt_is_Some board r c :
  wf_board ROWS COLS board → r < ROWS → c < COLS → is_Some (cellAt board r c).
Proof.
  intros [Hlen Hrows] Hr Hc. unfold cellAt.
  destruct (lookup_lt_is_Some_2 board r) as [row Hrow]; [lia|].
  rewrite Hrow. simpl. apply lookup_lt_is_Some_2.
  rewrite Forall_lookup in Hrows. rewrite (Hrows _ _ Hrow). done.
Qed.

Lemma cellAt_setCell_eq board r c v :
  wf_board ROWS COLS board → r < ROWS → c < COLS →
  cellAt (setCell board r c v) r c = Some v.
Proof.
  intros [Hlen Hrows] Hr Hc. unfold cellAt, setCell.
  rewrite list_lookup_alter_eq.
  destruct (lookup_lt_is_Some_2 board r) as [row Hrow]; [lia|].
  rewrite Hrow. simpl. apply list_lookup_insert_eq.
  rewrite Forall_lookup in Hrows. rewrite (Hrows _ _ Hrow). done.
Qed.

Lemma cellAt_setCell_ne board r c v r' c' :
  (r', c') ≠ (r, c) → cellAt (setCell board r c v) r' c' = cellAt board r' c'.
Proof.
  intros Hne. unfold cellAt, setCell.
  destruct (decide (r = r')) as [->|Hr].
  - rewrite list_lookup_alter_eq. destruct (board !! r') as [row|]; simpl; [|done].
    apply list_lookup_insert_ne. congruence.
  - by rewrite list_lookup_alter_ne.
Qed.


(** *** [_applyMove] *)

Lemma rowOffset_range dir : (-1 ≤ rowOffset dir ≤ 1)%Z.
Proof. unfold rowOffset. repeat case_match; lia. Qed.

Lemma colOffset_range dir : (-1 ≤ colOffset dir ≤ 1)%Z.
Proof. unfold colOffset. repeat case_match; lia. Qed.

Lemma inGrid_spec sr sc :
  inGrid ROWS COLS sr sc = true ↔
  (0 ≤ sr < Z.of_nat ROWS)%Z ∧ (0 ≤ sc < Z.of_nat COLS)%Z.
Proof.
  unfold inGrid. rewrite !andb_true_iff, !Z.leb_le, !Z.ltb_lt. lia.
Qed.

(** A rejected move returns the board it was given. *)
Lemma applyMove_rejected board dir board' :
  _applyMove ROWS COLS board dir = (board', false) → board' = board.
Proof.
  unfold _applyMove. intros H.
  repeat case_match; simplify_eq; done.
Qed.

(** What an accepted move did: it read the source cell and wrote it into
    the blank, then blanked the source. *)
Lemma applyMove_accepted board dir board' :
  _applyMove ROWS COLS board dir = (board', true) →
  ∃ br bc sr sc v,
    _findBlank ROWS COLS board = Some (br, bc) ∧
    sr < ROWS ∧ sc < COLS ∧
    Z.of_nat sr = (Z.of_nat br + rowOffset dir)%Z ∧
    Z.of_nat sc = (Z.of_nat bc + colOffset dir)%Z ∧
    cellAt board sr sc = Some v ∧
    board' = setCell (setCell board br bc v) sr sc 0.
Proof.
  unfold _applyMove. intros H.
  destruct (_findBlank ROWS COLS board) as [[br bc]|] eqn:Hb; [|simplify_eq].
  destruct (inGrid ROWS COLS _ _) eqn:Hin; simpl in H; [|simplify_eq].
  apply inGrid_spec in Hin.
  destruct (cellAt board _ _) as [v|] eqn:Hv; [|simplify_eq].
  inversion H; subst; clear H.
  exists br, bc, (Z.to_nat (Z.of_nat br + rowOffset dir)),
    (Z.to_nat (Z.of_nat bc + colOffset dir)), v.
  repeat split; try done; lia.
Qed.

(** On a rectangular board a move towards a cell of the grid is accepted. *)
Lemma applyMove_legal board dir br bc :
  wf_board ROWS COLS board →
  _findBlank ROWS COLS board = Some (br, bc) →
  inGrid ROWS COLS (Z.of_nat br + rowOffset dir) (Z.of_nat bc + colOffset dir) = true →
  ∃ v, cellAt board (Z.to_nat (Z.of_nat br + rowOffset dir))
                    (Z.to_nat (Z.of_nat bc + colOffset dir)) = Some v ∧
       _applyMove ROWS COLS board dir =
         (setCell (setCell board br bc v)
            (Z.to_nat (Z.of_nat br + rowOffset dir))
            (Z.to_nat (Z.of_nat bc + colOffset dir)) 0, true).
Proof.
  intros Hwf Hb Hin. unfold _applyMove. rewrite Hb, Hin. simpl.
  apply inGrid_spec in Hin.
  destruct (wf_cellAt_is_Some board (Z.to_nat (Z.of_nat br + rowOffset dir))
              (Z.to_nat (Z.of_nat bc + colOffset dir)) Hwf) as [v Hv]; [lia..|].
  exists v. rewrite Hv. done.
Qed.

(** The step of the invariant: a move permutes the cells. *)
Lemma applyMove_board_inv board dir :
  board_inv ROWS COLS board →
  board_inv ROWS COLS (fst (_applyMove ROWS COLS board dir)).
Proof.
  intros [Hwf Hperm].
  destruct (_applyMove ROWS COLS board dir) as [board' moved] eqn:Hmove.
  destruct moved; simpl.
  - apply applyMove_accepted in Hmove
      as (br & bc & sr & sc & v & Hb & Hsr & Hsc & _ & _ & Hv & ->).
    apply findBlank_Some in Hb as (Hz & Hbr & Hbc).
    split; [by do 2 apply wf_setCell|].
    destruct Hwf as [Hlen Hrows].
    rewrite concat_setCell; [| |unfold setCell; rewrite length_alter; lia|done].
    2:{ apply Forall_alter; [done|]. intros row _ Hrow. by rewrite length_insert. }
    rewrite concat_setCell by (done || lia).
    rewrite <- Hperm. apply Permutation_insert_swap.
    + rewrite concat_lookup_cell by done. done.
    + rewrite concat_lookup_cell by done. done.
  - apply applyMove_rejected in Hmove as ->. by split.
Qed.

Lemma applyMoves_board_inv dirs board :
  board_inv ROWS COLS board →
  board_inv ROWS COLS (applyMoves ROWS COLS board dirs).
Proof.
  revert board. induction dirs as [|d dirs IH]; intros board Hinv; [done|].
  simpl. apply IH. by apply applyMove_board_inv.
Qed.


(** *** [_createEmptyBoard] *)

(** The inner loop over columns that are not the last cell of the grid
    appends consecutive tile ids. *)
Lemma createRow_plain r n a row idx :
  r ≠ ROWS - 1 ∨ a + n ≤ COLS - 1 →
  foldl (λ '(row, idx) c,
           if (r =? ROWS - 1) && (c =? COLS - 1)
           then (row ++ [0], idx) else (row ++ [idx], S idx))
        (row, idx) (seq a n)
  = (row ++ seq idx n, idx + n).
Proof.
  revert a row idx. induction n as [|n IH]; intros a row idx Hside; simpl.
  - by rewrite app_nil_r, Nat.add_0_r.
  - replace ((r =? ROWS - 1) && (a =? COLS - 1)) with false.
    + rewrite IH by lia. rewrite <- app_assoc. simpl. f_equal. lia.
    + symmetry. apply andb_false_iff.
      destruct Hside; [left; apply Nat.eqb_neq|right; apply Nat.eqb_neq]; lia.
Qed.

(** The last row ends in the blank. *)
Lemma createRow_last idx :
  0 < COLS →
  foldl (λ '(row, idx) c,
           if (ROWS - 1 =? ROWS - 1) && (c =? COLS - 1)
           then (row ++ [0], idx) else (row ++ [idx], S idx))
        ([], idx) (seq 0 COLS)
  = (seq idx (COLS - 1) ++ [0], idx + (COLS - 1)).
Proof.
  intros HC.
  assert (seq 0 COLS = seq 0 (COLS - 1) ++ [COLS - 1]) as ->.
  { replace COLS with ((COLS - 1) + 1) at 1 by lia. by rewrite seq_app. }
  rewrite foldl_app.
  rewrite (createRow_plain (ROWS - 1)) by lia. simpl.
  rewrite !Nat.eqb_refl. done.
Qed.

Lemma createRows_plain n a arr idx :
  a + n ≤ ROWS - 1 →
  foldl (λ '(arr, idx) r,
         let '(row, idx') :=
           foldl (λ '(row, idx) c,
                    if (r =? ROWS - 1) && (c =? COLS - 1)
                    then (row ++ [0], idx)
                    else (row ++ [idx], S idx))
                 ([], idx) (seq 0 COLS) in
         (arr ++ [row], idx'))
       (arr, idx) (seq a n)
  = (arr ++ ((λ i, seq (idx + i * COLS) COLS) <$> seq 0 n), idx + n * COLS).
Proof.
  revert a arr idx. induction n as [|n IH]; intros a arr idx Hle; simpl.
  - by rewrite app_nil_r, Nat.add_0_r.
  - rewrite createRow_plain by lia. simpl.
    rewrite IH by lia. rewrite <- app_assoc. simpl.
    rewrite Nat.add_0_r. f_equal; [|lia].
    do 2 f_equal. rewrite <- fmap_S_seq, <- list_fmap_compose.
    apply list_fmap_ext. intros _ i _. simpl. f_equal. lia.
Qed.

Lemma createEmptyBoard_eq :
  0 < ROWS → 0 < COLS →
  _createEmptyBoard ROWS COLS
  = ((λ i, seq (1 + i * COLS) COLS) <$> seq 0 (ROWS - 1))
      ++ [seq (1 + (ROWS - 1) * COLS) (COLS - 1) ++ [0]].
Proof.
  intros HR HC. unfold _createEmptyBoard.
  assert (seq 0 ROWS = seq 0 (ROWS - 1) ++ [ROWS - 1]) as ->.
  { replace ROWS with ((ROWS - 1) + 1) at 1 by lia. by rewrite seq_app. }
  rewrite foldl_app, createRows_plain by lia. simpl.
  rewrite createRow_last by done. done.
Qed.

Lemma concat_seq_rows n idx :
  concat ((λ i, seq (idx + i * COLS) COLS) <$> seq 0 n) = seq idx (n * COLS).
Proof.
  revert idx. induction n as [|n IH]; intros idx; [done|].
  simpl. rewrite Nat.add_0_r, seq_app. f_equal.
  rewrite <- fmap_S_seq, <- list_fmap_compose.
  rewrite <- (IH (idx + COLS)). f_equal.
  apply list_fmap_ext. intros _ i _. simpl. f_equal. lia.
Qed.

Lemma createEmptyBoard_concat :
  0 < ROWS → 0 < COLS →
  concat (_createEmptyBoard ROWS COLS) = seq 1 (ROWS * COLS - 1) ++ [0].
Proof.
  intros HR HC. rewrite createEmptyBoard_eq by done.
  rewrite concat_app, concat_seq_rows. simpl. rewrite app_nil_r, app_assoc.
  f_equal. rewrite <- seq_app. f_equal. nia.
Qed.

Lemma createEmptyBoard_wf :
  0 < ROWS → 0 < COLS → wf_board ROWS COLS (_createEmptyBoard ROWS COLS).
Proof.
  intros HR HC. rewrite createEmptyBoard_eq by done. split.
  - rewrite length_app, length_fmap, length_seq. simpl. lia.
  - apply Forall_app. split.
    + apply Forall_fmap, Forall_forall. intros i _. simpl. apply length_seq.
    + apply Forall_singleton. rewrite length_app, length_seq. simpl. lia.
Qed.

Lemma createEmptyBoard_inv :
  0 < ROWS → 0 < COLS → board_inv ROWS COLS (_createEmptyBoard ROWS COLS).
Proof.
  intros HR HC. split; [by apply createEmptyBoard_wf|].
  rewrite createEmptyBoard_concat by done.
  rewrite <- Permutation_cons_append.
  replace (ROWS * COLS) with (S (ROWS * COLS - 1)) at 2 by nia. done.
Qed.

(** *** Counting tiles *)

Lemma count_occ_seq (a n v : nat) :
  count_occ Nat.eq_dec (seq a n) v = if decide (a ≤ v < a + n) then 1 else 0.
Proof.
  revert a. induction n as [|n IH]; intros a; simpl.
  - case_decide; [lia|done].
  - destruct (Nat.eq_dec a v) as [->|Hne]; rewrite IH; repeat case_decide; lia.
Qed.

Lemma board_inv_count board v :
  board_inv ROWS COLS board → v < ROWS * COLS →
  count_occ Nat.eq_dec (concat board) v = 1.
Proof.
  intros [_ Hperm] Hv.
  rewrite (Permutation_count_occ Nat.eq_dec) in Hperm.
  rewrite Hperm, count_occ_seq. case_decide; [done|lia].
Qed.

End GridFacts.

(** *** The randomizer keeps the invariant *)

Section MoreGridFacts.
Variables ROWS COLS : nat.

Lemma shuffle_board_inv rnd moves i board :
  board_inv ROWS COLS board →
  board_inv ROWS COLS (_shuffleByMoves_from ROWS COLS i rnd moves board).
Proof.
  revert i board. induction moves as [|moves IH]; intros i board Hinv; simpl; [done|].
  destruct (_ !! _); apply IH; [by apply applyMove_board_inv|done].
Qed.

Lemma firstApplicable_board_inv dirs board b d :
  board_inv ROWS COLS board →
  firstApplicable ROWS COLS board dirs = Some (b, d) → board_inv ROWS COLS b.
Proof.
  intros Hinv. induction dirs as [|d' dirs IH]; simpl; [done|].
  destruct (_applyMove ROWS COLS board d') as [b' moved] eqn:Hm.
  destruct moved; [|done]. intros [= <- <-].
  pose proof (applyMove_board_inv ROWS COLS board d' Hinv) as H. by rewrite Hm in H.
Qed.

Lemma seek_board_inv fuel board steps :
  board_inv ROWS COLS board →
  board_inv ROWS COLS (fst (seekBottomRight ROWS COLS fuel board steps)).
Proof.
  revert board steps. induction fuel as [|fuel IH]; intros board steps Hinv;
    cbn [seekBottomRight]; [done|].
  destruct (_findBlank ROWS COLS board) as [[br bc]|]; [|done].
  destruct ((br =? ROWS - 1) && (bc =? COLS - 1)); [done|].
  pose proof (applyMove_board_inv ROWS COLS board "D" Hinv) as HD.
  pose proof (applyMove_board_inv ROWS COLS board "R" Hinv) as HR.
  cbn zeta.
  destruct (snd (if br <? ROWS - 1 then _applyMove ROWS COLS board "D" else (board, false)))
    eqn:HsD.
  { apply IH. by destruct (br <? ROWS - 1). }
  destruct (snd (if bc <? COLS - 1 then _applyMove ROWS COLS board "R" else (board, false)))
    eqn:HsR.
  { apply IH. by destruct (bc <? COLS - 1). }
  destruct (firstApplicable ROWS COLS board ["D"; "R"; "U"; "L"]) as [[b d]|] eqn:Hf; [|done].
  apply IH. exact (firstApplicable_board_inv _ board b d Hinv Hf).
Qed.

Lemma shuffleBursts_board_inv moves rnd j bursts board :
  board_inv ROWS COLS board →
  board_inv ROWS COLS (shuffleBursts ROWS COLS moves rnd j bursts board).
Proof.
  revert j board. induction bursts as [|bursts IH]; intros j board Hinv;
    cbn [shuffleBursts]; [done|].
  apply IH. by apply shuffle_board_inv.
Qed.

End MoreGridFacts.

Lemma randomize_board_inv rnd board :
  board_inv ROWS COLS board → board_inv ROWS COLS (randomize rnd board).
Proof.
  intros Hinv. unfold randomize, _minimalMovesToBottomRight.
  apply (seek_board_inv ROWS COLS (ROWS * COLS * 50)).
  exact (shuffleBursts_board_inv ROWS COLS SHUFFLE_MOVES rnd 0 10 board Hinv).
Qed.

(** Every state the key handler and the animations lead to holds a
    permutation board. *)
Lemma keyHandler_board_inv rnd st code :
  board_inv ROWS COLS (_board st) →
  board_inv ROWS COLS (_board (_slidePuzzle_keyHandler rnd st code)).
Proof.
  intros Hinv. unfold _slidePuzzle_keyHandler.
  destruct (negb (_active st)); [done|]. destruct (_animating st); [done|].
  cbn zeta.
  destruct (String.eqb code "KeyR"); [cbn [_board]; by apply randomize_board_inv|].
  destruct (String.eqb code "KeyI"); [done|].
  destruct (arrowDir (_controlsInverted st) code) as [dir|]; [|done].
  destruct (_findBlank ROWS COLS (_board st)) as [[br bc]|]; [|done].
  destruct (negb (inGrid ROWS COLS _ _)); [|done].
  by destruct (quiverTile (_board st) br bc dir).
Qed.

Lemma animationDone_board_inv st :
  board_inv ROWS COLS (_board st) → board_inv ROWS COLS (_board (animationDone st)).
Proof.
  intros Hinv. unfold animationDone.
  destruct (inFlight st) as [[dir| |]|]; try done.
  pose proof (applyMove_board_inv ROWS COLS (_board st) dir Hinv).
  cbn zeta. by destruct (_isSolved ROWS COLS _).
Qed.


(** Claim C8.  Start from the solved board of an R x C grid and make any
    sequence of [_applyMove] calls, with any direction strings, accepted
    or rejected.  The board is still R x C, its cells are a permutation of
    0 .. R*C-1, so 0 occurs exactly once and so does every other value
    below R*C, and no other value occurs.  The same holds after
    [_shuffleByMoves], whatever the random draws.  Moreover every call
    either is rejected and returns the board unchanged, or swaps: it
    writes the value of a source cell into a cell that held 0 and 0 into
    the source cell. *)
Theorem board_invariant ROWS COLS (dirs : list string) :
  0 < ROWS → 0 < COLS →
  let board := applyMoves ROWS COLS (_createEmptyBoard ROWS COLS) dirs in
  wf_board ROWS COLS board ∧
  concat board ≡ₚ seq 0 (ROWS * COLS) ∧
  count_occ Nat.eq_dec (concat board) 0 = 1 ∧
  (∀ v, v < ROWS * COLS → count_occ Nat.eq_dec (concat board) v = 1) ∧
  (∀ v, v ∈ concat board → v < ROWS * COLS) ∧
  (∀ rnd moves,
     board_inv ROWS COLS
       (_shuffleByMoves ROWS COLS rnd (_createEmptyBoard ROWS COLS) moves)) ∧
  (∀ b d b' moved,
     _applyMove ROWS COLS b d = (b', moved) →
     if moved
     then ∃ br bc sr sc v,
            cellAt b br bc = Some 0 ∧ cellAt b sr sc = Some v ∧
            b' = setCell (setCell b br bc v) sr sc 0
     else b' = b).
Proof.
  intros HR HC board.
  assert (board_inv ROWS COLS board) as Hinv
    by (apply applyMoves_board_inv, createEmptyBoard_inv; done).
  split; [apply Hinv|]. split; [apply Hinv|].
  split; [apply (board_inv_count ROWS COLS); [done|nia]|].
  split; [intros v Hv; by apply (board_inv_count ROWS COLS)|].
  split; [|split].
  - intros v Hv. destruct Hinv as [_ Hperm]. rewrite Hperm in Hv.
    apply elem_of_seq in Hv. lia.
  - intros rnd moves. apply shuffle_board_inv. by apply createEmptyBoard_inv.
  - intros b d b' moved Hmove. destruct moved.
    + apply applyMove_accepted in Hmove
        as (br & bc & sr & sc & v & Hb & _ & _ & _ & _ & Hv & ->).
      apply findBlank_Some in Hb as (Hz & _ & _).
      by exists br, bc, sr, sc, v.
    + by apply applyMove_rejected in Hmove.
Qed.

(** The invariant at the module's own size, 3 x 4, after six calls, one
    of them with a string that is no direction. *)
Lemma board_invariant_witness :
  0 < 3 ∧ 0 < 4 ∧
  let board := applyMoves 3 4 (_createEmptyBoard 3 4) ["U"; "L"; "D"; "D"; "X"; "R"] in
  wf_board 3 4 board ∧ concat board ≡ₚ seq 0 (3 * 4) ∧
  count_occ Nat.eq_dec (concat board) 0 = 1.
Proof.
  split; [lia|]. split; [lia|].
  pose proof (board_invariant 3 4 ["U"; "L"; "D"; "D"; "X"; "R"]
                ltac:(lia) ltac:(lia)) as H.
  cbv zeta in H. cbv zeta. tauto.
Defined.

Lemma offsets_of_direction dir :
  dir ∈ ["U"; "D"; "L"; "R"] →
  (dir = "U" ∧ rowOffset dir = (-1)%Z ∧ colOffset dir = 0%Z) ∨
  (dir = "D" ∧ rowOffset dir = 1%Z ∧ colOffset dir = 0%Z) ∨
  (dir = "L" ∧ rowOffset dir = 0%Z ∧ colOffset dir = (-1)%Z) ∨
  (dir = "R" ∧ rowOffset dir = 0%Z ∧ colOffset dir = 1%Z).
Proof.
  intros Hd. repeat (apply elem_of_cons in Hd as [->|Hd]); [tauto..|].
  by apply not_elem_of_nil in Hd.
Qed.



Lemma arrowDir_Some inverted code dir :
  arrowDir inverted code = Some dir →
  code ∈ ["ArrowUp"; "ArrowDown"; "ArrowLeft"; "ArrowRight"].
Proof.
  unfold arrowDir. intros H.
  destruct (String.eqb code "ArrowUp") eqn:E1;
    [apply String.eqb_eq in E1 as ->; set_solver|].
  destruct (String.eqb code "ArrowDown") eqn:E2;
    [apply String.eqb_eq in E2 as ->; set_solver|].
  destruct (String.eqb code "ArrowLeft") eqn:E3;
    [apply String.eqb_eq in E3 as ->; set_solver|].
  destruct (String.eqb code "ArrowRight") eqn:E4;
    [apply String.eqb_eq in E4 as ->; set_solver|].
  done.
Qed.




(** *** Undoing moves, the shuffle and the solved test *)

(** The offsets of a direction given by its letter, computed. *)
Ltac offsets :=
  repeat match goal with
  | |- context [rowOffset (String ?a ?s)] =>
      let v := eval vm_compute in (rowOffset (String a s)) in
      change (rowOffset (String a s)) with v
  | |- context [colOffset (String ?a ?s)] =>
      let v := eval vm_compute in (colOffset (String a s)) in
      change (colOffset (String a s)) with v
  end.

Section EngineFacts.
Variables ROWS COLS : nat.

Lemma cell_unique board r c r' c' v :
  board_inv ROWS COLS board → r < ROWS → c < COLS → r' < ROWS → c' < COLS →
  cellAt board r c = Some v → cellAt board r' c' = Some v → (r, c) = (r', c').
Proof.
  intros [[Hlen Hrows] Hperm] Hr Hc Hr' Hc' H1 H2.
  assert (NoDup (concat board)) as Hnd by (rewrite Hperm; apply NoDup_seq).
  rewrite <- (concat_lookup_cell COLS) in H1 by done.
  rewrite <- (concat_lookup_cell COLS) in H2 by done.
  pose proof (NoDup_lookup _ _ _ _ Hnd H1 H2) as Heq.
  assert (r = r') as -> by nia.
  f_equal. lia.
Qed.

Lemma findBlank_unique board r c :
  board_inv ROWS COLS board → r < ROWS → c < COLS →
  cellAt board r c = Some 0 → _findBlank ROWS COLS board = Some (r, c).
Proof.
  intros Hinv Hr Hc Hcell.
  destruct (_findBlank ROWS COLS board) as [[r' c']|] eqn:Hf.
  - apply findBlank_Some in Hf as (H0 & Hr' & Hc').
    f_equal. symmetry. by apply (cell_unique board r c r' c' 0).
  - by destruct (findBlank_None ROWS COLS board r c Hf Hr Hc).
Qed.

Lemma board_inv_has_blank board :
  board_inv ROWS COLS board → 0 < ROWS * COLS →
  ∃ br bc, _findBlank ROWS COLS board = Some (br, bc).
Proof.
  intros Hinv Hpos.
  destruct (_findBlank ROWS COLS board) as [[r c]|] eqn:Hf; [by eauto|].
  exfalso.
  destruct Hinv as [[Hlen Hrows] Hperm].
  assert (0 ∈ concat board) as Hin.
  { rewrite Hperm. apply elem_of_seq. lia. }
  apply list_elem_of_lookup in Hin as [i Hi].
  assert (i < length (concat board)) as Hlt by (by eapply lookup_lt_Some).
  rewrite Hperm, length_seq in Hlt.
  assert (0 < COLS) as Hc by nia.
  assert (i = (i / COLS) * COLS + i mod COLS) as Hdm.
  { rewrite Nat.mul_comm. apply Nat.div_mod_eq. }
  rewrite Hdm in Hi.
  rewrite (concat_lookup_cell COLS) in Hi; [|done|by apply Nat.mod_upper_bound; lia].
  refine (findBlank_None ROWS COLS board _ _ Hf _ _ Hi).
  - apply Nat.Div0.div_lt_upper_bound. lia.
  - apply Nat.mod_upper_bound. lia.
Qed.


Lemma board_ext (b1 b2 : Board) :
  wf_board ROWS COLS b1 → wf_board ROWS COLS b2 →
  (∀ r c, r < ROWS → c < COLS → cellAt b1 r c = cellAt b2 r c) → b1 = b2.
Proof.
  intros [Hl1 Hr1] [Hl2 Hr2] Hcells.
  apply list_eq. intros r.
  destruct (decide (r < ROWS)) as [Hr|Hr].
  - destruct (lookup_lt_is_Some_2 b1 r) as [row1 Hrow1]; [lia|].
    destruct (lookup_lt_is_Some_2 b2 r) as [row2 Hrow2]; [lia|].
    rewrite Hrow1, Hrow2. f_equal.
    pose proof (Forall_lookup_1 _ _ _ _ Hr1 Hrow1) as Hlen1.
    pose proof (Forall_lookup_1 _ _ _ _ Hr2 Hrow2) as Hlen2.
    simpl in Hlen1, Hlen2.
    apply list_eq. intros c.
    destruct (decide (c < COLS)) as [Hc|Hc].
    + specialize (Hcells r c Hr Hc). unfold cellAt in Hcells.
      by rewrite Hrow1, Hrow2 in Hcells.
    + rewrite !lookup_ge_None_2; [done|lia|lia].
  - rewrite !lookup_ge_None_2; [done|lia|lia].
Qed.

(** The four letters and their offsets. *)
Lemma offsets_nonzero dir :
  dir ∈ ["U"; "D"; "L"; "R"] → (rowOffset dir, colOffset dir) ≠ (0%Z, 0%Z).
Proof.
  intros Hd. destruct (offsets_of_direction dir Hd)
    as [(_ & -> & ->)|[(_ & -> & ->)|[(_ & -> & ->)|(_ & -> & ->)]]]; congruence.
Qed.

Lemma offsets_other dir :
  dir ∉ ["U"; "D"; "L"; "R"] → rowOffset dir = 0%Z ∧ colOffset dir = 0%Z.
Proof.
  intros Hd. unfold rowOffset, colOffset.
  destruct (String.eqb_spec dir "U") as [->|_]; [exfalso; apply Hd; repeat constructor|].
  destruct (String.eqb_spec dir "D") as [->|_]; [exfalso; apply Hd; repeat constructor|].
  destruct (String.eqb_spec dir "L") as [->|_]; [exfalso; apply Hd; repeat constructor|].
  destruct (String.eqb_spec dir "R") as [->|_]; [exfalso; apply Hd; repeat constructor|].
  done.
Qed.

(** A legal move, spelled out: where the blank was, where it goes. *)
Lemma applyMove_moves_blank board dir br bc :
  board_inv ROWS COLS board →
  _findBlank ROWS COLS board = Some (br, bc) →
  inGrid ROWS COLS (Z.of_nat br + rowOffset dir) (Z.of_nat bc + colOffset dir) = true →
  let sr := Z.to_nat (Z.of_nat br + rowOffset dir) in
  let sc := Z.to_nat (Z.of_nat bc + colOffset dir) in
  let board' := fst (_applyMove ROWS COLS board dir) in
  snd (_applyMove ROWS COLS board dir) = true ∧
  board_inv ROWS COLS board' ∧
  _findBlank ROWS COLS board' = Some (sr, sc) ∧
  sr < ROWS ∧ sc < COLS ∧
  cellAt board' br bc = (if decide ((br, bc) = (sr, sc)) then Some 0 else cellAt board sr sc) ∧
  (∀ r c, (r, c) ≠ (br, bc) → (r, c) ≠ (sr, sc) → cellAt board' r c = cellAt board r c).
Proof.
  intros Hinv Hf Hin sr sc board'.
  pose proof Hinv as [Hwf _].
  pose proof (applyMove_board_inv ROWS COLS board dir Hinv) as Hinv'.
  destruct (applyMove_legal ROWS COLS board dir br bc Hwf Hf Hin) as (v & Hv & Happ).
  fold sr sc in Hv, Happ.
  apply inGrid_spec in Hin as [Hsr Hsc].
  assert (sr < ROWS) as Hsr' by (unfold sr; lia).
  assert (sc < COLS) as Hsc' by (unfold sc; lia).
  apply findBlank_Some in Hf as (Hb0 & Hbr & Hbc).
  subst board'. rewrite Happ in Hinv' |- *. simpl in Hinv' |- *.
  assert (cellAt (setCell (setCell board br bc v) sr sc 0) sr sc = Some 0) as H0.
  { apply (cellAt_setCell_eq ROWS COLS); [by apply wf_setCell|done|done]. }
  split; [done|]. split; [done|].
  split; [by apply findBlank_unique|].
  split; [done|]. split; [done|]. split.
  - destruct (decide ((br, bc) = (sr, sc))) as [Heq|Hne].
    + assert (br = sr ∧ bc = sc) as [E1 E2] by (split; congruence).
      clearbody sr sc. subst sr sc. done.
    + rewrite cellAt_setCell_ne by done.
      rewrite (cellAt_setCell_eq ROWS COLS) by done. done.
  - intros r c H1 H2. by rewrite !cellAt_setCell_ne.
Qed.


Lemma applyMove_true_inv board dir :
  snd (_applyMove ROWS COLS board dir) = true →
  ∃ br bc, _findBlank ROWS COLS board = Some (br, bc) ∧
    inGrid ROWS COLS (Z.of_nat br + rowOffset dir) (Z.of_nat bc + colOffset dir) = true.
Proof.
  unfold _applyMove.
  destruct (_findBlank ROWS COLS board) as [[br bc]|]; [|done].
  destruct (inGrid ROWS COLS _ _) eqn:Hin; [|done].
  intros _. by exists br, bc.
Qed.

Lemma opposite_offsets d d' :
  (d, d') ∈ [("U", "D"); ("D", "U"); ("L", "R"); ("R", "L")] →
  d ∈ ["U"; "D"; "L"; "R"] ∧
  rowOffset d' = (- rowOffset d)%Z ∧ colOffset d' = (- colOffset d)%Z.
Proof.
  intros H. repeat (apply elem_of_cons in H as [H|H]; [injection H as -> ->; split; [repeat constructor|done]|]).
  by apply elem_of_nil in H.
Qed.

Lemma applyMove_undo board d d' :
  board_inv ROWS COLS board →
  (d, d') ∈ [("U", "D"); ("D", "U"); ("L", "R"); ("R", "L")] →
  snd (_applyMove ROWS COLS board d) = true →
  _applyMove ROWS COLS (fst (_applyMove ROWS COLS board d)) d' = (board, true).
Proof.
  intros Hinv Hpair Hmoved.
  destruct (opposite_offsets d d' Hpair) as (Hd & Hro & Hco).
  pose proof (offsets_nonzero d Hd) as Hnz.
  destruct (applyMove_true_inv board d Hmoved) as (br & bc & Hf & Hin).
  destruct (applyMove_moves_blank board d br bc Hinv Hf Hin)
    as (_ & Hinv1 & Hf1 & Hsr & Hsc & Hcell1 & Hrest1).
  pose proof Hin as Hin'. apply inGrid_spec in Hin' as [Hsr' Hsc'].
  pose proof (findBlank_Some ROWS COLS board br bc Hf) as (Hb0 & Hbr & Hbc).
  set (sr := Z.to_nat (Z.of_nat br + rowOffset d)) in *.
  set (sc := Z.to_nat (Z.of_nat bc + colOffset d)) in *.
  set (board1 := fst (_applyMove ROWS COLS board d)) in *.
  assert ((br, bc) ≠ (sr, sc)) as Hne.
  { intros Heq. apply Hnz. injection Heq as E1 E2. f_equal; lia. }
  rewrite decide_False in Hcell1 by done.
  assert (Z.to_nat (Z.of_nat sr + rowOffset d') = br) as Eb by lia.
  assert (Z.to_nat (Z.of_nat sc + colOffset d') = bc) as Ec by lia.
  assert (inGrid ROWS COLS (Z.of_nat sr + rowOffset d') (Z.of_nat sc + colOffset d') = true)
    as Hin2 by (apply inGrid_spec; lia).
  destruct (applyMove_moves_blank board1 d' sr sc Hinv1 Hf1 Hin2)
    as (Hm2 & Hinv2 & Hf2 & _ & _ & Hcell2 & Hrest2).
  rewrite Eb, Ec in Hf2, Hcell2, Hrest2.
  rewrite decide_False in Hcell2 by done.
  destruct (_applyMove ROWS COLS board1 d') as [board2 m2]. simpl in *. subst m2.
  f_equal. apply board_ext; [by destruct Hinv2|by destruct Hinv|].
  intros r c Hr Hc.
  destruct (decide ((r, c) = (br, bc))) as [[= -> ->]|N1].
  { apply findBlank_Some in Hf2 as (-> & _). done. }
  destruct (decide ((r, c) = (sr, sc))) as [[= -> ->]|N2].
  { by rewrite Hcell2. }
  rewrite Hrest2 by done. by apply Hrest1.
Qed.

Lemma applyMove_other_dir board dir br bc :
  wf_board ROWS COLS board → _findBlank ROWS COLS board = Some (br, bc) →
  dir ∉ ["U"; "D"; "L"; "R"] →
  _applyMove ROWS COLS board dir = (board, true) ∧
  _canMove ROWS COLS board None None dir = true.
Proof.
  intros Hwf Hf Hd.
  destruct (offsets_other dir Hd) as [Hro Hco].
  pose proof (findBlank_Some ROWS COLS board br bc Hf) as (Hb0 & Hbr & Hbc).
  assert (inGrid ROWS COLS (Z.of_nat br + rowOffset dir) (Z.of_nat bc + colOffset dir) = true)
    as Hin by (apply inGrid_spec; lia).
  split.
  - destruct (applyMove_legal ROWS COLS board dir br bc Hwf Hf Hin) as (v & Hv & ->).
    rewrite Hro, Hco, !Z.add_0_r, !Nat2Z.id in Hv |- *.
    f_equal. apply board_ext; [by do 2 apply wf_setCell|done|].
    intros r c Hr Hc.
    destruct (decide ((r, c) = (br, bc))) as [[= -> ->]|N1].
    + rewrite (cellAt_setCell_eq ROWS COLS); [done|by apply wf_setCell|done|done].
    + by rewrite !cellAt_setCell_ne.
  - unfold _canMove. by rewrite Hf.
Qed.

Lemma applyMove_no_blank board dir :
  _findBlank ROWS COLS board = None →
  _applyMove ROWS COLS board dir = (board, false) ∧
  _canMove ROWS COLS board None None dir = false ∧
  _minimalMovesToBottomRight ROWS COLS board = (board, []).
Proof.
  intros Hf. unfold _applyMove, _canMove, _minimalMovesToBottomRight.
  rewrite Hf. split; [done|]. split; [done|].
  destruct (ROWS * COLS * 50) as [|fuel]; simpl; [done|]. by rewrite Hf.
Qed.

Lemma applyMoves_app board l1 l2 :
  applyMoves ROWS COLS board (l1 ++ l2)
  = applyMoves ROWS COLS (applyMoves ROWS COLS board l1) l2.
Proof. unfold applyMoves. by rewrite foldl_app. Qed.

Lemma applyMove_step_back board dir :
  board_inv ROWS COLS board →
  ∃ back, applyMoves ROWS COLS (fst (_applyMove ROWS COLS board dir)) back = board
          ∧ length back ≤ 1.
Proof.
  intros Hinv.
  destruct (snd (_applyMove ROWS COLS board dir)) eqn:Hm.
  - destruct (decide (dir ∈ ["U"; "D"; "L"; "R"])) as [Hd|Hd].
    + assert (∃ d', (dir, d') ∈ [("U", "D"); ("D", "U"); ("L", "R"); ("R", "L")])
        as [d' Hpair].
      { destruct (offsets_of_direction dir Hd)
          as [(-> & _)|[(-> & _)|[(-> & _)|(-> & _)]]];
          [exists "D"|exists "U"|exists "R"|exists "L"]; repeat constructor. }
      exists [d']. split; [|simpl; lia].
      unfold applyMoves. simpl. by rewrite (applyMove_undo board dir d').
    + exists []. split; [|simpl; lia].
      destruct (applyMove_true_inv board dir Hm) as (br & bc & Hf & _).
      destruct Hinv as [Hwf _].
      by destruct (applyMove_other_dir board dir br bc Hwf Hf Hd) as [-> _].
  - exists []. split; [|simpl; lia].
    destruct (_applyMove ROWS COLS board dir) as [b m] eqn:Happ. simpl in *. subst m.
    by apply applyMove_rejected in Happ.
Qed.

Lemma applyMoves_reversible dirs board :
  board_inv ROWS COLS board →
  ∃ back, applyMoves ROWS COLS (applyMoves ROWS COLS board dirs) back = board
          ∧ length back ≤ length dirs.
Proof.
  revert board. induction dirs as [|d dirs IH]; intros board Hinv.
  - exists []. done.
  - pose proof (applyMove_board_inv ROWS COLS board d Hinv) as Hinv1.
    destruct (IH _ Hinv1) as (back1 & Hb1 & Hl1).
    destruct (applyMove_step_back board d Hinv) as (back2 & Hb2 & Hl2).
    exists (back1 ++ back2). split.
    + rewrite applyMoves_app. change (applyMoves ROWS COLS board (d :: dirs))
        with (applyMoves ROWS COLS (fst (_applyMove ROWS COLS board d)) dirs).
      by rewrite Hb1.
    + rewrite length_app. simpl. lia.
Qed.


(** The legal directions of a shuffle round. *)
Lemma legal_subset board :
  Forall (λ d, d ∈ ["U"; "D"; "L"; "R"] ∧ _canMove ROWS COLS board None None d = true)
    (filter (λ d, _canMove ROWS COLS board None None d = true) ["U"; "D"; "L"; "R"]).
Proof.
  apply Forall_forall. intros d Hd. apply list_elem_of_filter in Hd as [? ?]. done.
Qed.

Lemma legal_nonempty board :
  board_inv ROWS COLS board → 2 ≤ ROWS * COLS →
  filter (λ d, _canMove ROWS COLS board None None d = true) ["U"; "D"; "L"; "R"] ≠ [].
Proof.
  intros Hinv Hsize.
  destruct (board_inv_has_blank board Hinv) as (br & bc & Hf); [lia|].
  pose proof (findBlank_Some ROWS COLS board br bc Hf) as (_ & Hbr & Hbc).
  assert (∃ d, d ∈ ["U"; "D"; "L"; "R"] ∧ _canMove ROWS COLS board None None d = true)
    as (d & Hd & Hcan).
  { unfold _canMove. rewrite Hf.
    destruct (decide (0 < br)); [exists "U"; split; [repeat constructor|apply inGrid_spec; offsets; lia]|].
    destruct (decide (br + 1 < ROWS)); [exists "D"; split; [repeat constructor|apply inGrid_spec; offsets; lia]|].
    destruct (decide (0 < bc)); [exists "L"; split; [repeat constructor|apply inGrid_spec; offsets; lia]|].
    exists "R"; split; [repeat constructor|apply inGrid_spec; offsets; nia]. }
  intros Hnil.
  assert (d ∈ filter (λ d, _canMove ROWS COLS board None None d = true) ["U"; "D"; "L"; "R"])
    as Hin by (by apply list_elem_of_filter).
  rewrite Hnil in Hin. by apply elem_of_nil in Hin.
Qed.

Lemma canMove_applyMove board d :
  _canMove ROWS COLS board None None d = true → wf_board ROWS COLS board →
  snd (_applyMove ROWS COLS board d) = true.
Proof.
  unfold _canMove. intros Hcan Hwf.
  destruct (_findBlank ROWS COLS board) as [[br bc]|] eqn:Hf; [|done].
  by destruct (applyMove_legal ROWS COLS board d br bc Hwf Hf Hcan) as (v & _ & ->).
Qed.

Lemma shuffle_as_moves rnd moves i board :
  board_inv ROWS COLS board →
  ∃ dirs,
    _shuffleByMoves_from ROWS COLS i rnd moves board = applyMoves ROWS COLS board dirs ∧
    Forall (λ d, d ∈ ["U"; "D"; "L"; "R"]) dirs ∧
    length dirs ≤ moves ∧
    (2 ≤ ROWS * COLS → length dirs = moves).
Proof.
  revert i board. induction moves as [|moves IH]; intros i board Hinv.
  - exists []. done.
  - cbn [_shuffleByMoves_from].
    set (legal := filter (λ d, _canMove ROWS COLS board None None d = true) ["U"; "D"; "L"; "R"]).
    destruct (legal !! (rnd i mod length legal)) as [d|] eqn:Hd.
    + pose proof (applyMove_board_inv ROWS COLS board d Hinv) as Hinv1.
      destruct (IH (S i) _ Hinv1) as (dirs & Heq & Hall & Hlen & Hfull).
      exists (d :: dirs). split; [done|]. split; [|split; [simpl; lia|simpl; intros; f_equal; auto]].
      constructor; [|done].
      apply list_elem_of_lookup_2 in Hd.
      by apply (proj1 (Forall_forall _ _) (legal_subset board)) in Hd as [? _].
    + destruct (IH (S i) _ Hinv) as (dirs & Heq & Hall & Hlen & Hfull).
      exists dirs. split; [done|]. split; [done|]. split; [lia|].
      intros Hsize. exfalso.
      pose proof (legal_nonempty board Hinv Hsize) as Hne. fold legal in Hne.
      apply lookup_ge_None_1 in Hd.
      assert (0 < length legal) by (destruct legal; [done|simpl; lia]).
      pose proof (Nat.mod_upper_bound (rnd i) (length legal)). lia.
Qed.

Lemma shuffleBursts_as_moves moves rnd j bursts board :
  board_inv ROWS COLS board →
  ∃ dirs,
    shuffleBursts ROWS COLS moves rnd j bursts board = applyMoves ROWS COLS board dirs ∧
    Forall (λ d, d ∈ ["U"; "D"; "L"; "R"]) dirs ∧
    length dirs ≤ bursts * moves ∧
    (2 ≤ ROWS * COLS → length dirs = bursts * moves).
Proof.
  revert j board. induction bursts as [|bursts IH]; intros j board Hinv.
  - exists []. done.
  - cbn [shuffleBursts].
    destruct (shuffle_as_moves rnd moves (j * moves) board Hinv) as (d1 & E1 & A1 & L1 & F1).
    pose proof (shuffle_board_inv ROWS COLS rnd moves (j * moves) board Hinv) as Hinv1.
    destruct (IH (S j) _ Hinv1) as (d2 & E2 & A2 & L2 & F2).
    exists (d1 ++ d2). split; [by rewrite applyMoves_app, <- E1|].
    split; [by apply Forall_app|]. rewrite length_app.
    split; [simpl; lia|]. intros Hs. rewrite F1, F2 by done. simpl. lia.
Qed.

(** The greedy walk of the blank to the bottom-right corner. *)
Lemma seek_reaches_corner fuel board steps br bc :
  board_inv ROWS COLS board →
  _findBlank ROWS COLS board = Some (br, bc) →
  (ROWS - 1 - br) + (COLS - 1 - bc) < fuel →
  let ds := replicate (ROWS - 1 - br) "D" ++ replicate (COLS - 1 - bc) "R" in
  seekBottomRight ROWS COLS fuel board steps
  = (applyMoves ROWS COLS board ds, steps ++ ds) ∧
  _findBlank ROWS COLS (applyMoves ROWS COLS board ds) = Some (ROWS - 1, COLS - 1).
Proof.
  revert board steps br bc. induction fuel as [|fuel IH]; intros board steps br bc Hinv Hf Hfuel; [lia|].
  pose proof (findBlank_Some ROWS COLS board br bc Hf) as (_ & Hbr & Hbc).
  cbn [seekBottomRight]. rewrite Hf.
  destruct ((br =? ROWS - 1) && (bc =? COLS - 1)) eqn:Hcorner.
  { apply andb_true_iff in Hcorner as [E1 E2].
    apply Nat.eqb_eq in E1, E2. subst br bc.
    rewrite !Nat.sub_diag. simpl. rewrite app_nil_r. done. }
  destruct (br <? ROWS - 1) eqn:Hdown.
  - apply Nat.ltb_lt in Hdown.
    assert (inGrid ROWS COLS (Z.of_nat br + rowOffset "D") (Z.of_nat bc + colOffset "D") = true)
      as Hin by (apply inGrid_spec; offsets; lia).
    destruct (applyMove_moves_blank board "D" br bc Hinv Hf Hin)
      as (Hm & Hinv1 & Hf1 & _).
    replace (Z.to_nat (Z.of_nat br + rowOffset "D")) with (S br) in Hf1 by (offsets; lia).
    replace (Z.to_nat (Z.of_nat bc + colOffset "D")) with bc in Hf1 by (offsets; lia).
    rewrite Hm.
    destruct (IH _ (steps ++ ["D"]) (S br) bc Hinv1 Hf1) as [E1 E2]; [lia|].
    replace (ROWS - 1 - br) with (S (ROWS - 1 - S br)) by lia.
    cbn [replicate app]. rewrite E1. split; [|done].
    by rewrite <- app_assoc.
  - apply Nat.ltb_ge in Hdown. assert (br = ROWS - 1) as Ebr by lia.
    assert ((bc <? COLS - 1) = true) as Hright.
    { apply Nat.ltb_lt. apply andb_false_iff in Hcorner as [N|N];
        apply Nat.eqb_neq in N; lia. }
    cbn [snd fst]. rewrite Hright. apply Nat.ltb_lt in Hright.
    assert (inGrid ROWS COLS (Z.of_nat br + rowOffset "R") (Z.of_nat bc + colOffset "R") = true)
      as Hin by (apply inGrid_spec; offsets; lia).
    destruct (applyMove_moves_blank board "R" br bc Hinv Hf Hin)
      as (Hm & Hinv1 & Hf1 & _).
    replace (Z.to_nat (Z.of_nat br + rowOffset "R")) with br in Hf1 by (offsets; lia).
    replace (Z.to_nat (Z.of_nat bc + colOffset "R")) with (S bc) in Hf1 by (offsets; lia).
    rewrite Hm.
    destruct (IH _ (steps ++ ["R"]) br (S bc) Hinv1 Hf1) as [E1 E2]; [lia|].
    replace (ROWS - 1 - br) with 0 in * by lia.
    replace (COLS - 1 - bc) with (S (COLS - 1 - S bc)) by lia.
    cbn [replicate app] in *. rewrite E1. split; [|done].
    by rewrite <- app_assoc.
Qed.


(** The flattened board. *)
Lemma bind_singleton_fmap {A B} (f : A → B) (l : list A) :
  (x ← l; [f x]) = f <$> l.
Proof. induction l as [|x l IH]; [done|]. csimpl. by rewrite IH. Qed.

Lemma grid_lookup {A} (f : nat → nat → A) a n r c :
  r < n → c < COLS →
  (r' ← seq a n; c' ← seq 0 COLS; [f r' c']) !! (r * COLS + c) = Some (f (a + r) c).
Proof.
  revert a r. induction n as [|n IH]; intros a r Hr Hc; [lia|].
  csimpl. rewrite bind_singleton_fmap.
  destruct r as [|r].
  - rewrite lookup_app_l by (rewrite length_fmap, length_seq; lia).
    rewrite list_lookup_fmap, lookup_seq_lt by lia. simpl. do 2 f_equal. lia.
  - rewrite lookup_app_r by (rewrite length_fmap, length_seq; lia).
    rewrite length_fmap, length_seq.
    replace (S r * COLS + c - COLS) with (r * COLS + c) by lia.
    rewrite IH by lia. do 2 f_equal. lia.
Qed.

Lemma grid_length {A} (f : nat → nat → A) a n :
  length (r' ← seq a n; c' ← seq 0 COLS; [f r' c']) = n * COLS.
Proof.
  revert a. induction n as [|n IH]; intros a; [done|].
  csimpl. rewrite bind_singleton_fmap, length_app, length_fmap, length_seq, IH. done.
Qed.

Lemma cells_lookup r c :
  r < ROWS → c < COLS → cells ROWS COLS !! (r * COLS + c) = Some (r, c).
Proof. intros. unfold cells. by rewrite (grid_lookup (λ r c, (r, c))). Qed.

Lemma cells_length : length (cells ROWS COLS) = ROWS * COLS.
Proof. apply (grid_length (λ r c, (r, c))). Qed.

Lemma boardToIndexArray_wf board :
  wf_board ROWS COLS board →
  _boardToIndexArray ROWS COLS board = Some <$> concat board.
Proof.
  intros Hwf. pose proof Hwf as [Hlen Hrows].
  assert (length (concat board) = ROWS * COLS) as Hcl.
  { clear Hwf. revert Hrows. rewrite <- Hlen. clear Hlen.
    induction board as [|row b IH]; intros Hr; [done|].
    apply Forall_cons in Hr as [Hrow Hr]. simpl. rewrite length_app, IH by done. lia. }
  apply list_eq. intros i. unfold _boardToIndexArray.
  destruct (decide (i < ROWS * COLS)) as [Hi|Hi].
  - assert (0 < COLS) as Hc by nia.
    assert (i = (i / COLS) * COLS + i mod COLS) as Hdm.
    { rewrite Nat.mul_comm. apply Nat.div_mod_eq. }
    assert (i / COLS < ROWS) as Hr by (apply Nat.Div0.div_lt_upper_bound; lia).
    assert (i mod COLS < COLS) as Hm by (apply Nat.mod_upper_bound; lia).
    rewrite !list_lookup_fmap. rewrite Hdm at 1 2.
    rewrite cells_lookup, (concat_lookup_cell COLS) by done. simpl.
    by destruct (wf_cellAt_is_Some ROWS COLS board _ _ Hwf Hr Hm) as [v ->].
  - rewrite !lookup_ge_None_2; [done| |].
    + rewrite length_fmap. lia.
    + rewrite length_fmap, cells_length. lia.
Qed.

Lemma wf_concat_inj (b1 b2 : Board) :
  wf_board ROWS COLS b1 → wf_board ROWS COLS b2 → concat b1 = concat b2 → b1 = b2.
Proof.
  intros H1 H2 Heq. apply board_ext; [done|done|].
  intros r c Hr Hc.
  destruct H1 as [_ H1]. destruct H2 as [_ H2].
  rewrite <- (concat_lookup_cell COLS b1), <- (concat_lookup_cell COLS b2) by done.
  by rewrite Heq.
Qed.

Lemma solved_test_spec (l : list nat) :
  forallb (λ '(i, v),
             if i =? length (Some <$> l) - 1
             then bool_decide (v = Some 0)
             else bool_decide (v = Some (i + 1)))
          (imap (λ i v, (i, v)) (Some <$> l)) = true
  ↔ ∀ i x, l !! i = Some x → x = (if decide (i = length l - 1) then 0 else i + 1).
Proof.
  rewrite forallb_forall. rewrite length_fmap. split.
  - intros H i x Hi.
    specialize (H (i, Some x)). simpl in H.
    assert (In (i, Some x) (imap (λ i v, (i, v)) (Some <$> l))) as Hin.
    { apply list_elem_of_In. apply list_elem_of_lookup. exists i.
      rewrite list_lookup_imap, list_lookup_fmap, Hi. done. }
    specialize (H Hin).
    destruct (Nat.eqb_spec i (length l - 1)) as [E|N].
    + rewrite decide_True by done. apply bool_decide_eq_true in H. congruence.
    + rewrite decide_False by done. apply bool_decide_eq_true in H. congruence.
  - intros H [i v] Hin. apply list_elem_of_In, list_elem_of_lookup in Hin as [j Hj].
    rewrite list_lookup_imap, list_lookup_fmap in Hj.
    destruct (l !! j) as [x|] eqn:Hx; [|done]. simpl in Hj. injection Hj as <- <-.
    specialize (H j x Hx). subst x.
    destruct (Nat.eqb_spec j (length l - 1)) as [E|N].
    + rewrite decide_True by done. by apply bool_decide_eq_true.
    + rewrite decide_False by done. by apply bool_decide_eq_true.
Qed.

Lemma isSolved_concat board :
  0 < ROWS → 0 < COLS → wf_board ROWS COLS board →
  _isSolved ROWS COLS board = true ↔ concat board = seq 1 (ROWS * COLS - 1) ++ [0].
Proof.
  intros HR HC Hwf. unfold _isSolved. cbn zeta.
  rewrite (boardToIndexArray_wf board Hwf).
  rewrite solved_test_spec.
  assert (length (concat board) = ROWS * COLS) as Hcl.
  { rewrite <- (length_fmap Some), <- boardToIndexArray_wf by done.
    unfold _boardToIndexArray. by rewrite length_fmap, cells_length. }
  rewrite Hcl. split.
  - intros H. apply list_eq. intros i.
    destruct (concat board !! i) as [x|] eqn:Hx.
    + rewrite (H i x Hx).
      assert (i < ROWS * COLS) by (rewrite <- Hcl; by eapply lookup_lt_Some).
      destruct (decide (i = ROWS * COLS - 1)) as [->|N].
      * rewrite lookup_app_r by (rewrite length_seq; lia).
        rewrite length_seq, Nat.sub_diag. done.
      * rewrite lookup_app_l by (rewrite length_seq; lia).
        rewrite lookup_seq_lt by lia. f_equal. lia.
    + apply lookup_ge_None_1 in Hx. symmetry. apply lookup_ge_None_2.
      rewrite length_app, length_seq. simpl. nia.
  - intros Heq i x Hi. rewrite Heq in Hi.
    destruct (decide (i = ROWS * COLS - 1)) as [->|N].
    + rewrite lookup_app_r in Hi by (rewrite length_seq; lia).
      rewrite length_seq, Nat.sub_diag in Hi. simpl in Hi. congruence.
    + assert (i < ROWS * COLS - 1).
      { apply lookup_lt_Some in Hi. rewrite length_app, length_seq in Hi. simpl in Hi. lia. }
      rewrite lookup_app_l in Hi by (rewrite length_seq; lia).
      rewrite lookup_seq_lt in Hi by lia. injection Hi as <-. lia.
Qed.

Lemma isSolved_iff board :
  0 < ROWS → 0 < COLS → wf_board ROWS COLS board →
  _isSolved ROWS COLS board = true ↔ board = _createEmptyBoard ROWS COLS.
Proof.
  intros HR HC Hwf. rewrite isSolved_concat by done.
  rewrite <- (createEmptyBoard_concat ROWS COLS) by done. split.
  - apply wf_concat_inj; [done|by apply createEmptyBoard_wf].
  - by intros ->.
Qed.


Lemma createEmptyBoard_cell r c :
  r < ROWS → c < COLS →
  cellAt (_createEmptyBoard ROWS COLS) r c
  = Some (if decide (r = ROWS - 1 ∧ c = COLS - 1) then 0 else r * COLS + c + 1).
Proof.
  intros Hr Hc.
  pose proof (createEmptyBoard_wf ROWS COLS ltac:(lia) ltac:(lia)) as [_ Hrows].
  rewrite <- (concat_lookup_cell COLS) by done.
  rewrite createEmptyBoard_concat by lia.
  case_decide as Hlast.
  - destruct Hlast as [-> ->].
    rewrite lookup_app_r by (rewrite length_seq; nia).
    rewrite length_seq.
    replace ((ROWS - 1) * COLS + (COLS - 1) - (ROWS * COLS - 1)) with 0 by nia. done.
  - rewrite lookup_app_l by (rewrite length_seq; nia).
    rewrite lookup_seq_lt by nia. f_equal. lia.
Qed.

End EngineFacts.

Lemma randomize_as_moves rnd board :
  board_inv ROWS COLS board →
  (∃ dirs, randomize rnd board = applyMoves ROWS COLS board dirs) ∧
  _findBlank ROWS COLS (randomize rnd board) = Some (ROWS - 1, COLS - 1).
Proof.
  intros Hinv.
  destruct (shuffleBursts_as_moves ROWS COLS SHUFFLE_MOVES rnd 0 10 board Hinv)
    as (d1 & E1 & _).
  pose proof (shuffleBursts_board_inv ROWS COLS SHUFFLE_MOVES rnd 0 10 board Hinv) as Hinv1.
  destruct (board_inv_has_blank ROWS COLS _ Hinv1) as (br & bc & Hf); [vm_compute; lia|].
  pose proof (findBlank_Some ROWS COLS _ br bc Hf) as (_ & Hbr & Hbc).
  destruct (seek_reaches_corner ROWS COLS (ROWS * COLS * 50) _ [] br bc Hinv1 Hf) as [E2 E3].
  { unfold ROWS, COLS in *. lia. }
  unfold randomize, _minimalMovesToBottomRight.
  rewrite E2. cbn [fst]. split; [|exact E3].
  eexists. rewrite E1. symmetry. apply applyMoves_app.
Qed.

Lemma arrowDir_letter inverted code dir :
  arrowDir inverted code = Some dir → dir ∈ ["U"; "D"; "L"; "R"].
Proof.
  unfold arrowDir. intros H.
  repeat (destruct (String.eqb code _);
          [destruct inverted; injection H as <-; repeat constructor|]).
  done.
Qed.

Lemma opposite_tile_quivers board br bc dir :
  board_inv ROWS COLS board →
  _findBlank ROWS COLS board = Some (br, bc) →
  dir ∈ ["U"; "D"; "L"; "R"] →
  inGrid ROWS COLS (Z.of_nat br + rowOffset dir) (Z.of_nat bc + colOffset dir) = false →
  quiverTile board br bc dir
  = Some ((Z.of_nat br - rowOffset dir)%Z, (Z.of_nat bc - colOffset dir)%Z).
Proof.
  intros Hinv Hf Hd Hout.
  pose proof (findBlank_Some ROWS COLS board br bc Hf) as (Hb0 & Hbr & Hbc).
  unfold quiverTile. cbn zeta.
  unfold tileAt at 1. rewrite Hout. cbn [andb].
  assert (inGrid ROWS COLS (Z.of_nat br - rowOffset dir) (Z.of_nat bc - colOffset dir) = true
          ∧ (Z.to_nat (Z.of_nat br - rowOffset dir), Z.to_nat (Z.of_nat bc - colOffset dir))
            ≠ (br, bc)) as [Hin Hne].
  { apply not_true_iff_false in Hout. rewrite inGrid_spec in Hout. rewrite inGrid_spec.
    unfold ROWS, COLS in *.
    destruct (offsets_of_direction dir Hd)
      as [(_ & Hro & Hco)|[(_ & Hro & Hco)|[(_ & Hro & Hco)|(_ & Hro & Hco)]]];
      rewrite Hro, Hco in *; (split; [lia|intros [= E1 E2]; lia]). }
  unfold tileAt. rewrite Hin. cbn [andb].
  rewrite bool_decide_eq_true_2; [done|].
  intros Hcell. apply Hne.
  apply inGrid_spec in Hin as [H1 H2].
  apply (cell_unique ROWS COLS board _ _ _ _ 0 Hinv); [lia|lia|done|done|done|done].
Qed.

(** Property X1: on a board of the right shape (at least one row and one
    column), [_isSolved] answers true exactly when the board is the layout
    that [_createEmptyBoard] builds; in particular the freshly created board
    is solved. *)
Theorem solved_iff_initial_layout R C board :
  0 < R → 0 < C → wf_board R C board →
  (_isSolved R C board = true ↔ board = _createEmptyBoard R C) ∧
  _isSolved R C (_createEmptyBoard R C) = true.
Proof.
  intros HR HC Hwf. split; [by apply isSolved_iff|].
  apply isSolved_iff; [done|done|by apply createEmptyBoard_wf|done].
Qed.

Lemma solved_iff_initial_layout_witness :
  0 < 3 ∧ 0 < 4 ∧ wf_board 3 4 solvedBoard ∧
  (_isSolved 3 4 solvedBoard = true ↔ solvedBoard = _createEmptyBoard 3 4).
Proof.
  assert (wf_board 3 4 solvedBoard) as Hwf by (split; [done|repeat constructor]).
  split; [lia|]. split; [lia|]. split; [exact Hwf|].
  exact (proj1 (solved_iff_initial_layout 3 4 solvedBoard
                  (Nat.lt_0_succ 2) (Nat.lt_0_succ 3) Hwf)).
Defined.

(** Property X2: on a board that holds each of 0 .. ROWS*COLS-1 once, a move
    that [_canMove] allows is applied by [_applyMove] (it returns true),
    changes the board, and is undone exactly by the opposite direction (U/D,
    L/R) applied next. *)
Theorem opposite_move_undoes R C board d d' :
  board_inv R C board →
  (d, d') ∈ [("U", "D"); ("D", "U"); ("L", "R"); ("R", "L")] →
  _canMove R C board None None d = true →
  snd (_applyMove R C board d) = true ∧
  fst (_applyMove R C board d) ≠ board ∧
  _applyMove R C (fst (_applyMove R C board d)) d' = (board, true).
Proof.
  intros Hinv Hpair Hcan.
  pose proof Hinv as [Hwf _].
  pose proof (canMove_applyMove R C board d Hcan Hwf) as Hm.
  split; [done|]. split; [|by apply applyMove_undo].
  destruct (opposite_offsets d d' Hpair) as (Hd & _).
  pose proof (offsets_nonzero d Hd) as Hnz.
  destruct (applyMove_true_inv R C board d Hm) as (br & bc & Hf & Hin).
  destruct (applyMove_moves_blank R C board d br bc Hinv Hf Hin)
    as (_ & _ & Hf1 & _).
  intros Heq. rewrite Heq, Hf in Hf1. injection Hf1 as E1 E2.
  apply inGrid_spec in Hin. apply Hnz. f_equal; lia.
Qed.

Lemma opposite_move_undoes_witness :
  board_inv 3 4 solvedBoard ∧
  ("U", "D") ∈ [("U", "D"); ("D", "U"); ("L", "R"); ("R", "L")] ∧
  _canMove 3 4 solvedBoard None None "U" = true ∧
  _applyMove 3 4 (fst (_applyMove 3 4 solvedBoard "U")) "D" = (solvedBoard, true).
Proof.
  assert (board_inv 3 4 solvedBoard) as Hinv.
  { exact (createEmptyBoard_inv 3 4 (Nat.lt_0_succ 2) (Nat.lt_0_succ 3)). }
  assert (("U", "D") ∈ [("U", "D"); ("D", "U"); ("L", "R"); ("R", "L")]) as Hp
    by repeat constructor.
  split; [exact Hinv|]. split; [exact Hp|]. split; [reflexivity|].
  exact (proj2 (proj2 (opposite_move_undoes 3 4 solvedBoard "U" "D" Hinv Hp eq_refl))).
Defined.

(** Property X3: the edge inputs of the engine.  On a board without a blank
    [_applyMove] returns false and [_canMove] is false, and neither
    [_minimalMovesToBottomRight] nor [_shuffleByMoves] changes the board. 
    With a blank on the board, a direction other than U, D, L, R passes
    [_canMove], and [_applyMove] returns true although the board stays as it
    was. *)
Theorem applyMove_edge_inputs R C board dir :
  wf_board R C board →
  (_findBlank R C board = None →
     _applyMove R C board dir = (board, false) ∧
     _canMove R C board None None dir = false ∧
     _minimalMovesToBottomRight R C board = (board, []) ∧
     ∀ rnd moves, _shuffleByMoves R C rnd board moves = board) ∧
  (is_Some (_findBlank R C board) → dir ∉ ["U"; "D"; "L"; "R"] →
     _applyMove R C board dir = (board, true) ∧
     _canMove R C board None None dir = true).
Proof.
  intros Hwf. split.
  - intros Hf. destruct (applyMove_no_blank R C board dir Hf) as (H1 & H2 & H3).
    do 3 (split; [done|]).
    intros rnd moves. unfold _shuffleByMoves. generalize 0 as i.
    induction moves as [|moves IH]; intros i; [done|].
    cbn [_shuffleByMoves_from].
    replace (filter _ _) with (@nil string); [apply IH|].
    unfold _canMove. by rewrite Hf.
  - intros [[br bc] Hf] Hd. by apply (applyMove_other_dir R C board dir br bc).
Qed.

Lemma applyMove_edge_inputs_witness :
  wf_board 3 4 solvedBoard ∧ is_Some (_findBlank 3 4 solvedBoard) ∧
  ("X" ∉ ["U"; "D"; "L"; "R"]) ∧
  _applyMove 3 4 solvedBoard "X" = (solvedBoard, true).
Proof.
  assert (wf_board 3 4 solvedBoard) as Hwf by (split; [done|repeat constructor]).
  assert (is_Some (_findBlank 3 4 solvedBoard)) as Hb by (by eexists).
  assert ("X" ∉ ["U"; "D"; "L"; "R"]) as Hx.
  { intros H. repeat (apply elem_of_cons in H as [H|H]; [discriminate H|]).
    by apply elem_of_nil in H. }
  split; [exact Hwf|]. split; [exact Hb|]. split; [exact Hx|].
  exact (proj1 (proj2 (applyMove_edge_inputs 3 4 solvedBoard "X" Hwf) Hb Hx)).
Defined.

(** Property X4: from a blank at (br, bc), [_minimalMovesToBottomRight]
    returns ROWS-1-br times D followed by COLS-1-bc times R, leaves the
    blank in the bottom-right cell, keeps the board a permutation of 0 ..
    ROWS*COLS-1, and stays below the safety cap. *)
Theorem minimalMoves_reaches_corner R C board br bc :
  board_inv R C board → _findBlank R C board = Some (br, bc) →
  let steps := replicate (R - 1 - br) "D" ++ replicate (C - 1 - bc) "R" in
  _minimalMovesToBottomRight R C board = (applyMoves R C board steps, steps) ∧
  _findBlank R C (fst (_minimalMovesToBottomRight R C board)) = Some (R - 1, C - 1) ∧
  board_inv R C (fst (_minimalMovesToBottomRight R C board)) ∧
  length steps < R * C * 50.
Proof.
  intros Hinv Hf steps.
  pose proof (findBlank_Some R C board br bc Hf) as (_ & Hbr & Hbc).
  assert (R - 1 - br + (C - 1 - bc) < R * C * 50) as Hfuel by nia.
  destruct (seek_reaches_corner R C (R * C * 50) board [] br bc Hinv Hf Hfuel) as [E1 E2].
  unfold _minimalMovesToBottomRight. fold steps in E1, E2. rewrite E1.
  split; [done|]. split; [done|]. split.
  - cbn [fst]. by apply applyMoves_board_inv.
  - unfold steps. rewrite length_app, !length_replicate. done.
Qed.

Lemma minimalMoves_reaches_corner_witness :
  board_inv 3 4 [[1; 2; 3; 4]; [5; 0; 7; 8]; [9; 6; 10; 11]] ∧
  _findBlank 3 4 [[1; 2; 3; 4]; [5; 0; 7; 8]; [9; 6; 10; 11]] = Some (1, 1) ∧
  _minimalMovesToBottomRight 3 4 [[1; 2; 3; 4]; [5; 0; 7; 8]; [9; 6; 10; 11]]
  = ([[1; 2; 3; 4]; [5; 6; 7; 8]; [9; 10; 11; 0]], ["D"; "R"; "R"]).
Proof.
  assert (board_inv 3 4 [[1; 2; 3; 4]; [5; 0; 7; 8]; [9; 6; 10; 11]]) as Hinv.
  { exact (applyMoves_board_inv 3 4 ["L"; "L"; "U"] _
             (createEmptyBoard_inv 3 4 (Nat.lt_0_succ 2) (Nat.lt_0_succ 3))). }
  split; [exact Hinv|]. split; [reflexivity|].
  exact (proj1 (minimalMoves_reaches_corner 3 4 _ 1 1 Hinv eq_refl)).
Defined.

(** Property X5: [_shuffleByMoves] is a sequence of at most [moves] slides
    U, D, L, R (exactly [moves] of them when the board has two cells or
    more) and can be undone by slides; the randomizer of the 3 x 4 puzzle
    leaves the blank in the bottom-right cell and can be undone by slides,
    so the board that [init] deals can be solved. *)
Theorem shuffle_solvable :
  (∀ R C rnd moves board, board_inv R C board →
     ∃ dirs back,
       _shuffleByMoves R C rnd board moves = applyMoves R C board dirs ∧
       Forall (λ d, d ∈ ["U"; "D"; "L"; "R"]) dirs ∧
       length dirs ≤ moves ∧
       (2 ≤ R * C → length dirs = moves) ∧
       applyMoves R C (_shuffleByMoves R C rnd board moves) back = board) ∧
  (∀ rnd board, board_inv ROWS COLS board →
     _findBlank ROWS COLS (randomize rnd board) = Some (2, 3) ∧
     ∃ back, applyMoves ROWS COLS (randomize rnd board) back = board) ∧
  (∀ rnd, ∃ back,
     _isSolved ROWS COLS (applyMoves ROWS COLS (_board (init rnd)) back) = true).
Proof.
  split; [|split].
  - intros R C rnd moves board Hinv.
    destruct (shuffle_as_moves R C rnd moves 0 board Hinv) as (dirs & E & A & L & F).
    destruct (applyMoves_reversible R C dirs board Hinv) as (back & Hb & _).
    exists dirs, back. unfold _shuffleByMoves. rewrite E. done.
  - intros rnd board Hinv.
    destruct (randomize_as_moves rnd board Hinv) as [[dirs E] Hf].
    split; [exact Hf|].
    destruct (applyMoves_reversible ROWS COLS dirs board Hinv) as (back & Hb & _).
    exists back. by rewrite E.
  - intros rnd.
    pose proof (createEmptyBoard_inv ROWS COLS (Nat.lt_0_succ 2) (Nat.lt_0_succ 3)) as Hinv.
    destruct (randomize_as_moves rnd _ Hinv) as [[dirs E] _].
    destruct (applyMoves_reversible ROWS COLS dirs _ Hinv) as (back & Hb & _).
    exists back. cbn [init _board]. rewrite E, Hb. reflexivity.
Qed.

Lemma shuffle_solvable_witness :
  board_inv ROWS COLS solvedBoard ∧
  _findBlank ROWS COLS (randomize (λ i, i) solvedBoard) = Some (2, 3).
Proof.
  assert (board_inv ROWS COLS solvedBoard) as Hinv.
  { exact (createEmptyBoard_inv 3 4 (Nat.lt_0_succ 2) (Nat.lt_0_succ 3)). }
  split; [exact Hinv|].
  exact (proj1 (proj1 (proj2 shuffle_solvable) (λ i, i) solvedBoard Hinv)).
Defined.

(** Property X6: an arrow key whose slide would leave the grid quivers the
    tile on the opposite side of the blank: the board is unchanged, the
    animation flag is set and every key press is ignored until the animation
    is done, which clears the flag and leaves the board as it was. *)
Theorem illegal_arrow_quivers rnd st code dir br bc :
  _active st = true → _animating st = false →
  board_inv ROWS COLS (_board st) →
  arrowDir (_controlsInverted st) code = Some dir →
  _findBlank ROWS COLS (_board st) = Some (br, bc) →
  inGrid ROWS COLS (Z.of_nat br + rowOffset dir) (Z.of_nat bc + colOffset dir) = false →
  let st' := _slidePuzzle_keyHandler rnd st code in
  quiverTile (_board st) br bc dir
    = Some ((Z.of_nat br - rowOffset dir)%Z, (Z.of_nat bc - colOffset dir)%Z) ∧
  inFlight st' = Some Quiver ∧ _animating st' = true ∧ _board st' = _board st ∧
  (∀ rnd' code', _slidePuzzle_keyHandler rnd' st' code' = st') ∧
  _board (animationDone st') = _board st ∧
  _animating (animationDone st') = false ∧ inFlight (animationDone st') = None.
Proof.
  intros Hact Hanim Hinv Hdir Hf Hout st'.
  pose proof (arrowDir_letter _ _ _ Hdir) as Hd.
  pose proof (arrowDir_Some _ _ _ Hdir) as Hcode.
  pose proof (opposite_tile_quivers (_board st) br bc dir Hinv Hf Hd Hout) as Hq.
  assert (st' = mkPuzzle (_board st) (_active st) true (_controlsInverted st)
                         (Some Quiver) (puzzleSolved st)) as Est.
  { unfold st', _slidePuzzle_keyHandler. rewrite Hact, Hanim. cbn [negb].
    assert (String.eqb code "KeyR" = false ∧ String.eqb code "KeyI" = false) as [-> ->].
    { repeat (apply elem_of_cons in Hcode as [->|Hcode]; [done|]).
      by apply elem_of_nil in Hcode. }
    rewrite Hdir, Hf. cbn zeta. rewrite Hout. cbn [negb]. by rewrite Hq. }
  split; [exact Hq|]. rewrite Est. cbn.
  do 3 (split; [done|]). split; [|done].
  intros rnd' code'. unfold _slidePuzzle_keyHandler. cbn. by rewrite Hact.
Qed.

Lemma illegal_arrow_quivers_witness :
  _active (show initial) = true ∧ _animating (show initial) = false ∧
  board_inv ROWS COLS (_board (show initial)) ∧
  arrowDir (_controlsInverted (show initial)) "ArrowUp" = Some "D" ∧
  _findBlank ROWS COLS (_board (show initial)) = Some (2, 3) ∧
  inFlight (_slidePuzzle_keyHandler (λ _, 0) (show initial) "ArrowUp") = Some Quiver.
Proof.
  assert (board_inv ROWS COLS (_board (show initial))) as Hinv.
  { exact (createEmptyBoard_inv 3 4 (Nat.lt_0_succ 2) (Nat.lt_0_succ 3)). }
  split; [reflexivity|]. split; [reflexivity|]. split; [exact Hinv|].
  split; [reflexivity|]. split; [reflexivity|].
  exact (proj1 (proj2 (illegal_arrow_quivers (λ _, 0) (show initial) "ArrowUp" "D" 2 3
                         eq_refl eq_refl Hinv eq_refl eq_refl eq_refl))).
Defined.

End SlidePuzzleFacts.

(** ** The constellation edge engine *)

Module ConstellationFacts.

Import Constellation.

(** *** Folding a step that leaves a field alone *)

Lemma foldl_keeps {A B : Type} (proj : Game → B) (f : Game → A → Game) l g :
  (∀ acc x, proj (f acc x) = proj acc) → proj (foldl f g l) = proj g.
Proof.
  intros Hf. revert g. induction l as [|x l IH]; intros g; simpl; [done|].
  by rewrite IH, Hf.
Qed.

(** *** The scene *)

Lemma sceneRemoveAll_lines ls g x :
  x ∈ sceneLines (sceneRemoveAll ls g) ↔
  x ∈ sceneLines g ∧ ∀ l, l ∈ ls → lineId x ≠ lineId l.
Proof.
  unfold sceneRemoveAll. revert g. induction ls as [|l ls IH]; intros g; simpl.
  - split; [intros H; split; [done|]; intros l Hl; by apply not_elem_of_nil in Hl|tauto].
  - rewrite IH. unfold sceneRemove at 1. simpl. rewrite list_elem_of_filter.
    split.
    + intros [[Hne Hin] Hall]. split; [done|].
      intros l' Hl'. apply elem_of_cons in Hl' as [->|Hl']; auto.
    + intros [Hin Hall]. split; [split; [|done]|].
      * apply Hall. by left.
      * intros l' Hl'. apply Hall. by right.
Qed.

Lemma sceneRemoveAll_keeps {B} (proj : Game → B) ls g :
  (∀ v acc, proj (set_sceneLines v acc) = proj acc) →
  proj (sceneRemoveAll ls g) = proj g.
Proof.
  intros H. unfold sceneRemoveAll. apply foldl_keeps. intros acc x. apply H.
Qed.

(** *** The stars of a click *)

Lemma dropStar_idem s : dropStar (dropStar s) = dropStar s.
Proof. destruct s as [[] ? ? ?]; done. Qed.

Lemma foldl_updateStar_keeps {B} (proj : Game → B) f idxs g :
  (∀ v acc, proj (set_stars v acc) = proj acc) →
  proj (foldl (λ acc idx, updateStar f idx acc) g idxs) = proj g.
Proof.
  intros H. apply foldl_keeps. intros acc x. apply H.
Qed.

Lemma foldl_updateStar_lookup f idxs g i :
  (∀ s, f (f s) = f s) →
  stars (foldl (λ acc idx, updateStar f idx acc) g idxs) !! i
  = (if decide (i ∈ idxs) then f else (λ s, s)) <$> stars g !! i.
Proof.
  intros Hidem. revert g. induction idxs as [|idx idxs IH]; intros g; cbn [foldl].
  - rewrite decide_False by apply not_elem_of_nil. by destruct (stars g !! i).
  - rewrite IH. unfold updateStar at 1. cbn [stars set_stars].
    destruct (decide (idx = i)) as [->|Hne].
    + rewrite list_lookup_alter_eq, <- option_fmap_compose.
      rewrite (decide_True (P := i ∈ i :: idxs)) by (by left).
      destruct (stars g !! i) as [s|]; simpl; [|done].
      case_decide; simpl; by rewrite ?Hidem.
    + rewrite list_lookup_alter_ne by done.
      destruct (decide (i ∈ idxs)) as [Hin|Hnin].
      * rewrite decide_True by (by right). done.
      * rewrite decide_False; [done|].
        intros Hin. apply elem_of_cons in Hin as [->|Hin]; done.
Qed.

Lemma foldl_dropStar_linked idxs g :
  linked <$> stars (foldl (λ acc idx, updateStar dropStar idx acc) g idxs)
  = linked <$> stars g.
Proof.
  apply list_eq. intros i. rewrite !list_lookup_fmap.
  rewrite foldl_updateStar_lookup by apply dropStar_idem.
  destruct (stars g !! i) as [s|]; simpl; [|done].
  case_decide; done.
Qed.

(** *** What the handlers leave alone *)

Lemma removeCurrentLine_keeps {B} (proj : Game → B) g :
  (∀ v g, proj (set_sceneLines v g) = proj g) → proj (removeCurrentLine g) = proj g.
Proof.
  intros Hs. unfold removeCurrentLine, sceneRemove.
  destruct (currentLine g); [apply Hs|done].
Qed.

Lemma dropCurrentClick_keeps {B} (proj : Game → B) g :
  click_free proj → proj (_dropCurrentClick g) = proj g.
Proof.
  intros Hfree. pose proof Hfree as (Hst & Hsc & Hcl & Htl & Hec & Hsl & Hcp & Hnl).
  unfold _dropCurrentClick. cbn zeta.
  rewrite Hcp, Hec, Hsl, foldl_updateStar_keeps by done.
  rewrite Htl, sceneRemoveAll_keeps by done.
  rewrite Hcl. by apply removeCurrentLine_keeps.
Qed.

Lemma markLinkedTemp_keeps {B} (proj : Game → B) idx g :
  click_free proj → proj (markLinkedTemp idx g) = proj g.
Proof.
  intros (Hst & Hsc & Hcl & Htl & Hec & Hsl & Hcp & Hnl). unfold markLinkedTemp.
  destruct (stars g !! idx) as [s|]; [|done].
  destruct (_linkedTemp s); [done|].
  unfold updateStar. by rewrite Hsl, Hst.
Qed.

Lemma finalize_keeps {B} (proj : Game → B) a b g :
  click_free proj → proj (state_of (_finalizeSegmentAndStartNew a b g)) = proj g.
Proof.
  intros Hfree. pose proof Hfree as (Hst & Hsc & Hcl & Htl & Hec & Hsl & Hcp & Hnl).
  unfold _finalizeSegmentAndStartNew.
  destruct a as [a|]; [|done].
  destruct (stars g !! a); [|done]. destruct (stars g !! b); [|done].
  cbn [state_of newLine]. cbn zeta.
  rewrite Hcp, Hcl. unfold sceneAdd at 1. rewrite Hsc, Hnl.
  rewrite removeCurrentLine_keeps, !markLinkedTemp_keeps by done.
  rewrite Hec, Htl. unfold sceneAdd. by rewrite Hsc, Hnl.
Qed.

Lemma passThrough_keeps {B} (proj : Game → B) hits g :
  click_free proj → proj (state_of (passThrough hits g)) = proj g.
Proof.
  intros Hfree. induction hits as [|hit hits IH]; simpl; [done|].
  destruct (findIndex g hit); [|done].
  case_bool_decide; [done|]. by apply finalize_keeps.
Qed.

Lemma onPointerMove_keeps {B} (proj : Game → B) hits g :
  click_free proj → proj (state_of (_onPointerMove hits g)) = proj g.
Proof.
  intros Hfree. unfold _onPointerMove.
  destruct (dragging g); simpl; [by apply passThrough_keeps|done].
Qed.

Lemma onPointerDown_keeps {B} (proj : Game → B) hits g :
  click_free proj → (∀ v g, proj (set_dragging v g) = proj g) →
  proj (state_of (_onPointerDown hits g)) = proj g.
Proof.
  intros Hfree Hdr. pose proof Hfree as (Hst & Hsc & Hcl & Htl & Hec & Hsl & Hcp & Hnl).
  unfold _onPointerDown. destruct hits as [|hit _]; [done|].
  destruct (findIndex g hit) as [idx|]; [|done].
  set (g2 := set_starsLinked [] _).
  assert (proj g2 = proj g) as H2 by (unfold g2; by rewrite Hsl, Hec, Htl, Hcp, Hdr).
  assert (proj (_createDynamicLine idx g2) = proj g) as H3.
  { unfold _createDynamicLine, newLine, sceneAdd. by rewrite Hcl, Hsc, Hnl. }
  destruct (stars (_createDynamicLine idx g2) !! idx) as [s|]; simpl; [|done].
  destruct (shooting s); [|done]. by rewrite dropCurrentClick_keeps.
Qed.

Lemma click_free_ledger : click_free ledger.
Proof. by repeat split. Qed.
Lemma click_free_dragging : click_free dragging.
Proof. by repeat split. Qed.
Lemma click_free_completions : click_free completions.
Proof. by repeat split. Qed.

(** *** [_dropCurrentClick] *)

Lemma dropCurrentClick_clears g :
  let g' := _dropCurrentClick g in
  _tempLinesThisClick g' = [] ∧ _edgesThisClick g' = [] ∧
  _starsLinkedThisClick g' = [] ∧ currentPath g' = [] ∧ currentLine g' = None.
Proof.
  unfold _dropCurrentClick. cbn zeta. cbn [_edgesThisClick _starsLinkedThisClick
    currentPath set_currentPath set_edgesThisClick set_starsLinked
    _tempLinesThisClick currentLine].
  rewrite (foldl_updateStar_keeps _tempLinesThisClick) by done.
  rewrite (foldl_updateStar_keeps currentLine) by done.
  cbn [_tempLinesThisClick set_tempLines currentLine].
  rewrite (sceneRemoveAll_keeps currentLine) by done. done.
Qed.

Lemma dropCurrentClick_scene g l :
  l ∈ _tempLinesThisClick g → l ∉ sceneLines (_dropCurrentClick g).
Proof.
  intros Hl Hin. unfold _dropCurrentClick in Hin. cbn zeta in Hin.
  cbn [sceneLines set_currentPath set_edgesThisClick set_starsLinked] in Hin.
  rewrite (foldl_updateStar_keeps sceneLines) in Hin by done.
  cbn [sceneLines set_tempLines] in Hin.
  apply sceneRemoveAll_lines in Hin as [_ Hall].
  apply (Hall l); [|done].
  cbn [_tempLinesThisClick set_currentLine].
  by rewrite (removeCurrentLine_keeps _tempLinesThisClick).
Qed.

Lemma dropCurrentClick_stars g i :
  stars (_dropCurrentClick g) !! i
  = (if decide (i ∈ _starsLinkedThisClick g) then dropStar else (λ s, s)) <$> stars g !! i.
Proof.
  unfold _dropCurrentClick. cbn zeta.
  cbn [stars set_currentPath set_edgesThisClick set_starsLinked].
  rewrite foldl_updateStar_lookup by apply dropStar_idem.
  cbn [stars _starsLinkedThisClick set_tempLines].
  rewrite (sceneRemoveAll_keeps stars), (sceneRemoveAll_keeps _starsLinkedThisClick) by done.
  cbn [stars _starsLinkedThisClick set_currentLine].
  by rewrite (removeCurrentLine_keeps stars), (removeCurrentLine_keeps _starsLinkedThisClick).
Qed.

Lemma dropCurrentClick_star_flags g idx s' :
  idx ∈ _starsLinkedThisClick g → stars (_dropCurrentClick g) !! idx = Some s' →
  _linkedTemp s' = false ∧ (linked s' = false → filledSprite s' = false).
Proof.
  intros Hin Hs. rewrite dropCurrentClick_stars, decide_True in Hs by done.
  destruct (stars g !! idx) as [s|]; simpl in Hs; [|done].
  inversion Hs; subst. split; [done|]. simpl. by intros ->.
Qed.

Lemma dropCurrentClick_linked g :
  linked <$> stars (_dropCurrentClick g) = linked <$> stars g.
Proof.
  apply list_eq. intros i. rewrite !list_lookup_fmap, dropCurrentClick_stars.
  destruct (stars g !! i) as [s|]; simpl; [|done]. by case_decide.
Qed.

(** *** [_commitTempLines] *)

Lemma foldl_union_singletons (acc : gset string) (es : list string) :
  foldl (λ acc e, acc ∪ {[ e ]}) acc es = acc ∪ list_to_set es.
Proof.
  revert acc. induction es as [|e es IH]; intros acc; simpl.
  - by rewrite (right_id_L ∅ (∪)).
  - by rewrite IH, (assoc_L (∪)).
Qed.

Lemma checkCompletion_keeps {B} (proj : Game → B) g :
  (∀ v g, proj (set_completions v g) = proj g) → proj (_checkCompletion g) = proj g.
Proof.
  intros H. unfold _checkCompletion. repeat case_match; by rewrite ?H.
Qed.

Lemma commitTempLines_ledger g :
  creationMode g = false →
  edges (_commitTempLines g) = edges g ∧
  matchedEdges (_commitTempLines g) = matchedEdges g ∪ list_to_set (_edgesThisClick g) ∧
  permanentLines (_commitTempLines g) = permanentLines g ++ _tempLinesThisClick g ∧
  creationMode (_commitTempLines g) = false.
Proof.
  intros Hcm. unfold _commitTempLines. cbn zeta.
  cbn [creationMode set_permanentLines]. rewrite Hcm.
  rewrite !checkCompletion_keeps by done.
  cbn [edges matchedEdges permanentLines creationMode set_currentPath set_currentLine].
  rewrite !removeCurrentLine_keeps by done.
  cbn [edges matchedEdges permanentLines creationMode set_starsLinked
       set_edgesThisClick set_tempLines].
  rewrite !foldl_updateStar_keeps by done.
  cbn. rewrite foldl_union_singletons. done.
Qed.

Lemma commitTempLines_clears g :
  let g' := _commitTempLines g in
  _tempLinesThisClick g' = [] ∧ _edgesThisClick g' = [] ∧ _starsLinkedThisClick g' = [].
Proof.
  unfold _commitTempLines. cbn zeta.
  rewrite !checkCompletion_keeps by done.
  cbn [_tempLinesThisClick _edgesThisClick _starsLinkedThisClick
       set_currentPath set_currentLine].
  rewrite !removeCurrentLine_keeps by done.
  done.
Qed.

(** *** [_onPointerUp] *)

Lemma bad_edge_found g :
  creationMode g = false →
  existsb (λ e, negb (creationMode g) && bool_decide (e ∉ edges g)) (_edgesThisClick g) = true
  ↔ ∃ e, e ∈ _edgesThisClick g ∧ e ∉ edges g.
Proof.
  intros Hcm. rewrite existsb_exists, Hcm. simpl. split.
  - intros (e & Hin & He). exists e. apply list_elem_of_In in Hin.
    by apply bool_decide_eq_true in He.
  - intros (e & Hin & He). exists e. split; [by apply list_elem_of_In|].
    by apply bool_decide_eq_true.
Qed.

Lemma onPointerUp_drops g :
  creationMode g = false → dragging g = true →
  (∃ e, e ∈ _edgesThisClick g ∧ e ∉ edges g) →
  _onPointerUp g = Returned (_dropCurrentClick (set_dragging false g)).
Proof.
  intros Hcm Hdr Hbad. unfold _onPointerUp. rewrite Hdr. cbn [negb]. cbn zeta.
  apply (bad_edge_found (set_dragging false g)) in Hbad; [|done].
  by rewrite Hbad.
Qed.

Lemma onPointerUp_commits g :
  creationMode g = false → dragging g = true →
  (∀ e, e ∈ _edgesThisClick g → e ∈ edges g) →
  _onPointerUp g = Returned (_commitTempLines (set_dragging false g)).
Proof.
  intros Hcm Hdr Hgood. unfold _onPointerUp. rewrite Hdr. cbn [negb]. cbn zeta.
  destruct (existsb _ _) eqn:Hex; [|done].
  apply (bad_edge_found (set_dragging false g)) in Hex as (e & Hin & He); [|done].
  destruct He. by apply Hgood.
Qed.

Lemma onPointerUp_cases g :
  creationMode g = false →
  let g' := state_of (_onPointerUp g) in
  edges g' = edges g ∧ creationMode g' = false ∧
  (matchedEdges g' = matchedEdges g ∧ permanentLines g' = permanentLines g
   ∨ matchedEdges g' = matchedEdges g ∪ list_to_set (_edgesThisClick g) ∧
     (∀ e, e ∈ _edgesThisClick g → e ∈ edges g)).
Proof.
  intros Hcm. unfold _onPointerUp.
  destruct (dragging g) eqn:Hdr; cbn [negb state_of]; cbn zeta; [|auto].
  destruct (existsb _ _) eqn:Hex.
  - rewrite (dropCurrentClick_keeps edges), (dropCurrentClick_keeps creationMode),
      (dropCurrentClick_keeps matchedEdges), (dropCurrentClick_keeps permanentLines)
      by (by repeat split).
    auto.
  - destruct (commitTempLines_ledger (set_dragging false g) Hcm) as (He & Hm & Hp & Hc).
    split; [done|]. split; [done|]. right. split; [done|].
    intros e Hin. destruct (decide (e ∈ edges g)) as [|Hnin]; [done|].
    assert (existsb (λ e, negb (creationMode (set_dragging false g))
                          && bool_decide (e ∉ edges (set_dragging false g)))
                    (_edgesThisClick (set_dragging false g)) = true) as Hex'.
    { apply bad_edge_found; [done|]. by exists e. }
    congruence.
Qed.

(** *** Invariants of the event loop *)

Lemma clearAllLines_keeps {B} (proj : Game → B) g :
  (∀ v g, proj (set_stars v g) = proj g) →
  (∀ v g, proj (set_sceneLines v g) = proj g) →
  (∀ v g, proj (set_permanentLines v g) = proj g) →
  proj (_clearAllLines g) = proj g.
Proof.
  intros Hst Hsc Hpl. unfold _clearAllLines. cbn zeta.
  by rewrite Hst, Hpl, sceneRemoveAll_keeps.
Qed.

Lemma onPointerUp_creationMode g :
  creationMode (state_of (_onPointerUp g)) = creationMode g.
Proof.
  unfold _onPointerUp. destruct (dragging g); cbn [negb state_of]; cbn zeta; [|done].
  destruct (existsb _ _).
  - by rewrite (dropCurrentClick_keeps creationMode) by (by repeat split).
  - unfold _commitTempLines. cbn zeta. rewrite checkCompletion_keeps by done.
    cbn [creationMode set_currentPath set_currentLine].
    rewrite removeCurrentLine_keeps by done.
    cbn [creationMode set_starsLinked set_edgesThisClick set_tempLines].
    rewrite foldl_updateStar_keeps by done.
    cbn [creationMode set_matchedEdges set_permanentLines].
    change (creationMode (set_dragging false g)) with (creationMode g).
    by destruct (creationMode g) eqn:Hcm.
Qed.

Lemma step_creationMode g ev : creationMode (step g ev) = creationMode g.
Proof.
  destruct ev as [sample|hits|hits| |]; cbn [step].
  - done.
  - apply (onPointerDown_keeps creationMode); [by repeat split|done].
  - apply (onPointerMove_keeps creationMode). by repeat split.
  - apply onPointerUp_creationMode.
  - by apply (clearAllLines_keeps creationMode).
Qed.

Lemma run_creationMode g evs : creationMode (run g evs) = creationMode g.
Proof.
  revert g. induction evs as [|ev evs IH]; intros g; simpl; [done|].
  unfold run in IH. by rewrite IH, step_creationMode.
Qed.

Lemma reachable_creationMode g : reachable g → creationMode g = false.
Proof. intros [evs ->]. by rewrite run_creationMode. Qed.

Lemma step_reachable g ev : reachable g → reachable (step g ev).
Proof.
  intros [evs ->]. exists (evs ++ [ev]). unfold run. by rewrite foldl_app.
Qed.

Lemma onPointerDown_dragging hits g :
  let g' := state_of (_onPointerDown hits g) in
  g' = g ∨ dragging g' = true.
Proof.
  unfold _onPointerDown. destruct hits as [|hit _]; [by left|].
  destruct (findIndex g hit) as [idx|]; [|by left]. right.
  set (g3 := _createDynamicLine idx _).
  assert (dragging g3 = true) as H3 by done.
  destruct (stars g3 !! idx) as [s|]; simpl; [|done].
  destruct (shooting s); [|done].
  by rewrite (dropCurrentClick_keeps dragging) by apply click_free_dragging.
Qed.

Lemma step_idle_clean g ev : idle_clean g → idle_clean (step g ev).
Proof.
  intros Hclean. destruct ev as [sample|hits|hits| |]; cbn [step].
  - exact Hclean.
  - destruct (onPointerDown_dragging hits g) as [->|Hd]; [done|].
    intros Hf. congruence.
  - intros Hf. rewrite (onPointerMove_keeps dragging) in Hf by apply click_free_dragging.
    unfold _onPointerMove. rewrite Hf. simpl. by apply Hclean.
  - unfold _onPointerUp. destruct (dragging g) eqn:Hd; cbn [negb state_of]; cbn zeta.
    + intros _. destruct (existsb _ _).
      * destruct (dropCurrentClick_clears (set_dragging false g)) as (? & ? & ? & _). done.
      * destruct (commitTempLines_clears (set_dragging false g)) as (? & ? & ?). done.
    + done.
  - intros Hf. rewrite (clearAllLines_keeps dragging) in Hf by done.
    rewrite (clearAllLines_keeps _edgesThisClick), (clearAllLines_keeps _tempLinesThisClick),
      (clearAllLines_keeps _starsLinkedThisClick) by done.
    by apply Hclean.
Qed.

Lemma reachable_idle_clean g : reachable g → idle_clean g.
Proof.
  intros [evs ->]. induction evs as [|ev evs IH] using rev_ind; [done|].
  unfold run. rewrite foldl_app. simpl. by apply step_idle_clean.
Qed.

(** One event keeps the matched edges inside the required edges. *)
Lemma step_matched_subset g ev :
  creationMode g = false → matchedEdges g ⊆ edges g →
  matchedEdges (step g ev) ⊆ edges (step g ev).
Proof.
  intros Hcm Hsub. destruct ev as [sample|hits|hits| |]; cbn [step].
  - unfold load. cbn. apply empty_subseteq.
  - by rewrite (onPointerDown_keeps matchedEdges), (onPointerDown_keeps edges)
      by (done || by repeat split).
  - by rewrite (onPointerMove_keeps matchedEdges), (onPointerMove_keeps edges)
      by (by repeat split).
  - destruct (onPointerUp_cases g Hcm) as (He & _ & [[Hm _]|[Hm Hgood]]);
      rewrite He, Hm; [done|].
    apply union_least; [done|].
    intros e He'. apply elem_of_list_to_set in He'. by apply Hgood.
  - by rewrite (clearAllLines_keeps matchedEdges), (clearAllLines_keeps edges) by done.
Qed.

(** A pointer event never changes the required edges, and only adds to
    the matched ones. *)
Lemma pointer_step_edges g ev :
  creationMode g = false → isPointerEvent ev = true →
  edges (step g ev) = edges g ∧ matchedEdges g ⊆ matchedEdges (step g ev).
Proof.
  intros Hcm Hev. destruct ev as [sample|hits|hits| |]; cbn [step]; try done.
  - by rewrite (onPointerDown_keeps matchedEdges), (onPointerDown_keeps edges)
      by (done || by repeat split).
  - by rewrite (onPointerMove_keeps matchedEdges), (onPointerMove_keeps edges)
      by (by repeat split).
  - destruct (onPointerUp_cases g Hcm) as (He & _ & [[Hm _]|[Hm _]]);
      rewrite He, Hm; split; try done. apply union_subseteq_l.
Qed.

Lemma run_matched_subset g evs :
  creationMode g = false → matchedEdges g ⊆ edges g →
  matchedEdges (run g evs) ⊆ edges (run g evs).
Proof.
  revert g. induction evs as [|ev evs IH]; intros g Hcm Hsub; simpl; [done|].
  apply IH; [by rewrite step_creationMode|by apply step_matched_subset].
Qed.

(** Any number of pointer events: the required edges stay fixed, matched
    edges are only added, and all of them are required. *)
Lemma pointer_run_edges g evs :
  creationMode g = false → matchedEdges g ⊆ edges g →
  forallb isPointerEvent evs = true →
  edges (run g evs) = edges g ∧
  matchedEdges g ⊆ matchedEdges (run g evs) ∧
  matchedEdges (run g evs) ⊆ edges g.
Proof.
  revert g. induction evs as [|ev evs IH]; intros g Hcm Hsub Hall; simpl.
  - done.
  - apply andb_true_iff in Hall as [Hev Hall].
    destruct (pointer_step_edges g ev Hcm Hev) as [He Hm].
    pose proof (step_matched_subset g ev Hcm Hsub) as Hsub'.
    destruct (IH (step g ev)) as (He' & Hm' & Hs'); [by rewrite step_creationMode|done..|].
    unfold run in *. rewrite He', He. split; [done|]. split; [|by rewrite <- He].
    by etrans.
Qed.

(** Pressing the pointer and dragging it about changes nothing of the
    ledger; only the release can. *)
Lemma drag_keeps_ledger g hits moves :
  ledger (run g (PointerDown hits :: (PointerMove <$> moves))) = ledger g.
Proof.
  unfold run. cbn [foldl step].
  transitivity (ledger (state_of (_onPointerDown hits g))).
  - generalize (state_of (_onPointerDown hits g)). intros g1.
    revert g1. induction moves as [|m moves IH]; intros g1; [done|].
    cbn [fmap list_fmap foldl step]. rewrite IH.
    apply (onPointerMove_keeps ledger), click_free_ledger.
  - apply (onPointerDown_keeps ledger); [apply click_free_ledger|done].
Qed.

Lemma run_reachable g evs : reachable g → reachable (run g evs).
Proof.
  intros [evs0 ->]. exists (evs0 ++ evs). unfold run. by rewrite foldl_app.
Qed.

(** Claim C6.  In every state a game object reaches from its constructor
    by loads, pointer events and the Show button, the matched edges are
    required edges.  The same holds from any state outside creation mode
    in which it holds.  And outside creation mode pointer events, one or
    any number of them, never change the required edges, never remove a
    matched edge, and add only required ones. *)
Theorem matched_subset_required :
  (∀ evs, matchedEdges (run newGame evs) ⊆ edges (run newGame evs)) ∧
  (∀ g evs, creationMode g = false → matchedEdges g ⊆ edges g →
     matchedEdges (run g evs) ⊆ edges (run g evs)) ∧
  (∀ g ev, creationMode g = false → isPointerEvent ev = true →
     edges (step g ev) = edges g ∧ matchedEdges g ⊆ matchedEdges (step g ev)) ∧
  (∀ g evs, creationMode g = false → matchedEdges g ⊆ edges g →
     forallb isPointerEvent evs = true →
     edges (run g evs) = edges g ∧
     matchedEdges g ⊆ matchedEdges (run g evs) ∧
     matchedEdges (run g evs) ⊆ edges g).
Proof.
  split; [|split; [|split]].
  - intros evs. by apply run_matched_subset.
  - apply run_matched_subset.
  - apply pointer_step_edges.
  - apply pointer_run_edges.
Qed.

(** The release of a click that holds an edge which is not required. *)
Lemma pointerUp_drops_bad_click g e :
  reachable g → e ∈ _edgesThisClick g → e ∉ edges g →
  let g' := step g PointerUp in
  matchedEdges g' = matchedEdges g ∧
  permanentLines g' = permanentLines g ∧
  edges g' = edges g ∧
  _tempLinesThisClick g' = [] ∧ _edgesThisClick g' = [] ∧
  _starsLinkedThisClick g' = [] ∧
  (∀ l, l ∈ _tempLinesThisClick g → l ∉ sceneLines g') ∧
  (∀ idx s', idx ∈ _starsLinkedThisClick g → stars g' !! idx = Some s' →
     _linkedTemp s' = false ∧ (linked s' = false → filledSprite s' = false)) ∧
  linked <$> stars g' = linked <$> stars g ∧
  dragging g' = false ∧ completions g' = completions g.
Proof.
  intros Hreach Hin Hnin g'.
  pose proof (reachable_creationMode g Hreach) as Hcm.
  assert (dragging g = true) as Hdr.
  { destruct (dragging g) eqn:Hd; [done|].
    destruct (reachable_idle_clean g Hreach Hd) as (He & _).
    rewrite He in Hin. by apply not_elem_of_nil in Hin. }
  subst g'. cbn [step].
  rewrite (onPointerUp_drops g Hcm Hdr) by (by exists e). cbn [state_of].
  set (g1 := set_dragging false g).
  destruct (dropCurrentClick_clears g1) as (Ht & He & Hs & _ & _).
  rewrite (dropCurrentClick_keeps matchedEdges), (dropCurrentClick_keeps permanentLines),
    (dropCurrentClick_keeps edges), (dropCurrentClick_keeps dragging),
    (dropCurrentClick_keeps completions) by (by repeat split).
  do 6 (split; [done|]).
  split; [intros l Hl; by apply (dropCurrentClick_scene g1)|].
  split; [intros idx s' Hidx Hs'; by apply (dropCurrentClick_star_flags g1 idx)|].
  split; [apply (dropCurrentClick_linked g1)|done].
Qed.

(** Claim C5.  In a reachable state whose tentative edges contain an edge
    that is not required, wherever it stands among them, releasing the
    pointer leaves the matched edges, the permanent lines and the required
    edges as they were, empties the three per-click collections, removes
    every temporary line of the click from the scene, clears the
    temporary flag of every star linked in the click (and gives a star
    that is not permanently linked its empty sprite back), changes no
    permanent [linked] flag, ends the drag and reports no completion.
    For a whole gesture (press, any moves, release) that has gathered
    such an edge, the matched edges, permanent lines and required edges
    after the release are those from before the press.  In
    the scenario (required edge (0,1), drag 0 -> 1 -> 2) the tentative
    edges are 0-1 and 1-2, and after the release no edge is matched, no
    line is permanent and the scene holds no line. *)
Theorem gesture_atomicity :
  (∀ g e,
     reachable g → e ∈ _edgesThisClick g → e ∉ edges g →
     let g' := step g PointerUp in
     matchedEdges g' = matchedEdges g ∧
     permanentLines g' = permanentLines g ∧
     edges g' = edges g ∧
     _tempLinesThisClick g' = [] ∧ _edgesThisClick g' = [] ∧
     _starsLinkedThisClick g' = [] ∧
     (∀ l, l ∈ _tempLinesThisClick g → l ∉ sceneLines g') ∧
     (∀ idx s', idx ∈ _starsLinkedThisClick g → stars g' !! idx = Some s' →
        _linkedTemp s' = false ∧ (linked s' = false → filledSprite s' = false)) ∧
     linked <$> stars g' = linked <$> stars g ∧
     dragging g' = false ∧ completions g' = completions g)
  ∧
  (∀ g0 hits moves e,
     reachable g0 →
     let g := run g0 (PointerDown hits :: (PointerMove <$> moves)) in
     e ∈ _edgesThisClick g → e ∉ edges g0 →
     let g' := step g PointerUp in
     matchedEdges g' = matchedEdges g0 ∧
     permanentLines g' = permanentLines g0 ∧
     edges g' = edges g0 ∧
     _tempLinesThisClick g' = [] ∧ _edgesThisClick g' = [] ∧
     _starsLinkedThisClick g' = [] ∧
     (∀ l, l ∈ _tempLinesThisClick g → l ∉ sceneLines g'))
  ∧
  (_edgesThisClick scenarioDrag = ["0-1"; "1-2"] ∧
   edges scenarioDrag = {[ "0-1" ]} ∧
   length (_tempLinesThisClick scenarioDrag) = 2 ∧
   matchedEdges (step scenarioDrag PointerUp) = ∅ ∧
   permanentLines (step scenarioDrag PointerUp) = [] ∧
   _edgesThisClick (step scenarioDrag PointerUp) = [] ∧
   _tempLinesThisClick (step scenarioDrag PointerUp) = [] ∧
   sceneLines (step scenarioDrag PointerUp) = []).
Proof.
  split; [|split].
  - intros g e Hreach Hin Hnin. by apply (pointerUp_drops_bad_click g e).
  - intros g0 hits moves e Hreach g Hin Hnin g'.
    pose proof (drag_keeps_ledger g0 hits moves) as Hled. fold g in Hled.
    injection Hled as He Hm Hp _.
    assert (e ∉ edges g) as Hnin' by (by rewrite He).
    destruct (pointerUp_drops_bad_click g e (run_reachable g0 _ Hreach) Hin Hnin')
      as (H1 & H2 & H3 & H4 & H5 & H6 & H7 & _).
    fold g' in H1, H2, H3, H4, H5, H6, H7.
    rewrite H1, H2, H3, Hm, Hp, He. done.
  - vm_compute. done.
Qed.

(** Claim C7 fails on the code.  Star 1 is a shooting star; the drag from
    star 0 through star 1 is released; [_onPointerMove] never reads
    [shooting], so the click is committed: both stars end up permanently
    linked, the edge 0-1 is matched, its line is permanent and the level
    completes.  Only a click that starts on the shooting star is dropped
    (last line). *)
Theorem shooting_star_linked_by_drag :
  shooting <$> stars shootingDrag = [false; true] ∧
  linked <$> stars shootingDrag = [true; true] ∧
  matchedEdges shootingDrag = {[ "0-1" ]} ∧
  length (permanentLines shootingDrag) = 1 ∧
  completions shootingDrag = 1 ∧
  linked <$> stars (run newGame [Load shootingSample; PointerDown [1];
                                 PointerMove [0]; PointerUp]) = [false; false].
Proof. vm_compute. done. Qed.

(** The atomicity of a gesture at the scenario's drag: the edge 1-2 is
    tentative and not required. *)
Lemma gesture_atomicity_witness :
  reachable scenarioDrag ∧ "1-2" ∈ _edgesThisClick scenarioDrag ∧
  ("1-2" ∉ edges scenarioDrag) ∧
  matchedEdges (step scenarioDrag PointerUp) = matchedEdges scenarioDrag ∧
  permanentLines (step scenarioDrag PointerUp) = permanentLines scenarioDrag.
Proof.
  assert (reachable scenarioDrag) as Hreach by (eexists; reflexivity).
  assert ("1-2" ∈ _edgesThisClick scenarioDrag) as Hin.
  { replace (_edgesThisClick scenarioDrag) with ["0-1"; "1-2"] by (by vm_compute).
    right. left. }
  assert ("1-2" ∉ edges scenarioDrag) as Hnin.
  { replace (edges scenarioDrag) with ({[ "0-1" ]} : gset string) by (by vm_compute).
    by apply not_elem_of_singleton. }
  split; [exact Hreach|]. split; [exact Hin|]. split; [exact Hnin|].
  destruct (proj1 gesture_atomicity scenarioDrag "1-2" Hreach Hin Hnin) as (H1 & H2 & _).
  split; [exact H1|exact H2].
Defined.

(** The invariant after a committed and a dropped gesture on the
    scenario's level. *)
Lemma matched_subset_witness :
  creationMode newGame = false ∧ matchedEdges newGame ⊆ edges newGame ∧
  matchedEdges (run newGame [Load scenarioSample; PointerDown [0]; PointerMove [1];
                             PointerUp; PointerDown [1]; PointerMove [2]; PointerUp])
  ⊆ edges (run newGame [Load scenarioSample; PointerDown [0]; PointerMove [1];
                        PointerUp; PointerDown [1]; PointerMove [2]; PointerUp]).
Proof.
  split; [reflexivity|]. split; [done|].
  apply (proj1 (proj2 matched_subset_required) newGame); [reflexivity|done].
Defined.

(** *** Edge keys *)

(** *** Edge keys *)

Lemma append_nil_l (s : string) : EmptyString +:+ s = s.
Proof. reflexivity. Qed.
Lemma append_cons (c : Ascii.ascii) (s t : string) : String c s +:+ t = String c (s +:+ t).
Proof. reflexivity. Qed.

Lemma digits_dash_split (d e : Decimal.uint) (s t : string) :
  NilEmpty.string_of_uint d +:+ "-" +:+ s = NilEmpty.string_of_uint e +:+ "-" +:+ t →
  d = e ∧ s = t.
Proof.
  revert e. induction d as [|d IH|d IH|d IH|d IH|d IH|d IH|d IH|d IH|d IH|d IH];
    intros [|e|e|e|e|e|e|e|e|e|e] H; cbn [NilEmpty.string_of_uint] in H;
    repeat (rewrite append_nil_l in H || rewrite append_cons in H);
    try discriminate H;
    try (injection H as H; destruct (IH e H) as [-> ->]; done).
  injection H as ->. done.
Qed.

Lemma edgeKey_text_inj a b c d :
  numberText a +:+ "-" +:+ numberText b = numberText c +:+ "-" +:+ numberText d →
  a = c ∧ b = d.
Proof.
  unfold numberText. intros H.
  apply digits_dash_split in H as [H1 H2].
  apply Unsigned.to_uint_inj in H1.
  assert (Nat.to_uint b = Nat.to_uint d) as H3.
  { pose proof (NilEmpty.usu (Nat.to_uint b)) as Hb.
    rewrite H2, NilEmpty.usu in Hb. congruence. }
  apply Unsigned.to_uint_inj in H3. done.
Qed.

Lemma edgeKey_sym a b : _edgeKey a b = _edgeKey b a.
Proof.
  unfold _edgeKey.
  destruct (Nat.ltb_spec a b), (Nat.ltb_spec b a); try done; try lia.
  assert (a = b) as -> by lia. done.
Qed.

Lemma edgeKey_inj a b c d :
  _edgeKey a b = _edgeKey c d ↔ (a = c ∧ b = d) ∨ (a = d ∧ b = c).
Proof.
  split.
  - unfold _edgeKey.
    destruct (Nat.ltb_spec a b), (Nat.ltb_spec c d); intros Hk;
      apply edgeKey_text_inj in Hk; lia.
  - intros [[-> ->]|[-> ->]]; [done|apply edgeKey_sym].
Qed.

Lemma edgeKey_ordered a b :
  _edgeKey a b = numberText (a `min` b) +:+ "-" +:+ numberText (a `max` b).
Proof.
  unfold _edgeKey. destruct (Nat.ltb_spec a b).
  - by rewrite Nat.min_l, Nat.max_r by lia.
  - by rewrite Nat.min_r, Nat.max_l by lia.
Qed.

Lemma load_edges sample g key :
  key ∈ edges (load sample g) ↔ ∃ a b, (a, b) ∈ sampleEdges sample ∧ key = _edgeKey a b.
Proof.
  unfold load. cbn.
  assert (∀ (l : list (nat * nat)) (acc : gset string),
    key ∈ foldl (λ acc e, acc ∪ {[ _edgeKey e.1 e.2 ]}) acc l
    ↔ key ∈ acc ∨ ∃ a b, (a, b) ∈ l ∧ key = _edgeKey a b) as Hfold.
  { induction l as [|[a b] l IH]; intros acc; cbn.
    - split; [by left|]. intros [?|(a & b & Hin & _)]; [done|]. by apply elem_of_nil in Hin.
    - rewrite IH. rewrite elem_of_union, elem_of_singleton. split.
      + intros [[?| ->]|(a' & b' & Hin & ->)]; [by left| |].
        * right. exists a, b. split; [by left|done].
        * right. exists a', b'. split; [by right|done].
      + intros [?|(a' & b' & Hin & ->)]; [by left; left|].
        apply elem_of_cons in Hin as [[= -> ->]|Hin]; [by left; right|].
        right. by exists a', b'. }
  rewrite Hfold. split; [intros [H|H]; [by apply elem_of_empty in H|done]|by right].
Qed.

(** Property X7: [_edgeKey] does not depend on the order of the two star
    indices, gives equal keys only to equal unordered pairs, and writes the
    smaller index first; so a pair is required after [load] exactly when the
    sample lists it in one of the two orders, and [load] starts with no
    matched edge. *)
Theorem edge_key_identifies_pair :
  (∀ a b, _edgeKey a b = _edgeKey b a) ∧
  (∀ a b c d, _edgeKey a b = _edgeKey c d ↔ (a = c ∧ b = d) ∨ (a = d ∧ b = c)) ∧
  (∀ a b, _edgeKey a b = numberText (a `min` b) +:+ "-" +:+ numberText (a `max` b)) ∧
  (∀ sample g c d,
     _edgeKey c d ∈ edges (load sample g)
     ↔ (c, d) ∈ sampleEdges sample ∨ (d, c) ∈ sampleEdges sample) ∧
  (∀ sample g, matchedEdges (load sample g) = ∅).
Proof.
  split; [exact edgeKey_sym|]. split; [exact edgeKey_inj|]. split; [exact edgeKey_ordered|].
  split; [|done].
  intros sample g c d. rewrite load_edges. split.
  - intros (a & b & Hin & Hk). apply edgeKey_inj in Hk as [[-> ->]|[-> ->]]; [by left|by right].
  - intros [H|H]; [by exists c, d|]. exists d, c. split; [done|apply edgeKey_sym].
Qed.

(** *** A gesture that is committed *)

Lemma commitStar_idem s : commitStar (commitStar s) = commitStar s.
Proof. done. Qed.

Lemma commitTempLines_shape g :
  creationMode g = false →
  ∃ gc,
    _commitTempLines g = _checkCompletion gc ∧
    edges gc = edges g ∧
    matchedEdges gc = matchedEdges g ∪ list_to_set (_edgesThisClick g) ∧
    completions gc = completions g ∧
    dragging gc = dragging g ∧ currentLine gc = None ∧ currentPath gc = [] ∧
    (∀ i, stars gc !! i
          = (if decide (i ∈ _starsLinkedThisClick g) then commitStar else (λ s, s))
              <$> stars g !! i).
Proof.
  intros Hcm. unfold _commitTempLines. cbn zeta.
  eexists. split; [reflexivity|].
  cbn [creationMode set_permanentLines]. rewrite Hcm.
  set (g3 := set_matchedEdges _ _).
  set (g4 := foldl _ g3 _).
  assert (∀ {B} (proj : Game → B),
            (∀ v g, proj (set_stars v g) = proj g) → proj g4 = proj g3) as Hkeep.
  { intros B proj Hp. unfold g4. by apply foldl_updateStar_keeps. }
  assert (∀ gx, edges (removeCurrentLine gx) = edges gx ∧
                matchedEdges (removeCurrentLine gx) = matchedEdges gx ∧
                completions (removeCurrentLine gx) = completions gx ∧
                dragging (removeCurrentLine gx) = dragging gx ∧
                stars (removeCurrentLine gx) = stars gx) as Hrm.
  { intros gx. unfold removeCurrentLine. by destruct (currentLine gx). }
  set (g5 := set_starsLinked [] (set_edgesThisClick [] (set_tempLines [] g4))).
  destruct (Hrm g5) as (E1 & E2 & E3 & E4 & E5).
  cbn [edges matchedEdges completions dragging currentLine currentPath stars
       set_currentPath set_currentLine].
  rewrite E1, E2, E3, E4, E5. unfold g5.
  cbn [edges matchedEdges completions dragging stars
       set_starsLinked set_edgesThisClick set_tempLines].
  rewrite (Hkeep _ edges), (Hkeep _ matchedEdges), (Hkeep _ completions),
          (Hkeep _ dragging) by done.
  unfold g3. cbn [edges matchedEdges completions dragging set_matchedEdges
                  set_permanentLines _edgesThisClick].
  rewrite foldl_union_singletons.
  do 6 (split; [done|]).
  intros i. unfold g4.
  rewrite foldl_updateStar_lookup by apply commitStar_idem. done.
Qed.

Lemma checkCompletion_count g :
  completions (_checkCompletion g)
  = completions g +
      (if decide (edges g ≠ ∅)
       then (if decide (edges g ⊆ matchedEdges g) then 1 else 0)
       else (if forallb linked (stars g) then 1 else 0)).
Proof.
  unfold _checkCompletion.
  destruct (decide (edges g ≠ ∅)) as [Hne|He].
  - rewrite bool_decide_eq_true_2 by done.
    destruct (decide (edges g ⊆ matchedEdges g)).
    + rewrite bool_decide_eq_true_2 by done. cbn. lia.
    + rewrite bool_decide_eq_false_2 by done. lia.
  - rewrite bool_decide_eq_false_2 by done.
    destruct (forallb linked (stars g)); cbn; lia.
Qed.

Lemma checkCompletion_rest g :
  edges (_checkCompletion g) = edges g ∧
  matchedEdges (_checkCompletion g) = matchedEdges g ∧
  permanentLines (_checkCompletion g) = permanentLines g ∧
  stars (_checkCompletion g) = stars g ∧
  dragging (_checkCompletion g) = dragging g ∧
  currentLine (_checkCompletion g) = currentLine g ∧
  currentPath (_checkCompletion g) = currentPath g.
Proof.
  unfold _checkCompletion. repeat case_bool_decide; try destruct (forallb _ _); done.
Qed.

(** Property X8: releasing the pointer after a drag whose edges are all
    required commits the gesture: its edges join [matchedEdges], its lines
    are appended to [permanentLines], the stars it linked are marked linked
    and lose their temporary flag while the others are unchanged, the
    per-click lists and the drag state are cleared, and the completion fires
    iff every required edge is now matched (with no required edge: iff every
    star is linked). *)
Theorem valid_gesture_commits g :
  reachable g → dragging g = true →
  (∀ e, e ∈ _edgesThisClick g → e ∈ edges g) →
  let g' := step g PointerUp in
  edges g' = edges g ∧
  matchedEdges g' = matchedEdges g ∪ list_to_set (_edgesThisClick g) ∧
  permanentLines g' = permanentLines g ++ _tempLinesThisClick g ∧
  _tempLinesThisClick g' = [] ∧ _edgesThisClick g' = [] ∧
  _starsLinkedThisClick g' = [] ∧
  dragging g' = false ∧ currentLine g' = None ∧ currentPath g' = [] ∧
  (∀ i, stars g' !! i
        = (if decide (i ∈ _starsLinkedThisClick g) then commitStar else (λ s, s))
            <$> stars g !! i) ∧
  completions g'
  = completions g +
      (if decide (edges g ≠ ∅)
       then (if decide (edges g ⊆ matchedEdges g ∪ list_to_set (_edgesThisClick g))
             then 1 else 0)
       else (if forallb linked (stars g') then 1 else 0)).
Proof.
  intros Hreach Hdrag Hall g'.
  pose proof (reachable_creationMode g Hreach) as Hcm.
  assert (g' = _commitTempLines (set_dragging false g)) as Hg'.
  { unfold g'. cbn [step]. by rewrite (onPointerUp_commits g Hcm Hdrag Hall). }
  destruct (commitTempLines_ledger (set_dragging false g) Hcm) as (L1 & L2 & L3 & _).
  destruct (commitTempLines_clears (set_dragging false g)) as (C1 & C2 & C3).
  destruct (commitTempLines_shape (set_dragging false g) Hcm)
    as (gc & Hshape & S1 & S2 & S3 & S4 & S5 & S6 & S7).
  destruct (checkCompletion_rest gc) as (R1 & R2 & R3 & R4 & R5 & R6 & R7).
  rewrite Hg'. split; [done|]. split; [done|]. split; [done|].
  split; [done|]. split; [done|]. split; [done|].
  rewrite Hshape, R4, R5, R6, R7, checkCompletion_count, S1, S2, S3, S4, S5, S6.
  do 3 (split; [done|]). split; [exact S7|]. done.
Qed.

Lemma valid_gesture_commits_witness :
  reachable (run newGame [Load scenarioSample; PointerDown [0]; PointerMove [1]]) ∧
  dragging (run newGame [Load scenarioSample; PointerDown [0]; PointerMove [1]]) = true ∧
  matchedEdges (step (run newGame [Load scenarioSample; PointerDown [0]; PointerMove [1]])
                     PointerUp)
  = matchedEdges (run newGame [Load scenarioSample; PointerDown [0]; PointerMove [1]])
    ∪ list_to_set
        (_edgesThisClick (run newGame [Load scenarioSample; PointerDown [0]; PointerMove [1]])).
Proof.
  assert (reachable (run newGame [Load scenarioSample; PointerDown [0]; PointerMove [1]]))
    as Hreach by (eexists; reflexivity).
  assert (∀ e, e ∈ _edgesThisClick
                     (run newGame [Load scenarioSample; PointerDown [0]; PointerMove [1]]) →
               e ∈ edges (run newGame [Load scenarioSample; PointerDown [0]; PointerMove [1]]))
    as Hall.
  { replace (_edgesThisClick
               (run newGame [Load scenarioSample; PointerDown [0]; PointerMove [1]]))
      with ["0-1"] by (by vm_compute).
    replace (edges (run newGame [Load scenarioSample; PointerDown [0]; PointerMove [1]]))
      with ({[ "0-1" ]} : gset string) by (by vm_compute).
    intros e He. apply list_elem_of_singleton in He as ->. by apply elem_of_singleton. }
  split; [exact Hreach|]. split; [reflexivity|].
  exact (proj1 (proj2 (valid_gesture_commits _ Hreach eq_refl Hall))).
Defined.

(** *** Pressing on a shooting star *)

Lemma findIndex_Some g hit : hit < length (stars g) → findIndex g hit = Some hit.
Proof. intros H. unfold findIndex. by rewrite decide_True. Qed.

Lemma findIndex_None g hit : length (stars g) ≤ hit → findIndex g hit = None.
Proof. intros H. unfold findIndex. rewrite decide_False; [done|lia]. Qed.

(** Property X9: a press on a shooting star returns with a drag in flight
    but no start star and no line; a pointer move over a star then throws
    and changes nothing, a move over no star returns with nothing changed,
    and outside creation mode the release ends the drag with the ledger of
    edges and lines as it was before the press. *)
Theorem press_on_shooting_star_breaks_moves g hit hits s :
  stars g !! hit = Some s → shooting s = true →
  let g1 := state_of (_onPointerDown (hit :: hits) g) in
  _onPointerDown (hit :: hits) g = Returned g1 ∧
  dragging g1 = true ∧ currentPath g1 = [] ∧ currentLine g1 = None ∧
  _edgesThisClick g1 = [] ∧ _tempLinesThisClick g1 = [] ∧
  ledger g1 = ledger g ∧ length (stars g1) = length (stars g) ∧
  (∀ hit' hits', hit' < length (stars g) →
     _onPointerMove (hit' :: hits') g1 = Threw g1) ∧
  (∀ hits', Forall (λ h, length (stars g) ≤ h) hits' →
     _onPointerMove hits' g1 = Returned g1) ∧
  (creationMode g = false →
   ledger (step g1 PointerUp) = ledger g ∧ dragging (step g1 PointerUp) = false).
Proof.
  intros Hs Hshoot g1.
  assert (hit < length (stars g)) as Hlt by (by eapply lookup_lt_Some).
  set (g3 := _createDynamicLine hit
               (set_starsLinked [] (set_edgesThisClick [] (set_tempLines []
                  (set_currentPath [hit] (set_dragging true g)))))).
  assert (stars g3 = stars g) as Hstars by done.
  assert (_onPointerDown (hit :: hits) g = Returned (_dropCurrentClick g3)) as Hdown.
  { unfold _onPointerDown. rewrite findIndex_Some by done. cbn zeta. fold g3.
    rewrite Hstars, Hs, Hshoot. done. }
  assert (g1 = _dropCurrentClick g3) as Hg1 by (unfold g1; by rewrite Hdown).
  destruct (dropCurrentClick_clears g3) as (C1 & C2 & C3 & C4 & C5). cbn zeta in *.
  assert (dragging g1 = true) as Hdrag.
  { rewrite Hg1. rewrite (dropCurrentClick_keeps dragging) by apply click_free_dragging. done. }
  assert (ledger g1 = ledger g) as Hled.
  { rewrite Hg1. rewrite (dropCurrentClick_keeps ledger) by apply click_free_ledger. done. }
  assert (length (stars g1) = length (stars g)) as Hlen.
  { rewrite Hg1, <- Hstars.
    rewrite <- (length_fmap linked), dropCurrentClick_linked, length_fmap. done. }
  split; [by rewrite Hdown, Hg1|]. split; [done|].
  rewrite Hg1 at 1 2 3 4. do 4 (split; [done|]). split; [done|]. split; [done|].
  split; [|split].
  - intros hit' hits' Hlt'. unfold _onPointerMove. rewrite Hdrag. cbn [negb passThrough].
    rewrite findIndex_Some by lia. cbn zeta.
    assert (currentPath g1 = []) as -> by (by rewrite Hg1).
    cbn [last]. rewrite bool_decide_eq_false_2 by done. done.
  - intros hits' Hall. unfold _onPointerMove. rewrite Hdrag. cbn [negb].
    induction Hall as [|h hits' Hh _ IH]; [done|].
    cbn [passThrough]. rewrite findIndex_None by lia. done.
  - intros Hcm.
    assert (creationMode g1 = false) as Hcm1.
    { rewrite Hg1, (dropCurrentClick_keeps creationMode); [done|].
      repeat split; done. }
    assert (_edgesThisClick g1 = []) as He1 by (by rewrite Hg1).
    assert (_tempLinesThisClick g1 = []) as Ht1 by (by rewrite Hg1).
    assert (∀ e, e ∈ _edgesThisClick g1 → e ∈ edges g1) as Hall.
    { rewrite He1. intros e He. by apply elem_of_nil in He. }
    cbn [step]. rewrite (onPointerUp_commits g1 Hcm1 Hdrag Hall). cbn [state_of].
    destruct (commitTempLines_ledger (set_dragging false g1) Hcm1) as (L1 & L2 & L3 & L4).
    split.
    + rewrite <- Hled. unfold ledger. rewrite L1, L2, L3, L4.
      cbn [edges matchedEdges permanentLines set_dragging _edgesThisClick _tempLinesThisClick].
      rewrite He1, Ht1, app_nil_r. cbn [list_to_set]. rewrite union_empty_r_L.
      by rewrite Hcm1.
    + destruct (commitTempLines_shape (set_dragging false g1) Hcm1)
        as (gc & -> & _ & _ & _ & Hd & _).
      destruct (checkCompletion_rest gc) as (_ & _ & _ & _ & -> & _). by rewrite Hd.
Qed.

Lemma press_on_shooting_star_witness :
  stars (load shootingSample newGame) !! 1 = Some (mkStar false true false false) ∧
  _onPointerMove [0]
    (state_of (_onPointerDown [1] (load shootingSample newGame)))
  = Threw (state_of (_onPointerDown [1] (load shootingSample newGame))).
Proof.
  split; [reflexivity|].
  destruct (press_on_shooting_star_breaks_moves (load shootingSample newGame) 1 []
              (mkStar false true false false) eq_refl eq_refl)
    as (_ & _ & _ & _ & _ & _ & _ & _ & H & _).
  apply H. cbn. lia.
Defined.

(** *** The lines in the scene *)

Lemma filter_other_ids (L : list Line) l :
  (∀ x, x ∈ L → lineId x ≠ lineId l) → filter (λ l', lineId l' ≠ lineId l) L = L.
Proof.
  induction L as [|x L IH]; intros H; [done|].
  rewrite filter_cons, decide_True by (apply H; by left).
  rewrite IH; [done|]. intros y Hy. apply H. by right.
Qed.

Lemma ids_apart (A B : list Line) l x :
  NoDup (lineId <$> (A ++ l :: B)) → x ∈ A ++ B → lineId x ≠ lineId l.
Proof.
  rewrite fmap_app, fmap_cons. intros Hnd Hx Heq.
  apply NoDup_app in Hnd as (_ & Hab & Hb).
  apply NoDup_cons in Hb as [Hlb _].
  apply elem_of_app in Hx as [Hx|Hx].
  - apply (Hab (lineId x)); [by apply list_elem_of_fmap_2|]. rewrite Heq. by left.
  - apply Hlb. rewrite <- Heq. by apply list_elem_of_fmap_2.
Qed.

Lemma remove_line_perm (L A B : list Line) l :
  L ≡ₚ A ++ l :: B → NoDup (lineId <$> L) →
  filter (λ l', lineId l' ≠ lineId l) L ≡ₚ A ++ B.
Proof.
  intros Hp Hnd. rewrite Hp in Hnd. rewrite Hp.
  rewrite filter_app, filter_cons, decide_False by (intros N; by apply N).
  rewrite !filter_other_ids; [done| |].
  - intros x Hx. apply (ids_apart A B l x Hnd). apply elem_of_app. by right.
  - intros x Hx. apply (ids_apart A B l x Hnd). apply elem_of_app. by left.
Qed.

Lemma filter_ids_NoDup (P : Line → Prop) `{∀ x, Decision (P x)} (L : list Line) :
  NoDup (lineId <$> L) → NoDup (lineId <$> filter P L).
Proof.
  intros Hnd. eapply sublist_NoDup; [exact Hnd|].
  apply fmap_sublist, sublist_filter.
Qed.

Lemma sceneRemoveAll_perm T : ∀ A g,
  sceneLines g ≡ₚ A ++ T → NoDup (lineId <$> sceneLines g) →
  sceneLines (sceneRemoveAll T g) ≡ₚ A ∧
  NoDup (lineId <$> sceneLines (sceneRemoveAll T g)) ∧
  (∀ l, l ∈ sceneLines (sceneRemoveAll T g) → l ∈ sceneLines g).
Proof.
  induction T as [|t T IH]; intros A g Hp Hnd.
  - rewrite app_nil_r in Hp. done.
  - cbn [sceneRemoveAll foldl].
    destruct (IH A (sceneRemove t g)) as (H1 & H2 & H3).
    + cbn. by apply remove_line_perm.
    + cbn. by apply filter_ids_NoDup.
    + split; [done|]. split; [done|].
      intros l Hl. specialize (H3 l Hl). cbn in H3.
      by apply list_elem_of_filter in H3 as [_ ?].
Qed.

Lemma removeCurrentLine_scene g :
  sceneLines (removeCurrentLine g)
  = match currentLine g with
    | Some c => filter (λ l', lineId l' ≠ lineId c) (sceneLines g)
    | None => sceneLines g
    end.
Proof. unfold removeCurrentLine. by destruct (currentLine g). Qed.

(** Without the dynamic line: the scene after [removeCurrentLine]. *)
Lemma removeCurrentLine_perm g :
  sceneLines g ≡ₚ trackedLines g → NoDup (lineId <$> sceneLines g) →
  sceneLines (removeCurrentLine g) ≡ₚ permanentLines g ++ _tempLinesThisClick g ∧
  NoDup (lineId <$> sceneLines (removeCurrentLine g)) ∧
  (∀ l, l ∈ sceneLines (removeCurrentLine g) → l ∈ sceneLines g).
Proof.
  intros Hp Hnd. rewrite removeCurrentLine_scene. unfold trackedLines in Hp.
  destruct (currentLine g) as [c|]; cbn [option_list] in Hp.
  - split; [|split].
    + rewrite <- (app_nil_r (permanentLines g ++ _tempLinesThisClick g)).
      apply remove_line_perm; [|done]. by rewrite <- app_assoc.
    + by apply filter_ids_NoDup.
    + intros l Hl. by apply list_elem_of_filter in Hl as [_ ?].
  - rewrite app_nil_r in Hp. done.
Qed.

Lemma click_free_permanentLines : click_free permanentLines.
Proof. by repeat split. Qed.

Lemma dropCurrentClick_lines g :
  let g' := _dropCurrentClick g in
  permanentLines g' = permanentLines g ∧
  _tempLinesThisClick g' = [] ∧ currentLine g' = None ∧
  sceneLines g' = sceneLines (sceneRemoveAll (_tempLinesThisClick g) (removeCurrentLine g)) ∧
  nextLine g' = nextLine g ∧ dragging g' = dragging g.
Proof.
  destruct (dropCurrentClick_clears g) as (C1 & _ & _ & _ & C5). cbn zeta in *.
  split; [apply dropCurrentClick_keeps, click_free_permanentLines|].
  split; [done|]. split; [done|].
  split; [|split; [|apply dropCurrentClick_keeps, click_free_dragging]].
  2:{ unfold _dropCurrentClick. cbn zeta.
      cbn [nextLine set_currentPath set_edgesThisClick set_starsLinked].
      rewrite (foldl_updateStar_keeps nextLine) by done.
      cbn [nextLine set_tempLines].
      rewrite (sceneRemoveAll_keeps nextLine) by done.
      cbn [nextLine set_currentLine]. by rewrite (removeCurrentLine_keeps nextLine). }
  unfold _dropCurrentClick. cbn zeta.
  cbn [sceneLines set_currentPath set_edgesThisClick set_starsLinked].
  rewrite (foldl_updateStar_keeps sceneLines) by done.
  cbn [sceneLines set_tempLines _tempLinesThisClick set_currentLine].
  rewrite (removeCurrentLine_keeps _tempLinesThisClick) by done.
  assert (∀ T g0, sceneLines (sceneRemoveAll T (set_currentLine None g0))
                  = sceneLines (sceneRemoveAll T g0)) as H.
  { induction T as [|t T IH]; intros g0; [done|]. cbn [sceneRemoveAll foldl].
    exact (IH (sceneRemove t g0)). }
  apply H.
Qed.

Lemma commitTempLines_lines g :
  let g' := _commitTempLines g in
  permanentLines g' = permanentLines g ++ _tempLinesThisClick g ∧
  _tempLinesThisClick g' = [] ∧ currentLine g' = None ∧
  sceneLines g' = sceneLines (removeCurrentLine g) ∧
  nextLine g' = nextLine g ∧ dragging g' = dragging g.
Proof.
  unfold _commitTempLines. cbn zeta.
  set (g1 := set_permanentLines _ g).
  set (g2 := if creationMode g1 then _ else g1).
  assert (permanentLines g2 = permanentLines g ++ _tempLinesThisClick g ∧
          currentLine g2 = currentLine g ∧ sceneLines g2 = sceneLines g ∧
          nextLine g2 = nextLine g ∧ dragging g2 = dragging g) as (P2 & C2 & S2 & N2 & D2).
  { unfold g2. by destruct (creationMode g1). }
  set (g3 := set_matchedEdges _ g2).
  set (g4 := foldl _ g3 _).
  assert (∀ {B} (proj : Game → B),
            (∀ v g, proj (set_stars v g) = proj g) → proj g4 = proj g3) as Hkeep.
  { intros B proj Hp. unfold g4. by apply foldl_updateStar_keeps. }
  set (g5 := set_starsLinked [] _).
  assert (permanentLines g5 = permanentLines g ++ _tempLinesThisClick g ∧
          currentLine g5 = currentLine g ∧ sceneLines g5 = sceneLines g ∧
          nextLine g5 = nextLine g ∧ dragging g5 = dragging g ∧
          _tempLinesThisClick g5 = []) as (P5 & C5 & S5 & N5 & D5 & T5).
  { unfold g5. cbn [permanentLines currentLine sceneLines nextLine dragging
      _tempLinesThisClick set_starsLinked set_edgesThisClick set_tempLines].
    rewrite (Hkeep _ permanentLines), (Hkeep _ currentLine), (Hkeep _ sceneLines),
      (Hkeep _ nextLine), (Hkeep _ dragging) by done.
    done. }
  rewrite !checkCompletion_keeps by done.
  cbn [permanentLines _tempLinesThisClick currentLine sceneLines nextLine dragging
       set_currentPath set_currentLine].
  rewrite (removeCurrentLine_keeps permanentLines), (removeCurrentLine_keeps nextLine),
    (removeCurrentLine_keeps dragging), (removeCurrentLine_keeps _tempLinesThisClick) by done.
  rewrite !removeCurrentLine_scene, C5, S5.
  done.
Qed.

Lemma scene_exact_drop g :
  scene_exact g → scene_tracked (_dropCurrentClick g).
Proof.
  intros (Hp & Hnd & Hb).
  destruct (dropCurrentClick_lines g) as (E1 & E2 & E3 & E4 & E5 & E6). cbn zeta in *.
  destruct (removeCurrentLine_perm g Hp Hnd) as (R1 & R2 & R3).
  destruct (sceneRemoveAll_perm (_tempLinesThisClick g) (permanentLines g)
              (removeCurrentLine g) R1 R2) as (S1 & S2 & S3).
  split; [|done]. unfold scene_exact, trackedLines.
  rewrite E1, E2, E3, E4, E5. cbn [option_list]. rewrite !app_nil_r.
  split; [done|]. split; [done|]. intros l Hl. by apply Hb, R3, S3.
Qed.

Lemma scene_exact_commit g :
  scene_exact g → scene_tracked (_commitTempLines g).
Proof.
  intros (Hp & Hnd & Hb).
  destruct (commitTempLines_lines g) as (E1 & E2 & E3 & E4 & E5 & E6). cbn zeta in *.
  destruct (removeCurrentLine_perm g Hp Hnd) as (R1 & R2 & R3).
  split; [|done]. unfold scene_exact, trackedLines.
  rewrite E1, E2, E3, E4, E5. cbn [option_list]. rewrite !app_nil_r.
  split; [done|]. split; [done|]. intros l Hl. by apply Hb, R3.
Qed.

Lemma scene_exact_set_dragging b g : scene_exact g → scene_exact (set_dragging b g).
Proof. done. Qed.

Lemma onPointerUp_scene_tracked g :
  scene_tracked g → scene_tracked (state_of (_onPointerUp g)).
Proof.
  intros Hg. unfold _onPointerUp. destruct (dragging g) eqn:Hd; cbn [negb]; [|done].
  destruct Hg as [He _]. cbn [state_of].
  destruct (existsb _ _).
  - by apply scene_exact_drop, scene_exact_set_dragging.
  - by apply scene_exact_commit, scene_exact_set_dragging.
Qed.

Lemma load_scene_tracked sample g : scene_tracked g → scene_tracked (load sample g).
Proof. done. Qed.

Lemma clearAllLines_scene_tracked g :
  scene_tracked g → scene_tracked (_clearAllLines g).
Proof.
  intros ((Hp & Hnd & Hb) & Hidle).
  unfold _clearAllLines. cbn zeta.
  unfold scene_tracked, scene_exact, trackedLines.
  cbn [sceneLines permanentLines _tempLinesThisClick currentLine nextLine dragging
       set_stars set_permanentLines].
  rewrite !(sceneRemoveAll_keeps _tempLinesThisClick), !(sceneRemoveAll_keeps currentLine),
    (sceneRemoveAll_keeps nextLine), (sceneRemoveAll_keeps dragging) by done.
  destruct (sceneRemoveAll_perm (permanentLines g)
              (_tempLinesThisClick g ++ option_list (currentLine g)) g) as (S1 & S2 & S3).
  { rewrite Hp. unfold trackedLines. by rewrite (comm (++)). }
  { done. }
  cbn [app]. split; [|done]. split; [done|]. split; [done|].
  intros l Hl. by apply Hb, S3.
Qed.

Lemma add_fresh_line (L : list Line) l n :
  NoDup (lineId <$> L) → (∀ x, x ∈ L → lineId x < n) → lineId l = n →
  NoDup (lineId <$> (L ++ [l])) ∧ (∀ x, x ∈ L ++ [l] → lineId x < S n).
Proof.
  intros Hnd Hb Hl. split.
  - rewrite fmap_app. apply NoDup_app. split; [done|]. split; [|apply NoDup_singleton].
    intros i Hi Hi'. apply list_elem_of_fmap in Hi as (x & -> & Hx).
    apply list_elem_of_singleton in Hi'. specialize (Hb x Hx). cbn in Hi'. lia.
  - intros x Hx. apply elem_of_app in Hx as [Hx|Hx]; [specialize (Hb x Hx); lia|].
    apply list_elem_of_singleton in Hx as ->. lia.
Qed.

Lemma markLinkedTemp_lines {B} (proj : Game → B) idx g :
  (∀ v g, proj (set_stars v g) = proj g) →
  (∀ v g, proj (set_starsLinked v g) = proj g) →
  proj (markLinkedTemp idx g) = proj g.
Proof.
  intros Hst Hsl. unfold markLinkedTemp.
  destruct (stars g !! idx) as [s|]; [|done].
  destruct (_linkedTemp s); [done|].
  unfold updateStar. by rewrite Hsl, Hst.
Qed.

Lemma createDynamicLine_scene_exact idx g :
  scene_exact g → currentLine g = None →
  scene_exact (_createDynamicLine idx g).
Proof.
  intros (Hp & Hnd & Hb) Hc. unfold _createDynamicLine, newLine, scene_exact, trackedLines.
  cbn. unfold trackedLines in Hp. rewrite Hc in Hp. cbn [option_list] in Hp.
  rewrite app_nil_r in Hp.
  destruct (add_fresh_line (sceneLines g) (mkLine (nextLine g) idx idx) (nextLine g))
    as [H1 H2]; [done|done|done|].
  split; [|done]. rewrite Hp. by rewrite <- app_assoc.
Qed.

Lemma onPointerDown_scene_tracked hits g :
  scene_tracked g → dragging g = false →
  scene_tracked (state_of (_onPointerDown hits g)).
Proof.
  intros Hg Hd. pose proof Hg as [He Hidle]. destruct (Hidle Hd) as [Ht Hc].
  unfold _onPointerDown. destruct hits as [|hit _]; [done|].
  destruct (findIndex g hit) as [idx|]; [|done].
  set (g2 := set_starsLinked [] _).
  assert (scene_exact g2) as He2.
  { destruct He as (Hp & Hnd & Hb). unfold scene_exact, trackedLines in *.
    cbn. by rewrite Ht in Hp. }
  assert (scene_exact (_createDynamicLine idx g2)) as He3
    by (by apply createDynamicLine_scene_exact).
  assert (dragging (_createDynamicLine idx g2) = true) as Hd3 by done.
  destruct (stars (_createDynamicLine idx g2) !! idx) as [s|]; cbn [state_of].
  - destruct (shooting s); [by apply scene_exact_drop|].
    split; [done|]. by rewrite Hd3.
  - split; [done|]. by rewrite Hd3.
Qed.

Lemma finalize_scene_exact a b g :
  scene_exact g → scene_exact (state_of (_finalizeSegmentAndStartNew a b g)).
Proof.
  intros He. pose proof He as (Hp & Hnd & Hb).
  unfold _finalizeSegmentAndStartNew.
  destruct a as [a|]; [|done].
  destruct (stars g !! a); [|done]. destruct (stars g !! b); [|done].
  cbn [state_of newLine]. cbn zeta.
  set (line := mkLine (nextLine g) a b).
  set (g2 := set_tempLines _ _).
  set (g3 := set_edgesThisClick _ g2).
  set (g4 := markLinkedTemp b (markLinkedTemp a g3)).
  assert (∀ {B} (proj : Game → B),
            (∀ v g, proj (set_stars v g) = proj g) →
            (∀ v g, proj (set_starsLinked v g) = proj g) → proj g4 = proj g3) as Hkeep.
  { intros B proj H1 H2. unfold g4. by rewrite !markLinkedTemp_lines. }
  assert (sceneLines g4 = sceneLines g ++ [line] ∧ currentLine g4 = currentLine g ∧
          permanentLines g4 = permanentLines g ∧
          _tempLinesThisClick g4 = _tempLinesThisClick g ++ [line] ∧
          nextLine g4 = S (nextLine g)) as (S4 & C4 & P4 & T4 & N4).
  { rewrite (Hkeep _ sceneLines), (Hkeep _ currentLine), (Hkeep _ permanentLines),
      (Hkeep _ _tempLinesThisClick), (Hkeep _ nextLine) by done. done. }
  set (dyn := mkLine (nextLine (removeCurrentLine g4)) b b).
  assert (nextLine (removeCurrentLine g4) = S (nextLine g)) as N5
    by (by rewrite (removeCurrentLine_keeps nextLine)).
  destruct (add_fresh_line (sceneLines g) line (nextLine g) Hnd Hb eq_refl) as [Hnd1 Hb1].
  assert (sceneLines (removeCurrentLine g4)
            ≡ₚ permanentLines g ++ _tempLinesThisClick g ++ [line]) as Hp5.
  { rewrite removeCurrentLine_scene, C4, S4. unfold trackedLines in Hp.
    destruct (currentLine g) as [c|]; cbn [option_list] in Hp.
    - rewrite app_assoc. apply remove_line_perm; [|done].
      rewrite Hp, <- !app_assoc. done.
    - rewrite app_nil_r in Hp. rewrite Hp, <- app_assoc. reflexivity. }
  assert (NoDup (lineId <$> sceneLines (removeCurrentLine g4)) ∧
          ∀ x, x ∈ sceneLines (removeCurrentLine g4) → lineId x < S (nextLine g))
    as [Hnd5 Hb5].
  { rewrite removeCurrentLine_scene, C4, S4.
    destruct (currentLine g) as [c|]; [|done].
    split; [by apply filter_ids_NoDup|].
    intros x Hx. apply list_elem_of_filter in Hx as [_ Hx]. by apply Hb1. }
  destruct (add_fresh_line (sceneLines (removeCurrentLine g4)) dyn (S (nextLine g))
              Hnd5 Hb5) as [Hnd6 Hb6]; [by rewrite <- N5|].
  unfold scene_exact, trackedLines.
  cbn [sceneLines permanentLines _tempLinesThisClick currentLine nextLine
       set_currentPath set_currentLine sceneAdd set_sceneLines set_nextLine option_list].
  rewrite (removeCurrentLine_keeps permanentLines),
    (removeCurrentLine_keeps _tempLinesThisClick) by done.
  rewrite P4, T4, N5. split; [|done].
  rewrite Hp5. by rewrite <- !app_assoc.
Qed.

Lemma passThrough_scene_exact hits g :
  scene_exact g → scene_exact (state_of (passThrough hits g)).
Proof.
  intros He. induction hits as [|hit hits IH]; cbn [passThrough]; [done|].
  destruct (findIndex g hit); [|done].
  case_bool_decide; [done|]. by apply finalize_scene_exact.
Qed.

Lemma onPointerMove_scene_tracked hits g :
  scene_tracked g → scene_tracked (state_of (_onPointerMove hits g)).
Proof.
  intros [He Hidle]. unfold _onPointerMove.
  destruct (dragging g) eqn:Hd; cbn [negb state_of];
    [|split; [done|intros _; by apply Hidle]].
  split; [by apply passThrough_scene_exact|].
  rewrite (passThrough_keeps dragging) by apply click_free_dragging.
  by rewrite Hd.
Qed.

Lemma step_scene_tracked g ev :
  scene_tracked g → (∀ hits, ev = PointerDown hits → dragging g = false) →
  scene_tracked (step g ev).
Proof.
  intros Hg Hpress. destruct ev as [sample|hits|hits| |]; cbn [step].
  - by apply load_scene_tracked.
  - apply onPointerDown_scene_tracked; [done|]. by apply (Hpress hits).
  - by apply onPointerMove_scene_tracked.
  - by apply onPointerUp_scene_tracked.
  - by apply clearAllLines_scene_tracked.
Qed.

Lemma newGame_scene_tracked : scene_tracked newGame.
Proof.
  split; [|done]. split; [done|]. split; [apply NoDup_nil_2|].
  intros l Hl. by apply elem_of_nil in Hl.
Qed.

Lemma run_scene_tracked evs : ∀ g,
  scene_tracked g → pressesWhenIdle g evs → scene_tracked (run g evs).
Proof.
  induction evs as [|ev evs IH]; intros g Hg Hp; [done|].
  destruct Hp as [Hev Hp]. cbn [run foldl]. apply IH; [|done].
  apply step_scene_tracked; [done|]. by intros hits ->.
Qed.

(** Property X25: the scene holds exactly the lines the game refers to (the
    committed lines, those of the gesture in flight and the dynamic line),
    each once, as long as no press arrives during a drag; between gestures
    it holds the committed lines only.  A press during a drag breaks this:
    the lines of the interrupted gesture stay in the scene for good, and
    neither the release nor the Show button removes them. *)
Theorem scene_holds_tracked_lines :
  scene_tracked newGame ∧
  (∀ g ev, scene_tracked g →
     (∀ hits, ev = PointerDown hits → dragging g = false) →
     scene_tracked (step g ev)) ∧
  (∀ evs, pressesWhenIdle newGame evs →
     scene_tracked (run newGame evs) ∧
     (dragging (run newGame evs) = false →
      sceneLines (run newGame evs) ≡ₚ permanentLines (run newGame evs))) ∧
  (let g := run newGame [Load scenarioSample; PointerDown [0]; PointerMove [1];
                         PointerDown [2]; PointerUp; ShowClicked] in
   sceneLines g = [mkLine 1 0 1; mkLine 2 1 1] ∧ trackedLines g = [] ∧
   dragging g = false).
Proof.
  split; [exact newGame_scene_tracked|]. split; [exact step_scene_tracked|].
  split; [|by vm_compute].
  intros evs Hp.
  pose proof (run_scene_tracked evs newGame newGame_scene_tracked Hp) as Hg.
  split; [done|]. intros Hd. destruct Hg as [(Hperm & _) Hidle].
  destruct (Hidle Hd) as [Ht Hc]. unfold trackedLines in Hperm.
  rewrite Ht, Hc in Hperm. cbn [option_list app] in Hperm. by rewrite app_nil_r in Hperm.
Qed.

End ConstellationFacts.

(** ** The helix motion model *)

Module HelixFacts.

Import Helix.

Local Open Scope R_scope.


(** *** Rounding *)

Lemma round_bounds x : IZR (round x) - / 2 <= x < IZR (round x) + / 2.
Proof.
  unfold round. destruct (base_Int_part (x + / 2)) as [H1 H2]. lra.
Qed.

Lemma round_unique x (k : Z) : IZR k - / 2 <= x < IZR k + / 2 → round x = k.
Proof.
  intros H. unfold round. symmetry. apply Int_part_spec. lra.
Qed.

Lemma round_IZR (k : Z) : round (IZR k) = k.
Proof. apply round_unique. lra. Qed.

(** *** Distances *)

Lemma hypot_nonneg a b : 0 <= hypot a b.
Proof. apply sqrt_pos. Qed.


(** *** The radial band *)

Lemma rClamped_band h r :
  0 <= thickness h → rMin h <= rClamped h r <= rMax h.
Proof.
  intros Ht. unfold rClamped, rMin, rMax, Rmin, Rmax.
  repeat destruct (Rle_dec _ _); lra.
Qed.


Lemma rClamped_idem h r :
  rMin h <= r <= rMax h → rClamped h r = r.
Proof.
  intros Hr. unfold rClamped, Rmin, Rmax.
  repeat destruct (Rle_dec _ _); lra.
Qed.



(** *** What the steps leave alone *)




Lemma wrapCamera_xz refY now w :
  vx (camera (wrapCamera refY now w)) = vx (camera w) ∧
  vz (camera (wrapCamera refY now w)) = vz (camera w).
Proof. done. Qed.

Lemma wrapCamera_band refY now w :
  let h' := helix (wrapCamera refY now w) in
  centerX h' = centerX (helix w) ∧ centerZ h' = centerZ (helix w) ∧
  radius h' = radius (helix w) ∧ thickness h' = thickness (helix w).
Proof. done. Qed.








(** *** The wrap *)

Lemma two_PI_pos : 0 < 2 * PI.
Proof. pose proof PI_RGT_0. lra. Qed.

Lemma branchNear_close near wrapped :
  - PI < branchNear near wrapped - near <= PI.
Proof.
  unfold branchNear. pose proof two_PI_pos as Hpi.
  destruct (round_bounds ((near - wrapped) / (2 * PI))) as [H1 H2].
  set (k := IZR (round ((near - wrapped) / (2 * PI)))) in *.
  assert ((near - wrapped) / (2 * PI) * (2 * PI) = near - wrapped) as Heq
    by (field; lra).
  assert ((k - / 2) * (2 * PI) <= (near - wrapped) / (2 * PI) * (2 * PI)) as H1'
    by (apply Rmult_le_compat_r; lra).
  assert ((near - wrapped) / (2 * PI) * (2 * PI) < (k + / 2) * (2 * PI)) as H2'
    by (apply Rmult_lt_compat_r; lra).
  rewrite Heq in H1', H2'. lra.
Qed.

Lemma sign_cases h : sign h = -1 ∨ sign h = 1.
Proof. unfold sign. destruct (inverted h); auto. Qed.

(** The height the helix gives the angle solved from a height is that
    height again. *)
Lemma helixY_desired h y :
  pitch h ≠ 0 →
  helixY h (((y - baseY h - offsetY h) * 2 * PI) / (sign h * pitch h)) = y.
Proof.
  intros Hp. unfold helixY. pose proof two_PI_pos.
  destruct (sign_cases h) as [-> | ->]; field; split; lra.
Qed.

Lemma helixY_diff h t1 t2 :
  helixY h t1 - helixY h t2 = sign h * ((t1 - t2) / (2 * PI)) * pitch h.
Proof. unfold helixY. pose proof two_PI_pos. field. lra. Qed.



Lemma branchNear_exact near wrapped (k : Z) :
  near - wrapped = IZR k * (2 * PI) → branchNear near wrapped = near.
Proof.
  intros Hk. unfold branchNear. pose proof two_PI_pos.
  replace ((near - wrapped) / (2 * PI)) with (IZR k) by (rewrite Hk; field; lra).
  rewrite round_IZR. lra.
Qed.

Lemma constrain_wraps now now' w refY :
  wrapFires now now' w refY →
  constrainCameraToHelix now now' w = wrapCamera refY now' w.
Proof.
  intros (Hm & He & Harmed & Hout & Hcool).
  unfold constrainCameraToHelix. rewrite Hm, He, Harmed. simpl.
  rewrite (bool_decide_eq_true_2 _ Hout), (bool_decide_eq_false_2 _ Hcool). done.
Qed.

Lemma wrapCamera_y refY now w :
  vy (camera (wrapCamera refY now w))
  = helixY (helix (wrapCamera refY now w)) (lastTheta (helix (wrapCamera refY now w))).
Proof. done. Qed.

Lemma wrapCamera_lastTheta refY now w :
  lastTheta (helix (wrapCamera refY now w))
  = lastTheta (helix (initHelixLastThetaFromCamera
       (set_camera (mkVector3 (vx (camera w)) (translatedY refY w) (vz (camera w))) w))).
Proof. done. Qed.






(** *** Angles *)

Lemma sin_cos_period_Z t (n : Z) :
  sin (t + IZR n * (2 * PI)) = sin t ∧ cos (t + IZR n * (2 * PI)) = cos t.
Proof.
  destruct (Z_le_gt_dec 0 n) as [Hn|Hn].
  - rewrite <- (Z2Nat.id n) by lia. rewrite <- INR_IZR_INZ.
    replace (t + INR (Z.to_nat n) * (2 * PI)) with (t + 2 * INR (Z.to_nat n) * PI) by ring.
    split; [apply sin_period|apply cos_period].
  - set (m := Z.to_nat (- n)).
    assert (IZR n = - INR m) as ->.
    { unfold m. rewrite INR_IZR_INZ, Z2Nat.id by lia. rewrite opp_IZR. ring. }
    rewrite <- (sin_period (t + - INR m * (2 * PI)) m).
    rewrite <- (cos_period (t + - INR m * (2 * PI)) m).
    replace (t + - INR m * (2 * PI) + 2 * INR m * PI) with t by ring. done.
Qed.

(** Every angle is an angle of [0, 2 PI) plus whole turns. *)
Lemma angle_reduce t :
  ∃ (n : Z) (phi : R), t = phi + IZR n * (2 * PI) ∧ 0 <= phi < 2 * PI.
Proof.
  pose proof two_PI_pos as Hpi.
  exists (Int_part (t / (2 * PI))), (t - IZR (Int_part (t / (2 * PI))) * (2 * PI)).
  split; [ring|].
  destruct (base_Int_part (t / (2 * PI))) as [H1 H2].
  set (k := IZR (Int_part (t / (2 * PI)))) in *.
  assert (t / (2 * PI) * (2 * PI) = t) as Heq by (field; lra).
  assert (k * (2 * PI) <= t / (2 * PI) * (2 * PI)) by (apply Rmult_le_compat_r; lra).
  assert (t / (2 * PI) * (2 * PI) < (k + 1) * (2 * PI)) by (apply Rmult_lt_compat_r; lra).
  lra.
Qed.

Lemma ratio_tan r phi psi :
  r ≠ 0 → cos phi ≠ 0 →
  (sin psi = sin phi ∧ cos psi = cos phi) ∨ (sin psi = - sin phi ∧ cos psi = - cos phi) →
  r * sin phi / (r * cos phi) = tan psi.
Proof.
  intros Hr Hc [[Hs Hc']|[Hs Hc']]; unfold tan; rewrite Hs, Hc'; field; lra.
Qed.

Lemma sin_cos_minus_PI phi :
  sin (phi - PI) = - sin phi ∧ cos (phi - PI) = - cos phi.
Proof.
  pose proof (neg_sin (phi - PI)) as Hs. pose proof (neg_cos (phi - PI)) as Hc.
  replace (phi - PI + PI) with phi in * by ring. lra.
Qed.

Lemma sin_cos_minus_2PI phi :
  sin (phi - 2 * PI) = sin phi ∧ cos (phi - 2 * PI) = cos phi.
Proof.
  destruct (sin_cos_period_Z phi (-1)) as [Hs Hc].
  replace (phi + -1 * (2 * PI)) with (phi - 2 * PI) in * by ring. done.
Qed.

(** The wrapped angle of a point given in polar form is its angle. *)
Lemma wrappedTheta_polar r phi :
  0 < r → 0 <= phi < 2 * PI →
  wrappedTheta (r * sin phi) (r * cos phi) = phi.
Proof.
  intros Hr [H0 H2]. pose proof PI_RGT_0 as Hpi.
  unfold wrappedTheta, atan2.
  destruct (Rtotal_order phi (PI / 2)) as [Hlt|[Heq|Hgt]].
  - (* first quadrant *)
    assert (0 < cos phi) as Hc by (apply cos_gt_0; lra).
    assert (0 < r * cos phi) as Hx by nra.
    destruct (decide (0 < r * cos phi)); [|done].
    rewrite (ratio_tan r phi phi) by (try lra; auto).
    rewrite atan_tan by lra.
    destruct (decide (phi < 0)); lra.
  - subst phi. rewrite cos_PI2, sin_PI2.
    replace (r * 0) with 0 by ring. replace (r * 1) with r by ring.
    destruct (decide (0 < 0)); [lra|].
    destruct (decide (0 < r)); [|done].
    destruct (decide (PI / 2 < 0)); lra.
  - destruct (Rtotal_order phi (3 * (PI / 2))) as [Hlt|[Heq|Hgt']].
    + (* second and third quadrants *)
      assert (cos phi < 0) as Hc by (apply cos_lt_0; lra).
      assert (r * cos phi < 0) as Hx by nra.
      destruct (decide (0 < r * cos phi)); [lra|].
      destruct (decide (r * cos phi < 0)); [|done].
      rewrite (ratio_tan r phi (phi - PI)) by (try lra; right; apply sin_cos_minus_PI).
      rewrite atan_tan by lra.
      destruct (Rle_or_lt phi PI) as [Hle|Hlt'].
      * assert (0 <= sin phi) by (apply sin_ge_0; lra).
        destruct (decide (0 <= r * sin phi)); [|nra].
        destruct (decide (phi - PI + PI < 0)); lra.
      * assert (sin phi < 0) by (apply sin_lt_0; lra).
        destruct (decide (0 <= r * sin phi)); [nra|].
        destruct (decide (phi - PI - PI < 0)); lra.
    + subst phi. rewrite cos_3PI2, sin_3PI2.
      replace (r * 0) with 0 by ring. replace (r * -1) with (- r) by ring.
      destruct (decide (0 < 0)); [lra|].
      destruct (decide (0 < - r)); [lra|].
      destruct (decide (- r < 0)); [|lra].
      destruct (decide (- (PI / 2) < 0)); lra.
    + (* fourth quadrant *)
      destruct (sin_cos_minus_2PI phi) as [Hs Hc'].
      assert (0 < cos phi) as Hc by (rewrite <- Hc'; apply cos_gt_0; lra).
      assert (0 < r * cos phi) as Hx by nra.
      destruct (decide (0 < r * cos phi)); [|done].
      rewrite (ratio_tan r phi (phi - 2 * PI)) by (try lra; left; done).
      rewrite atan_tan by lra.
      destruct (decide (phi - 2 * PI < 0)); lra.
Qed.

(** Claim C3.  For every angle [theta], of any number of revolutions in
    either direction, and every positive radial distance: place the
    camera by the helix mapping, take the wrapped angle of that position
    and choose the branch nearest to [theta]; the result is [theta]
    itself (over the reals), hence within 1e-6 of it; and it is what
    [moveToTarget] stores as [lastTheta] when it is aimed at that position
    with [lastTheta = theta]. *)
Theorem helix_round_trip h r theta :
  0 < r →
  thetaOfPosition h theta (helixPosition h r theta) = theta ∧
  Rabs (thetaOfPosition h theta (helixPosition h r theta) - theta) < 1 / 1000000 ∧
  (∀ w, helix w = h → lastTheta h = theta →
     lastTheta (helix (moveToTarget (vx (helixPosition h r theta))
                                    (vz (helixPosition h r theta)) w)) = theta).
Proof.
  intros Hr.
  assert (thetaOfPosition h theta (helixPosition h r theta) = theta) as Heq.
  { unfold thetaOfPosition, helixPosition. simpl.
    replace (centerZ h + r * sin theta - centerZ h) with (r * sin theta) by ring.
    replace (centerX h + r * cos theta - centerX h) with (r * cos theta) by ring.
    destruct (angle_reduce theta) as (n & phi & Ht & Hphi).
    destruct (sin_cos_period_Z phi n) as [Hs Hc]. rewrite <- Ht in Hs, Hc.
    rewrite Hs, Hc, wrappedTheta_polar by done.
    unfold branchNear. pose proof two_PI_pos.
    replace ((theta - phi) / (2 * PI)) with (IZR n) by (rewrite Ht; field; lra).
    unfold round. replace (Int_part (IZR n + / 2)) with n; [lra|].
    apply Int_part_spec. lra. }
  split; [done|]. split; [rewrite Heq, Rminus_diag, Rabs_R0; lra|].
  intros w Hw Hl. unfold moveToTarget. cbn [helix set_helix set_camera lastTheta set_lastTheta].
  rewrite Hw, Hl. exact Heq.
Qed.

(** Six and a half revolutions up, and as many down, at radius 2. *)
Lemma helix_round_trip_witness :
  0 < 2 ∧
  thetaOfPosition scenarioHelix (13 * PI) (helixPosition scenarioHelix 2 (13 * PI)) = 13 * PI ∧
  thetaOfPosition scenarioHelix (- 13 * PI) (helixPosition scenarioHelix 2 (- 13 * PI))
  = - 13 * PI.
Proof.
  assert (0 < 2) as H2 by lra.
  split; [exact H2|]. split.
  - exact (proj1 (helix_round_trip scenarioHelix 2 (13 * PI) H2)).
  - exact (proj1 (helix_round_trip scenarioHelix 2 (- 13 * PI) H2)).
Defined.

Lemma PI_bounds : 314 / 100 < PI < 315 / 100.
Proof.
  pose proof (PI_2_3_7_ineq 1) as [Hlo Hhi].
  unfold sum_f_R0, tg_alt, PI_2_3_7_tg, Ratan_seq in Hlo, Hhi.
  simpl in Hlo, Hhi.
  lra.
Qed.

(** The angle of the scenario's target point, [atan (0.05 / 2.1)]. *)
Lemma atan_scenario_bounds :
  238 / 10000 < atan ((5 / 100) / (21 / 10)) < 2385 / 100000.
Proof.
  pose proof PI_bounds as [Hpi1 Hpi2].
  split.
  - (* tan 0.0238 < 1/42 *)
    set (a := 238 / 10000).
    rewrite <- (atan_tan a) by (unfold a; lra).
    apply atan_increasing.
    assert (sin a < a) as Hs by (apply sin_lt_x; unfold a; lra).
    destruct (COS a) as [Hc _]; [unfold a; lra..|].
    unfold cos_lb, cos_approx, cos_term, sum_f_R0 in Hc. simpl in Hc.
    assert (9997 / 10000 <= cos a) as Hc' by (unfold a in *; lra).
    unfold tan.
    apply (Rmult_lt_reg_r (cos a)); [lra|].
    replace (sin a / cos a * cos a) with (sin a) by (field; lra).
    unfold a in *. lra.
  - set (b := 2385 / 100000).
    rewrite <- (atan_tan b) by (unfold b; lra).
    apply atan_increasing.
    destruct (SIN b) as [Hs _]; [unfold b; lra..|].
    unfold sin_lb, sin_approx, sin_term, sum_f_R0 in Hs. simpl in Hs.
    assert (2384 / 100000 <= sin b) as Hs' by (unfold b in *; lra).
    assert (0 < cos b) as Hc by (apply cos_gt_0; unfold b; lra).
    pose proof (COS_bound b) as [_ Hc1].
    unfold tan.
    apply (Rmult_lt_reg_r (cos b)); [lra|].
    replace (sin b / cos b * cos b) with (sin b) by (field; lra).
    unfold b in *. nra.
Qed.


Lemma hypot_scenario_bounds :
  21005 / 10000 < hypot (21 / 10 - 0) (5 / 100 - 0) < 21006 / 10000.
Proof.
  unfold hypot.
  set (x := (21 / 10 - 0) * (21 / 10 - 0) + (5 / 100 - 0) * (5 / 100 - 0)).
  assert (x = 44125 / 10000) as Hx by (unfold x; lra).
  pose proof (sqrt_pos x) as Hpos.
  pose proof (sqrt_sqrt x ltac:(lra)) as Hsq.
  rewrite Hx in Hsq at 3. clear Hx. nra.
Qed.

Lemma wrappedTheta_scenario :
  wrappedTheta (5 / 100 - 0) (21 / 10 - 0) = atan ((5 / 100) / (21 / 10)).
Proof.
  pose proof atan_scenario_bounds as [Hlo Hhi].
  unfold wrappedTheta, atan2.
  replace (5 / 100 - 0) with (5 / 100) by ring.
  replace (21 / 10 - 0) with (21 / 10) by ring.
  destruct (decide (0 < 21 / 10)); [|lra].
  destruct (decide (atan (5 / 100 / (21 / 10)) < 0)); [lra|done].
Qed.

(** *** The angles of a point *)

Lemma hypot_pos x y : x ≠ 0 → 0 < hypot x y.
Proof.
  intros Hx. unfold hypot. apply sqrt_lt_R0. nra.
Qed.

Lemma sqrt_one_plus_ratio x y :
  x ≠ 0 → sqrt (1 + (y / x)²) = hypot x y / Rabs x.
Proof.
  intros Hx. unfold hypot.
  replace (1 + (y / x)²) with ((x * x + y * y) / (x * x)).
  - rewrite sqrt_div; [|nra|nra].
    f_equal. rewrite <- (sqrt_Rsqr_abs x). done.
  - unfold Rsqr. field. done.
Qed.

Lemma atan_polar x y :
  x ≠ 0 →
  hypot x y * cos (atan (y / x)) = Rabs x ∧
  hypot x y * sin (atan (y / x)) = y * (Rabs x / x).
Proof.
  intros Hx. rewrite cos_atan, sin_atan, sqrt_one_plus_ratio by done.
  pose proof (hypot_pos x y Hx) as Hr.
  assert (Rabs x ≠ 0) as Ha by (by apply Rabs_no_R0).
  split; field; lra.
Qed.

Lemma atan2_polar x y :
  hypot x y * cos (atan2 y x) = x ∧ hypot x y * sin (atan2 y x) = y.
Proof.
  unfold atan2.
  destruct (decide (0 < x)) as [Hx|Hx].
  { destruct (atan_polar x y) as [Hc Hs]; [lra|].
    rewrite Hc, Hs, Rabs_right by lra. split; [done|]. field. lra. }
  destruct (decide (x < 0)) as [Hx'|Hx'].
  { destruct (atan_polar x y) as [Hc Hs]; [lra|].
    rewrite Rabs_left in Hc, Hs by done.
    assert (y * (- x / x) = - y) as E by (field; lra). rewrite E in Hs.
    destruct (decide (0 <= y)).
    - rewrite neg_cos, neg_sin. split; lra.
    - destruct (sin_cos_minus_PI (atan (y / x))) as [-> ->]. split; lra. }
  assert (x = 0) as -> by lra.
  assert (hypot 0 y = Rabs y) as ->.
  { unfold hypot. replace (0 * 0 + y * y) with (y²) by (unfold Rsqr; lra).
    apply sqrt_Rsqr_abs. }
  destruct (decide (0 < y)).
  { rewrite cos_PI2, sin_PI2, Rabs_right by lra. lra. }
  destruct (decide (y < 0)).
  { rewrite cos_neg, sin_neg, cos_PI2, sin_PI2, Rabs_left by lra. lra. }
  assert (y = 0) as -> by lra. rewrite Rabs_R0. lra.
Qed.

Lemma wrappedTheta_points x y :
  hypot x y * cos (wrappedTheta y x) = x ∧ hypot x y * sin (wrappedTheta y x) = y.
Proof.
  unfold wrappedTheta. cbn zeta. case_decide; [|apply atan2_polar].
  replace (atan2 y x + PI * 2) with (atan2 y x + IZR 1 * (2 * PI)) by lra.
  destruct (sin_cos_period_Z (atan2 y x) 1) as [-> ->]. apply atan2_polar.
Qed.

Lemma branchNear_points near x y :
  hypot x y * cos (branchNear near (wrappedTheta y x)) = x ∧
  hypot x y * sin (branchNear near (wrappedTheta y x)) = y.
Proof.
  unfold branchNear. cbn zeta.
  destruct (sin_cos_period_Z (wrappedTheta y x)
              (round ((near - wrappedTheta y x) / (2 * PI)))) as [-> ->].
  apply wrappedTheta_points.
Qed.

(** *** The branch selected by continuity *)

Lemma atan2_range y x : - PI < atan2 y x <= PI.
Proof.
  pose proof PI_RGT_0 as Hpi. unfold atan2.
  pose proof (atan_bound (y / x)) as [Hlo Hhi].
  destruct (decide (0 < x)) as [Hx|Hx]; [lra|].
  destruct (decide (x < 0)) as [Hx'|Hx'].
  - assert (/ x < 0) as Hinv by (by apply Rinv_lt_0_compat).
    destruct (decide (0 <= y)) as [Hy|Hy].
    + assert (atan (y / x) <= 0) as Hneg.
      { destruct (Req_dec y 0) as [->|Hy0].
        - unfold Rdiv. rewrite Rmult_0_l, atan_0. lra.
        - left. rewrite <- atan_0. apply atan_increasing. unfold Rdiv. nra. }
      lra.
    + assert (0 < atan (y / x)) as Hpos.
      { rewrite <- atan_0. apply atan_increasing. unfold Rdiv. nra. }
      lra.
  - repeat case_decide; lra.
Qed.

Lemma wrappedTheta_range y x : 0 <= wrappedTheta y x < 2 * PI.
Proof.
  pose proof (atan2_range y x) as [Hlo Hhi]. pose proof PI_RGT_0 as Hpi.
  unfold wrappedTheta. cbn zeta. case_decide; lra.
Qed.

Lemma branchNear_turns near wrapped :
  ∃ k : Z, branchNear near wrapped = wrapped + IZR k * (2 * PI).
Proof. by eexists. Qed.

(** The branch is the only angle of the point within half a turn of
    [near]. *)
Lemma branchNear_unique near r t :
  0 < r → - PI < t - near <= PI →
  branchNear near (wrappedTheta (r * sin t) (r * cos t)) = t.
Proof.
  intros Hr Ht. pose proof PI_RGT_0 as Hpi.
  destruct (angle_reduce t) as (n & phi & Heq & Hphi).
  destruct (sin_cos_period_Z phi n) as [Hs Hc].
  rewrite Heq at 1 2. rewrite Hs, Hc, wrappedTheta_polar by done.
  unfold branchNear. cbn zeta.
  rewrite (round_unique _ n); [lra|].
  assert ((near - phi) / (2 * PI) = IZR n + (near - t) / (2 * PI)) as ->.
  { rewrite Heq. field. lra. }
  assert (- / 2 <= (near - t) / (2 * PI) < / 2) as [H1 H2].
  { split.
    - apply (Rmult_le_reg_r (2 * PI)); [lra|].
      unfold Rdiv. rewrite Rmult_assoc, Rinv_l by lra. lra.
    - apply (Rmult_lt_reg_r (2 * PI)); [lra|].
      unfold Rdiv. rewrite Rmult_assoc, Rinv_l by lra. lra. }
  lra.
Qed.

(** Claim C1.  In helix mode with a movement intent, the first half of
    [updateMovement] takes the target point (camera X, Z plus the
    horizontal movement vector) and stores as [lastTheta] the angle theta
    that is selected by continuity: theta is an angle of the target point
    seen from the axis, a whole number of turns from the wrapped angle in
    [0, 2 PI), and lies within half a turn of the previous [lastTheta],
    theta - lastTheta in (-PI, PI]; off the axis it is the only such
    angle.  With rc the target's radial distance clamped into the band,
    the camera is put at center + rc (cos theta, sin theta) with
    y = baseY + sign (theta / 2 PI) pitch + offsetY, sign -1 when inverted.
    In the scenario (center (0,0), radius 2, thickness 0.6, pitch 2,
    inverted, baseY 10, offsetY 0, lastTheta 0, target (2.1, 0.05)) theta
    is the wrapped angle itself and lies in (0.0238, 0.02385), the radial
    distance lies in (2.1005, 2.1006) and is not clamped, and y lies in
    (9.9924, 9.99245).  In the same scenario two turns further,
    lastTheta = 4 PI, theta is the wrapped angle plus two turns and y lies
    in (5.9924, 5.99245). *)
Theorem helix_move_mapping :
  (∀ speed dt keys camDir camRight w,
     enabled (helix w) = true →
     (axis (KeyW keys) (KeyS keys) ≠ 0 ∨ axis (KeyD keys) (KeyA keys) ≠ 0)%Z →
     let h := helix w in
     let mv := horizontalMove camDir (axis (KeyW keys) (KeyS keys))
                 (axis (KeyD keys) (KeyA keys)) speed dt in
     let targetX := vx (camera w) + vx mv in
     let targetZ := vz (camera w) + vz mv in
     let rTarget := hypot (targetX - centerX h) (targetZ - centerZ h) in
     let rc := Rmin (Rmax rTarget (radius h - thickness h / 2))
                    (radius h + thickness h / 2) in
     let w' := horizontalInput speed dt keys camDir camRight w in
     let theta := lastTheta (helix w') in
     (rTarget * cos theta = targetX - centerX h ∧
      rTarget * sin theta = targetZ - centerZ h) ∧
     (∃ k : Z,
        theta = wrappedTheta (targetZ - centerZ h) (targetX - centerX h) + IZR k * (2 * PI)) ∧
     0 <= wrappedTheta (targetZ - centerZ h) (targetX - centerX h) < 2 * PI ∧
     - PI < theta - lastTheta h <= PI ∧
     (0 < rTarget →
      ∀ t, - PI < t - lastTheta h <= PI →
           rTarget * cos t = targetX - centerX h →
           rTarget * sin t = targetZ - centerZ h → t = theta) ∧
     vx (camera w') = centerX h + rc * cos theta ∧
     vz (camera w') = centerZ h + rc * sin theta ∧
     vy (camera w') = baseY h + (if inverted h then -1 else 1) * (theta / (2 * PI)) * pitch h
                      + offsetY h ∧
     (0 <= thickness h →
      radius h - thickness h / 2 <= rc <= radius h + thickness h / 2))
  ∧
  (∀ w, helix w = scenarioHelix →
     let w' := moveToTarget (21 / 10) (5 / 100) w in
     let theta := lastTheta (helix w') in
     let rTarget := hypot (21 / 10 - 0) (5 / 100 - 0) in
     theta = wrappedTheta (5 / 100 - 0) (21 / 10 - 0) ∧
     238 / 10000 < theta < 2385 / 100000 ∧
     21005 / 10000 < rTarget < 21006 / 10000 ∧
     rClamped scenarioHelix rTarget = rTarget ∧
     vx (camera w') = 0 + rTarget * cos theta ∧
     vz (camera w') = 0 + rTarget * sin theta ∧
     vy (camera w') = 10 - (theta / (2 * PI)) * 2 ∧
     99924 / 10000 < vy (camera w') < 999245 / 100000)
  ∧
  (∀ w, helix w = set_lastTheta (4 * PI) scenarioHelix →
     let w' := moveToTarget (21 / 10) (5 / 100) w in
     let theta := lastTheta (helix w') in
     theta = wrappedTheta (5 / 100 - 0) (21 / 10 - 0) + 2 * (2 * PI) ∧
     vy (camera w') = 10 - (theta / (2 * PI)) * 2 ∧
     59924 / 10000 < vy (camera w') < 599245 / 100000).
Proof.
  split; [|split].
  - intros speed dt keys camDir camRight w He Hintent h mv targetX targetZ rTarget rc w' theta.
    assert (w' = moveToTarget targetX targetZ w) as Hw'.
    { unfold w', horizontalInput. rewrite He. cbn [negb]. cbn zeta.
      replace (bool_decide (axis (KeyW keys) (KeyS keys) ≠ 0%Z)
               || bool_decide (axis (KeyD keys) (KeyA keys) ≠ 0%Z)) with true; [done|].
      symmetry. apply orb_true_iff.
      destruct Hintent; [left|right]; by apply bool_decide_eq_true. }
    assert (theta = branchNear (lastTheta h)
                      (wrappedTheta (targetZ - centerZ h) (targetX - centerX h))) as Htheta.
    { unfold theta. by rewrite Hw'. }
    split; [rewrite Htheta; apply branchNear_points|].
    split; [rewrite Htheta; apply branchNear_turns|].
    split; [apply wrappedTheta_range|].
    split; [rewrite Htheta; apply branchNear_close|].
    split.
    { intros Hr t Ht Hc Hs. rewrite Htheta, <- Hc, <- Hs. symmetry.
      by apply branchNear_unique. }
    rewrite Htheta, Hw'. unfold moveToTarget. cbn zeta.
    cbn [camera set_camera vx vy vz].
    do 3 (split; [done|]).
    intros Ht. exact (rClamped_band (helix w) _ Ht).
  - intros w Hw. simpl.
    pose proof atan_scenario_bounds as [Hlo Hhi].
    pose proof hypot_scenario_bounds as [Hr1 Hr2].
    pose proof PI_bounds as [Hpi1 Hpi2].
    unfold moveToTarget. rewrite Hw. simpl.
    assert (branchNear 0 (wrappedTheta (5 / 100 - 0) (21 / 10 - 0))
            = wrappedTheta (5 / 100 - 0) (21 / 10 - 0)) as Hbranch.
    { unfold branchNear. rewrite wrappedTheta_scenario.
      rewrite (round_unique _ 0); [lra|].
      set (t := atan (5 / 100 / (21 / 10))) in *.
      assert (0 < / (2 * PI) < 1) as [Hi1 Hi2].
      { split; [apply Rinv_0_lt_compat; lra|].
        rewrite <- Rinv_1. apply Rinv_lt_contravar; lra. }
      unfold Rdiv. nra. }
    rewrite Hbranch, wrappedTheta_scenario.
    set (t := atan (5 / 100 / (21 / 10))) in *.
    assert (rClamped scenarioHelix (hypot (21 / 10 - 0) (5 / 100 - 0))
            = hypot (21 / 10 - 0) (5 / 100 - 0)) as Hclamp.
    { apply rClamped_idem. unfold rMin, rMax. simpl. lra. }
    assert (helixY (set_lastTheta t scenarioHelix) t = 10 - t / (2 * PI) * 2) as Hy.
    { unfold helixY, sign. simpl. field. lra. }
    change (rClamped (set_lastTheta t scenarioHelix) (hypot (21 / 10 - 0) (5 / 100 - 0)))
      with (rClamped scenarioHelix (hypot (21 / 10 - 0) (5 / 100 - 0))).
    rewrite Hclamp, Hy.
    assert (755 / 100000 < t / (2 * PI) * 2 < 76 / 10000) as [Hq1 Hq2].
    { replace (t / (2 * PI) * 2) with (t / PI) by (field; lra).
      split.
      - apply (Rmult_lt_reg_r PI); [lra|].
        replace (t / PI * PI) with t by (field; lra). nra.
      - apply (Rmult_lt_reg_r PI); [lra|].
        replace (t / PI * PI) with t by (field; lra). nra. }
    repeat split; try done; lra.
  - intros w Hw.
    pose proof atan_scenario_bounds as [Hlo Hhi].
    pose proof PI_bounds as [Hpi1 Hpi2].
    cbn zeta. unfold moveToTarget. rewrite Hw. cbn zeta.
    cbn [helix camera set_camera set_helix lastTheta set_lastTheta vy centerX centerZ
         scenarioHelix].
    assert (branchNear (4 * PI) (wrappedTheta (5 / 100 - 0) (21 / 10 - 0))
            = wrappedTheta (5 / 100 - 0) (21 / 10 - 0) + 2 * (2 * PI)) as Hbranch.
    { unfold branchNear. cbn zeta. rewrite wrappedTheta_scenario.
      rewrite (round_unique _ 2); [lra|].
      set (t := atan (5 / 100 / (21 / 10))) in *.
      replace ((4 * PI - t) / (2 * PI)) with (2 - t / (2 * PI)) by (field; lra).
      assert (0 < t / (2 * PI) < / 2) as [Hi1 Hi2].
      { split.
        - apply Rmult_lt_0_compat; [lra|]. apply Rinv_0_lt_compat. lra.
        - apply (Rmult_lt_reg_r (2 * PI)); [lra|].
          unfold Rdiv. rewrite Rmult_assoc, Rinv_l by lra. lra. }
      lra. }
    rewrite Hbranch, wrappedTheta_scenario.
    set (t := atan (5 / 100 / (21 / 10))) in *.
    assert (helixY (set_lastTheta (t + 2 * (2 * PI)) (set_lastTheta (4 * PI) scenarioHelix))
                   (t + 2 * (2 * PI))
            = 10 - (t + 2 * (2 * PI)) / (2 * PI) * 2) as Hy.
    { unfold helixY, sign. simpl. field. lra. }
    split; [done|]. rewrite Hy. split; [done|].
    replace ((t + 2 * (2 * PI)) / (2 * PI) * 2) with (4 + t / PI) by (field; lra).
    assert (755 / 100000 < t / PI < 76 / 10000) as [Hq1 Hq2].
    { split.
      - apply (Rmult_lt_reg_r PI); [lra|].
        replace (t / PI * PI) with t by (field; lra). nra.
      - apply (Rmult_lt_reg_r PI); [lra|].
        replace (t / PI * PI) with t by (field; lra). nra. }
    lra.
Qed.

(** The scenario in the scenario's world. *)
Lemma helix_move_mapping_witness :
  helix scenarioWorld = scenarioHelix ∧
  238 / 10000 < lastTheta (helix (moveToTarget (21 / 10) (5 / 100) scenarioWorld))
    < 2385 / 100000 ∧
  99924 / 10000 < vy (camera (moveToTarget (21 / 10) (5 / 100) scenarioWorld))
    < 999245 / 100000.
Proof.
  split; [reflexivity|].
  pose proof (proj1 (proj2 helix_move_mapping) scenarioWorld eq_refl) as H.
  cbv zeta in H.
  split; [exact (proj1 (proj2 H))|].
  exact (proj2 (proj2 (proj2 (proj2 (proj2 (proj2 (proj2 H))))))).
Defined.


(** *** The call that does not wrap *)

(** The branch of [constrainCameraToHelix] that does not wrap. *)
Lemma constrain_no_wrap now now' w :
  modelsLoaded w = true → enabled (helix w) = true →
  (∀ refY, ¬ wrapFires now now' w refY) →
  let h := helix w in
  let theta := branchNear (lastTheta h)
                 (wrappedTheta (vz (camera w) - centerZ h) (vx (camera w) - centerX h)) in
  constrainCameraToHelix now now' w
  = set_camera (mkVector3 (centerX h + rClamped h (cameraRadius w) * cos theta)
                          (helixY (set_lastTheta theta h) theta)
                          (centerZ h + rClamped h (cameraRadius w) * sin theta))
               (set_helix (set_lastTheta theta h) w).
Proof.
  intros Hm He Hno h theta. unfold constrainCameraToHelix.
  rewrite Hm, He. cbn [negb]. cbn zeta.
  destruct (wrapArmed now w) as [refY|] eqn:Harm; [|done].
  case_bool_decide as Hout; [|done].
  case_bool_decide as Hcool; [done|].
  exfalso. apply (Hno refY). done.
Qed.

Lemma helixY_step h t1 t2 :
  - PI < t1 - t2 <= PI →
  Rabs (helixY h t1 - helixY h t2) <= Rabs (pitch h) / 2.
Proof.
  intros Hd. rewrite helixY_diff.
  pose proof two_PI_pos as Hpi.
  assert (Rabs ((t1 - t2) / (2 * PI)) <= 1 / 2) as Hfrac.
  { apply Rabs_le. split.
    - apply (Rmult_le_reg_r (2 * PI)); [done|].
      unfold Rdiv. rewrite Rmult_assoc, Rinv_l by lra. lra.
    - apply (Rmult_le_reg_r (2 * PI)); [done|].
      unfold Rdiv. rewrite Rmult_assoc, Rinv_l by lra. lra. }
  rewrite !Rabs_mult.
  assert (Rabs (sign h) = 1) as ->.
  { destruct (sign_cases h) as [-> | ->]; [rewrite Rabs_left by lra|rewrite Rabs_right by lra]; lra. }
  pose proof (Rabs_pos (pitch h)). nra.
Qed.

Lemma constrain_band_params now now' w :
  let h' := helix (constrainCameraToHelix now now' w) in
  centerX h' = centerX (helix w) ∧ centerZ h' = centerZ (helix w) ∧
  radius h' = radius (helix w) ∧ thickness h' = thickness (helix w) ∧
  pitch h' = pitch (helix w) ∧ wrapCooldown h' = wrapCooldown (helix w) ∧
  enabled h' = enabled (helix w) ∧
  modelsLoaded (constrainCameraToHelix now now' w) = modelsLoaded w.
Proof.
  unfold constrainCameraToHelix.
  destruct (modelsLoaded w) eqn:Hm; cbn [negb]; [|by rewrite Hm].
  destruct (enabled (helix w)) eqn:He; cbn [negb]; [|by rewrite He, Hm].
  cbn zeta.
  destruct (wrapArmed now w) as [refY|]; [|by cbn].
  case_bool_decide; [|by cbn]. case_bool_decide; [by cbn|].
  unfold wrapCamera, initHelixLastThetaFromCamera. by cbn.
Qed.

(** Property X11: a wrap stamps [_lastWrapTime], and a call of
    [constrainCameraToHelix] made less than [wrapCooldown] milliseconds
    later cannot wrap again: the stamp stays, the call is the continuous
    update, and the camera height moves by at most half a ring. *)
Theorem wrap_cooldown_holds now now' now2 now2' w refY :
  wrapFires now now' w refY →
  (now2' - now' < wrapCooldown (helix w))%Z →
  let w' := constrainCameraToHelix now now' w in
  let w'' := constrainCameraToHelix now2 now2' w' in
  _lastWrapTime (helix w') = now' ∧
  (∀ refY', ¬ wrapFires now2 now2' w' refY') ∧
  _lastWrapTime (helix w'') = now' ∧
  - PI < lastTheta (helix w'') - lastTheta (helix w') <= PI ∧
  vy (camera w'') = helixY (helix w'') (lastTheta (helix w'')) ∧
  Rabs (vy (camera w'') - vy (camera w')) <= Rabs (pitch (helix w)) / 2.
Proof.
  intros Hf Hcool w' w''.
  pose proof Hf as (Hm & He & _).
  assert (w' = wrapCamera refY now' w) as Hw' by (by apply constrain_wraps).
  assert (_lastWrapTime (helix w') = now') as Hlast by (by rewrite Hw').
  destruct (constrain_band_params now now' w) as (_ & _ & _ & _ & Ep & Ec & Ee & Em).
  fold w' in Ep, Ec, Ee, Em.
  assert (∀ refY', ¬ wrapFires now2 now2' w' refY') as Hno.
  { intros refY' (_ & _ & _ & _ & Hnc). apply Hnc. rewrite Hlast, Ec. done. }
  assert (vy (camera w') = helixY (helix w') (lastTheta (helix w'))) as Hy'
    by (rewrite Hw'; apply wrapCamera_y).
  split; [done|]. split; [done|].
  unfold w''. rewrite constrain_no_wrap; [|by rewrite Em|by rewrite Ee|done].
  cbn [helix camera set_camera set_helix lastTheta set_lastTheta _lastWrapTime vy].
  set (theta := branchNear _ _).
  pose proof (branchNear_close (lastTheta (helix w'))
                (wrappedTheta (vz (camera w') - centerZ (helix w'))
                              (vx (camera w') - centerX (helix w')))) as Hclose.
  fold theta in Hclose.
  split; [done|]. split; [done|]. split; [done|].
  rewrite Hy', <- Ep.
  change (helixY (set_lastTheta theta (helix w')) theta) with (helixY (helix w') theta).
  by apply helixY_step.
Qed.

Lemma nearWorld_fires : wrapFires 5000 5000 nearWorld 0.
Proof.
  split; [reflexivity|]. split; [reflexivity|]. split; [reflexivity|].
  split; [left; simpl; lra|simpl; lia].
Qed.

Lemma wrap_cooldown_witness :
  wrapFires 5000 5000 nearWorld 0 ∧
  (5100 - 5000 < wrapCooldown (helix nearWorld))%Z ∧
  _lastWrapTime
    (helix (constrainCameraToHelix 5100 5100 (constrainCameraToHelix 5000 5000 nearWorld)))
  = 5000%Z.
Proof.
  assert (5100 - 5000 < wrapCooldown (helix nearWorld))%Z as Hc by (cbn; lia).
  split; [exact nearWorld_fires|]. split; [exact Hc|].
  exact (proj1 (proj2 (proj2 (wrap_cooldown_holds 5000 5000 5100 5100 nearWorld 0
                                nearWorld_fires Hc)))).
Defined.

(** Property X12: when [constrainCameraToHelix] does not wrap, the stored
    angle moves by at most half a turn and the camera height differs from
    the previous helix height by at most half a pitch, while the new angle
    points at the camera's position before the call; a horizontal move to
    any target obeys the same two bounds. *)
Theorem helix_angle_continuous now now' w :
  modelsLoaded w = true → enabled (helix w) = true →
  (∀ refY, ¬ wrapFires now now' w refY) →
  let w' := constrainCameraToHelix now now' w in
  - PI < lastTheta (helix w') - lastTheta (helix w) <= PI ∧
  Rabs (vy (camera w') - helixY (helix w) (lastTheta (helix w)))
    <= Rabs (pitch (helix w)) / 2 ∧
  cameraRadius w * cos (lastTheta (helix w')) = vx (camera w) - centerX (helix w) ∧
  cameraRadius w * sin (lastTheta (helix w')) = vz (camera w) - centerZ (helix w) ∧
  (∀ tx tz,
     let wm := moveToTarget tx tz w in
     - PI < lastTheta (helix wm) - lastTheta (helix w) <= PI ∧
     Rabs (vy (camera wm) - helixY (helix w) (lastTheta (helix w)))
       <= Rabs (pitch (helix w)) / 2).
Proof.
  intros Hm He Hno w'. unfold w'. rewrite constrain_no_wrap by done.
  cbn [helix camera set_camera set_helix lastTheta set_lastTheta vy].
  set (theta := branchNear _ _).
  pose proof (branchNear_close (lastTheta (helix w))
                (wrappedTheta (vz (camera w) - centerZ (helix w))
                              (vx (camera w) - centerX (helix w)))) as Hclose.
  fold theta in Hclose.
  split; [done|]. split.
  { change (helixY (set_lastTheta theta (helix w)) theta) with (helixY (helix w) theta).
    by apply helixY_step. }
  split; [apply branchNear_points|]. split; [apply branchNear_points|].
  intros tx tz. unfold moveToTarget.
  cbn [helix camera set_camera set_helix lastTheta set_lastTheta vy].
  pose proof (branchNear_close (lastTheta (helix w))
                (wrappedTheta (tz - centerZ (helix w)) (tx - centerX (helix w)))) as Hc2.
  split; [done|].
  match goal with |- context [helixY (set_lastTheta ?t ?h) ?t] =>
    change (helixY (set_lastTheta t h) t) with (helixY h t) end.
  by apply helixY_step.
Qed.

Lemma scenarioWorld_no_wrap : ∀ refY, ¬ wrapFires 5000 5000 scenarioWorld refY.
Proof.
  intros refY (_ & _ & Harm & Hout & _).
  assert (wrapArmed 5000 scenarioWorld = Some 10) as E by reflexivity.
  rewrite E in Harm. injection Harm as <-.
  cbn in Hout. lra.
Qed.

Lemma helix_angle_continuous_witness :
  modelsLoaded scenarioWorld = true ∧ enabled (helix scenarioWorld) = true ∧
  (∀ refY, ¬ wrapFires 5000 5000 scenarioWorld refY) ∧
  - PI < lastTheta (helix (constrainCameraToHelix 5000 5000 scenarioWorld))
         - lastTheta (helix scenarioWorld) <= PI.
Proof.
  split; [reflexivity|]. split; [reflexivity|]. split; [exact scenarioWorld_no_wrap|].
  exact (proj1 (helix_angle_continuous 5000 5000 scenarioWorld eq_refl eq_refl
                  scenarioWorld_no_wrap)).
Defined.

(** Property X13: with the helix disabled, [updateMovement] never leaves the
    camera below [FLOOR_Y] and does not touch the helix state; without a
    strafe or vertical key the height is the old one raised to the floor. *)
Theorem free_walk_keeps_floor dt keys camDir camRight now now' w :
  isLocked w = true → modelsLoaded w = true → enabled (helix w) = false →
  let w' := updateMovement dt keys camDir camRight now now' w in
  FLOOR_Y <= vy (camera w') ∧
  helix w' = helix w ∧
  (KeyA keys = false → KeyD keys = false → KeyE keys = false → KeyQ keys = false →
   vy (camera w') = Rmax (vy (camera w)) FLOOR_Y).
Proof.
  intros Hl Hm He w'. unfold w', updateMovement. rewrite Hl, Hm. cbn [negb]. cbn zeta.
  set (speed := if ShiftLeft keys || ShiftRight keys then WALK_SPEED * RUN_MULT else WALK_SPEED).
  set (w1 := horizontalInput speed dt keys camDir camRight w).
  assert (helix w1 = helix w) as Hh1.
  { unfold w1, horizontalInput. rewrite He. done. }
  assert (modelsLoaded w1 = true) as Hm1.
  { unfold w1, horizontalInput. rewrite He. done. }
  set (w2 := verticalInput speed dt keys w1).
  assert (helix w2 = helix w) as Hh2.
  { unfold w2, verticalInput. rewrite Hh1, He. done. }
  assert (constrainCameraToHelix now now' w2 = w2) as ->.
  { unfold constrainCameraToHelix. rewrite Hh2, He.
    by destruct (negb (modelsLoaded w2)). }
  split; [|split; [done|]].
  - unfold w2, verticalInput. rewrite Hh1, He. cbn [camera set_camera].
    case_decide; cbn; lra.
  - intros HA HD HE HQ.
    assert (vy (camera w1) = vy (camera w)) as Hy1.
    { unfold w1, horizontalInput. rewrite He, HA, HD. cbn [negb camera set_camera].
      unfold moveForward, addScaledVector, crossVectors.
      destruct (KeyW keys), (KeyS keys); cbn; lra. }
    unfold w2, verticalInput. rewrite Hh1, He, HE, HQ. cbn [camera set_camera].
    rewrite <- Hy1. unfold Rmax. case_decide; destruct (Rle_dec _ _); cbn; lra.
Qed.

Lemma free_walk_keeps_floor_witness :
  isLocked (set_helix (mkHelix false 0 0 2 (6 / 10) 2 10 0 true 0 250%Z 0%Z) scenarioWorld) = true ∧
  FLOOR_Y <= vy (camera (updateMovement 100 (mkKeys false false false false false true false false)
                   (mkVector3 1 0 0) (mkVector3 0 0 1) 5000 5000
                   (set_helix (mkHelix false 0 0 2 (6 / 10) 2 10 0 true 0 250%Z 0%Z)
                      scenarioWorld))).
Proof.
  split; [reflexivity|].
  exact (proj1 (free_walk_keeps_floor 100
                  (mkKeys false false false false false true false false)
                  (mkVector3 1 0 0) (mkVector3 0 0 1) 5000 5000
                  (set_helix (mkHelix false 0 0 2 (6 / 10) 2 10 0 true 0 250%Z 0%Z)
                     scenarioWorld) eq_refl eq_refl eq_refl)).
Defined.

(** Property X14: for a helix of non-zero pitch,
    [computeHelixLastThetaFromPosition] returns an angle that points at the
    given position and whose helix height is within half a pitch of the
    position's height; it is the angle [initHelixLastThetaFromCamera] stores
    for a camera at that position.  [placeTowerAndStairs] keeps the old
    angle when the result is 0 or the position is missing. *)
Theorem start_angle_matches_pose h p :
  pitch h ≠ 0 →
  ∃ t,
    computeHelixLastThetaFromPosition h (Some p) = Some t ∧
    Rabs (helixY h t - vy p) <= Rabs (pitch h) / 2 ∧
    hypot (vx p - centerX h) (vz p - centerZ h) * cos t = vx p - centerX h ∧
    hypot (vx p - centerX h) (vz p - centerZ h) * sin t = vz p - centerZ h ∧
    (∀ w, helix w = h → camera w = p →
       lastTheta (helix (initHelixLastThetaFromCamera w)) = t) ∧
    startLastTheta h (Some p) = (if decide (t = 0) then lastTheta h else t) ∧
    startLastTheta h None = lastTheta h ∧
    computeHelixLastThetaFromPosition h None = None.
Proof.
  intros Hp. eexists. split; [reflexivity|].
  assert (sign h * pitch h ≠ 0) as Hsp.
  { destruct (sign_cases h) as [-> | ->]; lra. }
  rewrite (decide_False (P := sign h * pitch h = 0)) by done.
  set (desired := (vy p - baseY h - offsetY h) * 2 * PI / (sign h * pitch h)).
  set (t := branchNear desired _).
  split.
  { rewrite <- (helixY_desired h (vy p) Hp). fold desired.
    apply helixY_step. apply branchNear_close. }
  split; [apply branchNear_points|]. split; [apply branchNear_points|].
  split.
  { intros w <- <-. unfold initHelixLastThetaFromCamera. cbn.
    by rewrite (decide_False (P := sign (helix w) * pitch (helix w) = 0)). }
  split; [|done].
  unfold startLastTheta, computeHelixLastThetaFromPosition. cbn zeta.
  by rewrite (decide_False (P := sign h * pitch h = 0)).
Qed.

Lemma start_angle_matches_pose_witness :
  pitch scenarioHelix ≠ 0 ∧
  ∃ t, computeHelixLastThetaFromPosition scenarioHelix (Some (mkVector3 2 7 0)) = Some t ∧
       Rabs (helixY scenarioHelix t - 7) <= Rabs (pitch scenarioHelix) / 2.
Proof.
  assert (pitch scenarioHelix ≠ 0) as Hp by (cbn; lra).
  split; [exact Hp|].
  destruct (start_angle_matches_pose scenarioHelix (mkVector3 2 7 0) Hp)
    as (t & H1 & H2 & _).
  exists t. split; [exact H1|exact H2].
Defined.

End HelixFacts.

(** ** The slide puzzle animations *)

Module PuzzleViewFacts.
Import SlidePuzzle Helix PuzzleView.
Local Open Scope R_scope.

Lemma progress_range start duration now :
  0 < duration → start <= now → 0 <= progress start duration now <= 1.
Proof.
  intros Hd Hn. unfold progress. split.
  - apply Rmin_glb; [lra|]. apply Rmult_le_pos; [lra|]. left. by apply Rinv_0_lt_compat.
  - apply Rmin_l.
Qed.

Lemma progress_done start duration now :
  0 < duration → (¬ progress start duration now < 1 ↔ start + duration <= now).
Proof.
  intros Hd. unfold progress.
  assert ((now - start) / duration < 1 ↔ now < start + duration) as Hdiv.
  { split; intros H.
    - apply (Rmult_lt_compat_r duration) in H; [|done].
      unfold Rdiv in H. rewrite Rmult_assoc, Rinv_l, Rmult_1_r, Rmult_1_l in H by lra. lra.
    - apply (Rmult_lt_reg_r duration); [done|].
      unfold Rdiv. rewrite Rmult_assoc, Rinv_l, Rmult_1_r, Rmult_1_l by lra. lra. }
  destruct (Rle_dec 1 ((now - start) / duration)) as [H|H].
  - rewrite Rmin_left by done. split; [|lra]. intros _.
    destruct (Rlt_dec now (start + duration)) as [Hlt|]; [|lra].
    apply Hdiv in Hlt. lra.
  - rewrite Rmin_right by lra. split; [intros N; exfalso; apply N; lra|].
    intros Hle. exfalso. apply H. apply Rnot_lt_le. intros Hlt. apply Hdiv in Hlt. lra.
Qed.

Lemma progress_mono start duration now now' :
  0 < duration → now <= now' →
  progress start duration now <= progress start duration now'.
Proof.
  intros Hd Hn. unfold progress. apply Rle_min_compat_l.
  apply Rmult_le_compat_r; [|lra]. left. by apply Rinv_0_lt_compat.
Qed.

Lemma easeInOut_range t : 0 <= t <= 1 → 0 <= easeInOut t <= 1.
Proof. intros Ht. unfold easeInOut. case_decide; nra. Qed.

Lemma easeInOut_mono t t' : 0 <= t → t <= t' → t' <= 1 → easeInOut t <= easeInOut t'.
Proof. intros H0 H1 H2. unfold easeInOut. repeat case_decide; nra. Qed.

Lemma easeInOut_ends : easeInOut 0 = 0 ∧ easeInOut 1 = 1 ∧ easeInOut (1 / 2) = 1 / 2.
Proof. unfold easeInOut. repeat case_decide; lra. Qed.

Lemma between_ends a b s : 0 <= s <= 1 → Rmin a b <= a + (b - a) * s <= Rmax a b.
Proof.
  intros Hs. unfold Rmin, Rmax. destruct (Rle_dec a b); nra.
Qed.

(** Property X15: every frame of [_animateMeshPosition] puts the mesh
    between its start and its target, coordinate by coordinate; the first
    frame at the start time leaves it at the start, the promise resolves
    exactly in the first frame at or after [start + duration], with the mesh
    on the target, and the eased progress never decreases with time. *)
Theorem slide_animation_stays_on_segment fromPos toPos duration start now :
  0 < duration → start <= now →
  let '(p, finished) := _animateMeshPosition fromPos toPos duration start now in
  (Rmin (vx fromPos) (vx toPos) <= vx p <= Rmax (vx fromPos) (vx toPos) ∧
   Rmin (vy fromPos) (vy toPos) <= vy p <= Rmax (vy fromPos) (vy toPos) ∧
   Rmin (vz fromPos) (vz toPos) <= vz p <= Rmax (vz fromPos) (vz toPos)) ∧
  (finished = true ↔ start + duration <= now) ∧
  (finished = true → p = toPos) ∧
  (now = start → p = fromPos) ∧
  (∀ now', now <= now' →
     easeInOut (progress start duration now) <= easeInOut (progress start duration now')).
Proof.
  intros Hd Hn. unfold _animateMeshPosition. cbn zeta.
  pose proof (progress_range start duration now Hd Hn) as Hp.
  pose proof (easeInOut_range _ Hp) as He.
  split; [|split; [|split; [|split]]].
  - cbn [vx vy vz]. repeat split; by apply between_ends.
  - rewrite bool_decide_eq_true. by apply progress_done.
  - intros Hfin. apply bool_decide_eq_true in Hfin.
    assert (progress start duration now = 1) as -> by lra.
    destruct easeInOut_ends as (_ & -> & _).
    destruct toPos, fromPos. cbn. f_equal; lra.
  - intros ->. unfold progress.
    replace ((start - start) / duration) with 0 by (unfold Rdiv; lra).
    rewrite Rmin_right by lra. destruct easeInOut_ends as (-> & _).
    destruct toPos, fromPos. cbn. f_equal; lra.
  - intros now' Hn'.
    pose proof (progress_range start duration now' Hd ltac:(lra)) as Hp'.
    apply easeInOut_mono; [lra| |lra]. by apply progress_mono.
Qed.

Lemma slide_animation_witness :
  0 < 260 ∧ 0 <= 260 ∧
  fst (_animateMeshPosition (mkVector3 0 0 0) (mkVector3 1 0 0) 260 0 260)
  = mkVector3 1 0 0.
Proof.
  assert (0 < 260) as Hd by lra. assert (0 <= 260) as Hn by lra.
  split; [exact Hd|]. split; [exact Hn|].
  pose proof (slide_animation_stays_on_segment
                (mkVector3 0 0 0) (mkVector3 1 0 0) 260 0 260 Hd Hn) as H.
  destruct (_animateMeshPosition (mkVector3 0 0 0) (mkVector3 1 0 0) 260 0 260) as [p fin].
  destruct H as (_ & Hfin & Hend & _). cbn [fst]. apply Hend, Hfin. lra.
Defined.

(** Property X16: [_animateQuiver] moves the coordinate at most [amount]
    away from where it was, reaches that excursion at half the duration, and
    resolves exactly in the first frame at or after [start + duration], with
    the coordinate back at its old value. *)
Theorem quiver_returns_to_rest from amount duration start now :
  0 < duration → start <= now →
  let '(x, finished) := _animateQuiver from amount duration start now in
  Rmin from (from + amount) <= x <= Rmax from (from + amount) ∧
  (finished = true ↔ start + duration <= now) ∧
  (finished = true → x = from) ∧
  (now = start → x = from) ∧
  (now = start + duration / 2 → x = from + amount).
Proof.
  intros Hd Hn. unfold _animateQuiver. cbn zeta.
  assert (0 < duration / 2) as Hh by lra.
  assert (∀ e, 0 <= e → e <= duration / 2 → 0 <= e / (duration / 2) <= 1) as Hfrac.
  { intros e H0 H1. split.
    - apply Rmult_le_pos; [done|]. left. by apply Rinv_0_lt_compat.
    - apply (Rmult_le_reg_r (duration / 2)); [done|].
      unfold Rdiv at 1. rewrite Rmult_assoc, Rinv_l, Rmult_1_r by lra. lra. }
  assert (∀ s, 0 <= s <= 1 →
            Rmin from (from + amount) <= from + amount * s <= Rmax from (from + amount)) as Hbt.
  { intros s Hs. unfold Rmin, Rmax. destruct (Rle_dec from (from + amount)); nra. }
  repeat case_decide.
  - split; [apply Hbt, Hfrac; lra|]. split; [split; [done|lra]|]. split; [done|].
    split.
    + intros ->. replace (start - start) with 0 by lra. unfold Rdiv. lra.
    + intros ->. lra.
  - split.
    { pose proof (Hfrac (now - start - duration / 2) ltac:(lra) ltac:(lra)) as Hf.
      apply Hbt. lra. }
    split; [split; [done|lra]|]. split; [done|]. split; [intros ->; lra|].
    intros ->. replace (start + duration / 2 - start - duration / 2) with 0 by lra.
    unfold Rdiv. lra.
  - split; [unfold Rmin, Rmax; destruct (Rle_dec from (from + amount)); lra|].
    split; [split; [lra|done]|]. split; [done|]. split; [done|]. intros ->. lra.
Qed.

Lemma quiver_returns_to_rest_witness :
  0 < 140 ∧ 0 <= 70 ∧ fst (_animateQuiver 1 (4 / 100) 140 0 70) = 1 + 4 / 100.
Proof.
  assert (0 < 140) as Hd by lra. assert (0 <= 70) as Hn by lra.
  split; [exact Hd|]. split; [exact Hn|].
  pose proof (quiver_returns_to_rest 1 (4 / 100) 140 0 70 Hd Hn) as H.
  destruct (_animateQuiver 1 (4 / 100) 140 0 70) as [x fin].
  destruct H as (_ & _ & _ & _ & H). cbn [fst]. apply H. lra.
Defined.

End PuzzleViewFacts.

(** ** The slide puzzle tiles *)

Module PuzzleTilesFacts.
Import SlidePuzzle SlidePuzzleFacts Helix PuzzleTiles.

Lemma mapM_total {A B} (f : A → option B) (g : A → B) (l : list A) :
  (∀ x, x ∈ l → f x = Some (g x)) → mapM f l = Some (g <$> l).
Proof.
  intros H. apply mapM_Some_2, Forall2_fmap_r, Forall_Forall2_diag, Forall_forall.
  exact H.
Qed.

Section TilesFacts.
Variables ROWS COLS : nat.

Lemma createTileTextures_lookup iw ih r c :
  r < ROWS → c < COLS →
  _createTileTextures ROWS COLS (Some (iw, ih)) !! (r * COLS + c)
  = Some (mkTexture (iw / COLS) (ih / ROWS)
            (Slice (c * (iw / COLS)) (r * (ih / ROWS)) (iw / COLS) (ih / ROWS))).
Proof.
  intros Hr Hc. unfold _createTileTextures.
  by rewrite (grid_lookup COLS (λ r c, mkTexture _ _ (Slice _ _ _ _))).
Qed.

Lemma createTileTextures_length img :
  length (_createTileTextures ROWS COLS img) = ROWS * COLS.
Proof.
  unfold _createTileTextures. destruct img as [[iw ih]|].
  - apply (grid_length COLS (λ r c, mkTexture _ _ (Slice _ _ _ _))).
  - apply (grid_length COLS (λ r c, mkTexture _ _ (Fallback _))).
Qed.

Lemma renderBoard_wf textures size board :
  wf_board ROWS COLS board →
  _renderBoard ROWS COLS textures size board
  = Some ((λ r, (λ c,
       mkMesh (tilePosition ROWS COLS size r c)
         (match cellAt board r c with
          | Some idx => if (idx =? 0)%nat then BlankMesh
                        else TileMesh (textures !! (idx - 1)%nat)
          | None => TileMesh None
          end)) <$> seq 0 COLS) <$> seq 0 ROWS).
Proof.
  intros [Hlen _]. unfold _renderBoard. apply mapM_total.
  intros r Hr. apply elem_of_seq in Hr.
  destruct (lookup_lt_is_Some_2 board r) as [row Hrow]; [lia|].
  unfold cellAt. rewrite Hrow. done.
Qed.

Lemma renderBoard_cell textures size board meshes r c :
  wf_board ROWS COLS board →
  _renderBoard ROWS COLS textures size board = Some meshes →
  r < ROWS → c < COLS →
  meshes !! r ≫= (λ row, row !! c)
  = Some (mkMesh (tilePosition ROWS COLS size r c)
            (match cellAt board r c with
             | Some idx => if (idx =? 0)%nat then BlankMesh
                           else TileMesh (textures !! (idx - 1)%nat)
             | None => TileMesh None
             end)).
Proof.
  intros Hwf Hrender Hr Hc. rewrite renderBoard_wf in Hrender by done.
  injection Hrender as <-.
  rewrite list_lookup_fmap, lookup_seq_lt by done. cbn.
  rewrite list_lookup_fmap, lookup_seq_lt by done. done.
Qed.

End TilesFacts.

(** Property X17: [_createTileTextures] returns ROWS*COLS textures in
    reading order; the slice of cell (r, c) is the rectangle at (c*tw, r*th)
    of size tw x th, it lies inside the image, the slices of two cells do
    not overlap, and fewer than COLS pixel columns and ROWS pixel rows of
    the image are left out.  Without an image there are as many fallback
    tiles, of 128 x 128 pixels, coloured by their index. *)
Theorem tile_slices_inside_image R C iw ih :
  0 < R → 0 < C →
  let textures := _createTileTextures R C (Some (iw, ih)) in
  let tw := iw / C in
  let th := ih / R in
  length textures = R * C ∧
  (∀ r c, r < R → c < C →
     textures !! (r * C + c) = Some (mkTexture tw th (Slice (c * tw) (r * th) tw th)) ∧
     c * tw + tw ≤ iw ∧ r * th + th ≤ ih) ∧
  (∀ r c r' c', r < R → c < C → r' < R → c' < C → (r, c) ≠ (r', c') →
     c * tw + tw ≤ c' * tw ∨ c' * tw + tw ≤ c * tw ∨
     r * th + th ≤ r' * th ∨ r' * th + th ≤ r * th) ∧
  iw - C * tw < C ∧ ih - R * th < R ∧
  length (_createTileTextures R C None) = R * C ∧
  (∀ r c, r < R → c < C →
     _createTileTextures R C None !! (r * C + c)
     = Some (mkTexture 128 128 (Fallback ((r * C + c) * 6)))).
Proof.
  intros HR HC textures tw th.
  assert (C * tw ≤ iw) as Hw by (apply Nat.Div0.mul_div_le).
  assert (R * th ≤ ih) as Hh by (apply Nat.Div0.mul_div_le).
  split; [apply createTileTextures_length|].
  split.
  { intros r c Hr Hc. split; [by apply createTileTextures_lookup|]. nia. }
  split.
  { intros r c r' c' Hr Hc Hr' Hc' Hne.
    destruct (Nat.lt_trichotomy c c') as [?|[->|?]]; [left; nia| |right; left; nia].
    destruct (Nat.lt_trichotomy r r') as [?|[->|?]]; [right; right; left; nia|done|].
    right; right; right; nia. }
  split.
  { pose proof (Nat.div_mod_eq iw C). pose proof (Nat.mod_upper_bound iw C). unfold tw. lia. }
  split.
  { pose proof (Nat.div_mod_eq ih R). pose proof (Nat.mod_upper_bound ih R). unfold th. lia. }
  split; [apply createTileTextures_length|].
  intros r c Hr Hc. unfold _createTileTextures.
  by rewrite (grid_lookup C (λ r c, mkTexture _ _ (Fallback _))).
Qed.

Lemma tile_slices_inside_image_witness :
  0 < 3 ∧ 0 < 4 ∧
  _createTileTextures 3 4 (Some (1000, 700)) !! (1 * 4 + 2)
  = Some (mkTexture 250 233 (Slice 500 233 250 233)).
Proof.
  split; [lia|]. split; [lia|].
  exact (proj1 (proj1 (proj2 (tile_slices_inside_image 3 4 1000 700
                                (Nat.lt_0_succ 2) (Nat.lt_0_succ 3)))
                  1 2 ltac:(lia) ltac:(lia))).
Defined.

(** Property X18: [_renderBoard] succeeds on a board of the right shape and
    puts on the mesh of every tile v the slice of the cell where v sits in
    the solved layout, wherever the tile is on the board; the blank cell
    gets the blank mesh, and [_fadeInBlank] fills it with the slice of the
    bottom-right cell. *)
Theorem tiles_carry_home_slice R C iw ih size board :
  0 < R → 0 < C → wf_board R C board →
  let textures := _createTileTextures R C (Some (iw, ih)) in
  let tw := iw / C in
  let th := ih / R in
  let slice := λ r c, mkTexture tw th (Slice (c * tw) (r * th) tw th) in
  ∃ meshes,
    _renderBoard R C textures size board = Some meshes ∧
    (∀ r c v, r < R → c < C → cellAt board r c = Some v → 0 < v → v < R * C →
       meshes !! r ≫= (λ row, row !! c)
       = Some (mkMesh (tilePosition R C size r c)
                 (TileMesh (Some (slice ((v - 1) / C) ((v - 1) mod C)))))) ∧
    (∀ r c, r < R → c < C → cellAt board r c = Some 0 →
       meshes !! r ≫= (λ row, row !! c)
       = Some (mkMesh (tilePosition R C size r c) BlankMesh)) ∧
    (board = _createEmptyBoard R C →
       ∀ r c, r < R → c < C → (r, c) ≠ (R - 1, C - 1) →
         meshes !! r ≫= (λ row, row !! c)
         = Some (mkMesh (tilePosition R C size r c) (TileMesh (Some (slice r c))))) ∧
    _fadeInBlank_texture R C textures = Some (slice (R - 1) (C - 1)).
Proof.
  intros HR HC Hwf textures tw th slice.
  eexists. split; [by apply renderBoard_wf|].
  assert (∀ v, 0 < v → v < R * C →
            textures !! (v - 1) = Some (slice ((v - 1) / C) ((v - 1) mod C))) as Htex.
  { intros v Hv0 Hv.
    assert (v - 1 = ((v - 1) / C) * C + (v - 1) mod C) as Hdm.
    { rewrite Nat.mul_comm. apply Nat.div_mod_eq. }
    rewrite Hdm at 1. apply createTileTextures_lookup.
    - apply Nat.Div0.div_lt_upper_bound. lia.
    - apply Nat.mod_upper_bound. lia. }
  assert (∀ r c, r < R → c < C →
     ((λ r, (λ c, mkMesh (tilePosition R C size r c)
         (match cellAt board r c with
          | Some idx => if (idx =? 0)%nat then BlankMesh
                        else TileMesh (textures !! (idx - 1)%nat)
          | None => TileMesh None
          end)) <$> seq 0 C) <$> seq 0 R) !! r ≫= (λ row, row !! c)
     = Some (mkMesh (tilePosition R C size r c)
         (match cellAt board r c with
          | Some idx => if (idx =? 0)%nat then BlankMesh
                        else TileMesh (textures !! (idx - 1)%nat)
          | None => TileMesh None
          end))) as Hcell.
  { intros r c Hr Hc.
    rewrite list_lookup_fmap, lookup_seq_lt by done. cbn.
    rewrite list_lookup_fmap, lookup_seq_lt by done. done. }
  split; [|split; [|split]].
  - intros r c v Hr Hc Hv Hv0 HvN. rewrite Hcell, Hv by done.
    destruct (Nat.eqb_spec v 0); [lia|]. by rewrite Htex.
  - intros r c Hr Hc Hv. by rewrite Hcell, Hv.
  - intros -> r c Hr Hc Hne. rewrite Hcell by done.
    rewrite (createEmptyBoard_cell R C) by done.
    rewrite decide_False by (intros [-> ->]; done).
    destruct (Nat.eqb_spec (r * C + c + 1) 0); [lia|].
    assert (r * C + c + 1 < R * C) as Hlt.
    { destruct (decide (r = R - 1)) as [->|]; [|nia].
      destruct (decide (c = C - 1)) as [->|]; [done|nia]. }
    rewrite Htex by lia.
    replace (r * C + c + 1 - 1) with (c + r * C) by lia.
    rewrite Nat.div_add, Nat.div_small, Nat.Div0.mod_add, Nat.mod_small by lia.
    done.
  - unfold _fadeInBlank_texture. cbn zeta.
    rewrite decide_True by (unfold textures; rewrite createTileTextures_length; lia).
    replace (R * C - 1) with ((R - 1) * C + (C - 1)) by nia.
    apply createTileTextures_lookup; lia.
Qed.

Lemma tiles_carry_home_slice_witness :
  0 < 3 ∧ 0 < 4 ∧ wf_board 3 4 solvedBoard ∧
  _fadeInBlank_texture 3 4 (_createTileTextures 3 4 (Some (1000, 700)))
  = Some (mkTexture 250 233 (Slice 750 466 250 233)).
Proof.
  assert (wf_board 3 4 solvedBoard) as Hwf by (split; [done|repeat constructor]).
  split; [lia|]. split; [lia|]. split; [exact Hwf|].
  destruct (tiles_carry_home_slice 3 4 1000 700 0%R solvedBoard
              (Nat.lt_0_succ 2) (Nat.lt_0_succ 3) Hwf) as (meshes & _ & _ & _ & _ & H).
  exact H.
Defined.

End PuzzleTilesFacts.

(** ** The movement controller *)

Module PlatformFacts.
Import Helix HelixFacts Platform.
Local Open Scope R_scope.

Lemma vector3_ext p q : vx p = vx q → vy p = vy q → vz p = vz q → p = q.
Proof. destruct p, q. cbn. by intros -> -> ->. Qed.

(** Property X19: [clampPosition] of a movement controller (minY <= maxY)
    leaves the camera height between the two bounds, and unchanged when it
    was there; a camera within the circle keeps its X and Z, so a position
    inside the cylinder is not moved at all; a camera outside the circle
    is put at centre + (offset from the centre) * radius / distance, the
    factor lying in [0, 1); after [dispose] an update does nothing. *)
Theorem clampPosition_confines mc pos :
  disposed mc = false → ctlMinY mc <= ctlMaxY mc →
  let pos' := clampPosition mc pos in
  let dx := vx pos - vx (ctlCenter mc) in
  let dz := vz pos - vz (ctlCenter mc) in
  let dist := hypot dx dz in
  ctlMinY mc <= vy pos' <= ctlMaxY mc ∧
  (ctlMinY mc <= vy pos <= ctlMaxY mc → vy pos' = vy pos) ∧
  (dist <= ctlRadius mc → vx pos' = vx pos ∧ vz pos' = vz pos) ∧
  (ctlRadius mc < dist →
     vx pos' = vx (ctlCenter mc) + dx * (ctlRadius mc / dist) ∧
     vz pos' = vz (ctlCenter mc) + dz * (ctlRadius mc / dist) ∧
     (0 <= ctlRadius mc → 0 <= ctlRadius mc / dist < 1)) ∧
  (dist <= ctlRadius mc → ctlMinY mc <= vy pos <= ctlMaxY mc → pos' = pos) ∧
  (∀ dt, update (dispose mc) dt pos = pos).
Proof.
  intros Hd Hy pos' dx dz dist.
  pose proof (hypot_nonneg dx dz) as Hdist. fold dist in Hdist.
  set (p1 := if decide (ctlRadius mc < dist)
             then mkVector3 (vx (ctlCenter mc) + dx * (ctlRadius mc / dist)) (vy pos)
                            (vz (ctlCenter mc) + dz * (ctlRadius mc / dist))
             else pos).
  assert (vx pos' = vx p1 ∧ vz pos' = vz p1 ∧
          vy pos' = (if decide (ctlMaxY mc < (if decide (vy pos < ctlMinY mc)
                                               then ctlMinY mc else vy pos))
                     then ctlMaxY mc
                     else if decide (vy pos < ctlMinY mc) then ctlMinY mc else vy pos))
    as (Hx & Hz & Hyy).
  { unfold pos', clampPosition. rewrite Hd. cbn zeta. fold dx dz dist. fold p1.
    assert (vy p1 = vy pos) as Hp1y by (unfold p1; by case_decide).
    rewrite Hp1y. repeat case_decide; cbn in *; rewrite ?Hp1y in *;
      (done || (exfalso; lra)). }
  split; [rewrite Hyy; repeat case_decide; lra|].
  split; [intros Hin; rewrite Hyy; repeat case_decide; lra|].
  split.
  { intros Hin. rewrite Hx, Hz. unfold p1.
    by rewrite (decide_False (P := ctlRadius mc < dist)) by lra. }
  split.
  { intros Hout. rewrite Hx, Hz. unfold p1.
    rewrite (decide_True (P := ctlRadius mc < dist)) by done. cbn [vx vz].
    split; [done|]. split; [done|]. intros Hr. split.
    - apply Rmult_le_pos; [done|]. left. apply Rinv_0_lt_compat. lra.
    - apply (Rmult_lt_reg_r dist); [lra|].
      unfold Rdiv. rewrite Rmult_assoc, Rinv_l by lra. lra. }
  split.
  { intros Hin Hyin. apply vector3_ext; rewrite ?Hx, ?Hz, ?Hyy.
    - unfold p1. by rewrite (decide_False (P := ctlRadius mc < dist)) by lra.
    - repeat case_decide; lra.
    - unfold p1. by rewrite (decide_False (P := ctlRadius mc < dist)) by lra. }
  intros dt. unfold update, clampPosition, dispose. done.
Qed.

Lemma clampPosition_confines_witness :
  disposed (createMovementController (mkOpts None None None None)) = false ∧
  ctlMinY (createMovementController (mkOpts None None None None))
  <= ctlMaxY (createMovementController (mkOpts None None None None)) ∧
  1 / 2 <= vy (clampPosition (createMovementController (mkOpts None None None None))
                 (mkVector3 20 (-3) 0)) <= 10.
Proof.
  assert (ctlMinY (createMovementController (mkOpts None None None None))
          <= ctlMaxY (createMovementController (mkOpts None None None None)))
    as Hy by (cbn; lra).
  split; [reflexivity|]. split; [exact Hy|].
  exact (proj1 (clampPosition_confines
                  (createMovementController (mkOpts None None None None))
                  (mkVector3 20 (-3) 0) eq_refl Hy)).
Defined.

End PlatformFacts.

(** ** The stair segments ([main.js]) *)

Module StairsFacts.
Import Helix Stairs.
Local Open Scope R_scope.

Lemma insertByY_perm d l : insertByY d l ≡ₚ d :: l.
Proof.
  induction l as [|x l IH]; [done|]. simpl. case_decide; [done|].
  rewrite IH. apply Permutation_swap.
Qed.

Lemma sortByY_perm data : sortByY data ≡ₚ data.
Proof.
  induction data as [|d data IH]; [done|].
  simpl. rewrite insertByY_perm. by f_equiv.
Qed.

Lemma sortByY_length data : length (sortByY data) = length data.
Proof. by rewrite sortByY_perm. Qed.

Lemma ascending_cons x l :
  ascending (x :: l) ↔ (∀ b, b ∈ l → yOf x <= yOf b) ∧ ascending l.
Proof.
  split.
  - intros H. split.
    + intros b Hb. apply list_elem_of_lookup in Hb as [j Hj].
      apply (H 0%nat (S j) x b); [lia|done|done].
    + intros i j a b Hij Ha Hb. apply (H (S i) (S j) a b); [lia|done|done].
  - intros [Hx Hl] i j a b Hij Ha Hb.
    destruct i as [|i], j as [|j]; simpl in *.
    + injection Ha as <-. injection Hb as <-. lra.
    + injection Ha as <-. apply Hx. by eapply list_elem_of_lookup_2.
    + lia.
    + apply (Hl i j a b); [lia|done|done].
Qed.

Lemma insertByY_ascending d l : ascending l → ascending (insertByY d l).
Proof.
  induction l as [|x l IH]; intros Hl.
  - simpl. apply ascending_cons. split; [|done].
    intros b Hb. by apply elem_of_nil in Hb.
  - simpl. apply ascending_cons in Hl as [Hx Hl]. case_decide as Hle.
    + apply ascending_cons. split.
      * intros b Hb. apply elem_of_cons in Hb as [->|Hb]; [done|].
        specialize (Hx b Hb). unfold yOf in *. lra.
      * by apply ascending_cons.
    + apply ascending_cons. split; [|by apply IH].
      intros b Hb. rewrite insertByY_perm in Hb.
      apply elem_of_cons in Hb as [->|Hb]; [unfold yOf; lra|by apply Hx].
Qed.

Lemma sortByY_ascending data : ascending (sortByY data).
Proof.
  induction data as [|d data IH]; simpl.
  - intros i j a b _ Ha. done.
  - by apply insertByY_ascending.
Qed.

(** Sorting what is sorted changes nothing. *)
Lemma insertByY_head d l :
  (∀ b, b ∈ l → yOf d <= yOf b) → insertByY d l = d :: l.
Proof.
  destruct l as [|x l]; [done|]. intros H. simpl.
  rewrite decide_True; [done|]. apply H. by left.
Qed.

Lemma sortByY_idem l : ascending l → sortByY l = l.
Proof.
  induction l as [|x l IH]; [done|]. intros H.
  apply ascending_cons in H as [Hx Hl]. simpl. rewrite IH by done.
  by apply insertByY_head.
Qed.

Lemma telescope (l : list SegmentData) k :
  foldl (λ total i, total + (yAt l i - yAt l (i - 1))) 0 (seq 1 k)
  = yAt l k - yAt l 0.
Proof.
  induction k as [|k IH]; [simpl; lra|].
  rewrite seq_S, foldl_app, IH. simpl.
  replace (k - 0)%nat with k by lia. lra.
Qed.

Lemma yAt_lookup l i d : l !! i = Some d → yAt l i = yOf d.
Proof.
  intros H. unfold yAt. apply nth_lookup_Some with (d := 0).
  by rewrite list_lookup_fmap, H.
Qed.

Lemma averageSpacing_sorted data first final :
  (2 <= length data)%nat →
  sortByY data !! 0%nat = Some first →
  sortByY data !! (length data - 1)%nat = Some final →
  averageSpacing data = (yOf final - yOf first) / INR (length data - 1).
Proof.
  intros Hn Hf Hl. unfold averageSpacing.
  rewrite decide_False by lia. cbn zeta.
  rewrite telescope, sortByY_length.
  by rewrite (yAt_lookup _ _ _ Hf), (yAt_lookup _ _ _ Hl).
Qed.

Lemma sorted_ends data lo hi :
  lo ∈ data → hi ∈ data →
  (∀ d, d ∈ data → yOf lo <= yOf d <= yOf hi) →
  ∃ first final,
    sortByY data !! 0%nat = Some first ∧
    sortByY data !! (length data - 1)%nat = Some final ∧
    yOf first = yOf lo ∧ yOf final = yOf hi.
Proof.
  intros Hlo Hhi Hall.
  assert (0 < length data)%nat as Hpos.
  { destruct data; [by apply elem_of_nil in Hlo|simpl; lia]. }
  destruct (lookup_lt_is_Some_2 (sortByY data) 0) as [first Hf];
    [rewrite sortByY_length; lia|].
  destruct (lookup_lt_is_Some_2 (sortByY data) (length data - 1)) as [final Hl];
    [rewrite sortByY_length; lia|].
  exists first, final. split; [done|]. split; [done|].
  pose proof (sortByY_ascending data) as Hasc.
  rewrite <- (sortByY_perm data) in Hlo, Hhi.
  apply list_elem_of_lookup in Hlo as [i Hi]. apply list_elem_of_lookup in Hhi as [j Hj].
  assert (first ∈ data) as Hfd by (rewrite <- sortByY_perm; by eapply list_elem_of_lookup_2).
  assert (final ∈ data) as Hld by (rewrite <- sortByY_perm; by eapply list_elem_of_lookup_2).
  pose proof (Hasc 0%nat i first lo ltac:(lia) Hf Hi).
  assert (j <= length data - 1)%nat.
  { apply lookup_lt_Some in Hj. rewrite sortByY_length in Hj. lia. }
  pose proof (Hasc j (length data - 1)%nat hi final ltac:(lia) Hj Hl).
  pose proof (Hall first Hfd). pose proof (Hall final Hld). lra.
Qed.


Lemma averageSpacing_value data lo hi :
  lo ∈ data → hi ∈ data →
  (∀ d, d ∈ data → yOf lo <= yOf d <= yOf hi) →
  (2 <= length data)%nat →
  ∀ data', data' ≡ₚ data →
    averageSpacing data' = (yOf hi - yOf lo) / INR (length data - 1).
Proof.
  intros Hlo Hhi Hall Hn data' Hp.
  destruct (sorted_ends data' lo hi) as (first & final & Hf & Hl & E1 & E2).
  - by rewrite Hp.
  - by rewrite Hp.
  - intros d Hd. apply Hall. by rewrite <- Hp.
  - assert (2 <= length data')%nat as Hn' by (by rewrite Hp).
    rewrite (averageSpacing_sorted data' first final Hn' Hf Hl), E1, E2.
    by rewrite Hp.
Qed.

(** Property X20: for two entries or more, [averageSpacing] is the
    difference between the highest and the lowest [position.y] divided by
    the number of gaps; it is not negative and does not depend on the order
    of the entries.  For fewer than two entries it is 0. *)
Theorem averageSpacing_is_rise_over_gaps data lo hi :
  lo ∈ data → hi ∈ data →
  (∀ d, d ∈ data → yOf lo <= yOf d <= yOf hi) →
  (2 <= length data)%nat →
  averageSpacing data = (yOf hi - yOf lo) / INR (length data - 1) ∧
  0 <= averageSpacing data ∧
  (∀ data', data' ≡ₚ data → averageSpacing data' = averageSpacing data) ∧
  averageSpacing [] = 0 ∧ (∀ d, averageSpacing [d] = 0).
Proof.
  intros Hlo Hhi Hall Hn.
  pose proof (averageSpacing_value data lo hi Hlo Hhi Hall Hn) as Hgen.
  split; [by apply Hgen|]. split.
  { rewrite Hgen by done.
    apply Rmult_le_pos; [specialize (Hall lo Hlo); lra|].
    left. apply Rinv_0_lt_compat. apply lt_0_INR. lia. }
  split; [intros data' Hp; by rewrite !Hgen|].
  split; [done|]. intros d. done.
Qed.

Lemma rebuild_nonempty data first rest :
  sortByY data = first :: rest →
  rebuildStairsFromData data
  = Some (imap (λ i d,
                  mkSegment (bool_decide (i ≠ 0%nat))
                    (mkVector3 (vx (position d))
                       (yOf first + averageSpacing data * INR i)
                       (vz (position d)))
                    (rotation d) (scale d))
               (sortByY data)).
Proof.
  intros Hs. unfold rebuildStairsFromData. cbn zeta.
  assert (averageSpacing (sortByY data) = averageSpacing data) as ->.
  { unfold averageSpacing.
    rewrite (sortByY_idem (sortByY data)) by apply sortByY_ascending.
    by rewrite !sortByY_length. }
  by rewrite Hs.
Qed.

Lemma averageSpacing_nonneg data lo hi :
  lo ∈ data → hi ∈ data →
  (∀ d, d ∈ data → yOf lo <= yOf d <= yOf hi) →
  0 <= averageSpacing data.
Proof.
  intros Hlo Hhi Hall.
  destruct (decide (length data < 2)%nat) as [Hn|Hn].
  - unfold averageSpacing. rewrite decide_True by done. lra.
  - rewrite (averageSpacing_value data lo hi Hlo Hhi Hall ltac:(lia) data) by done.
    apply Rmult_le_pos; [specialize (Hall lo Hlo); lra|].
    left. apply Rinv_0_lt_compat. apply lt_0_INR. lia.
Qed.

(** Property X21: [rebuildStairsFromData] places one segment per entry, in
    ascending order of the given heights: segment i sits at the lowest
    given height plus [averageSpacing] times i, with the x, z, rotation and
    scale of the i-th entry of the data sorted by height; the heights of
    the segments never decrease with i, and only the first segment is the
    base mesh itself.  On empty data the function throws. *)
Theorem rebuilt_stairs_evenly_spaced data lo hi :
  lo ∈ data → hi ∈ data →
  (∀ d, d ∈ data → yOf lo <= yOf d <= yOf hi) →
  ∃ segs,
    rebuildStairsFromData data = Some segs ∧
    length segs = length data ∧
    (∀ i seg, segs !! i = Some seg →
       vy (segPosition seg) = yOf lo + averageSpacing data * INR i ∧
       isClone seg = bool_decide (i ≠ 0%nat) ∧
       ∃ d, sortByY data !! i = Some d ∧
            vx (segPosition seg) = vx (position d) ∧
            vz (segPosition seg) = vz (position d) ∧
            segRotation seg = rotation d ∧ segScale seg = scale d) ∧
    (∀ i j a b, (i <= j)%nat → segs !! i = Some a → segs !! j = Some b →
       vy (segPosition a) <= vy (segPosition b)) ∧
    (∀ i j a b, (i <= j)%nat → sortByY data !! i = Some a → sortByY data !! j = Some b →
       yOf a <= yOf b) ∧
    sortByY data ≡ₚ data ∧
    rebuildStairsFromData [] = None.
Proof.
  intros Hlo Hhi Hall.
  destruct (sorted_ends data lo hi Hlo Hhi Hall) as (first & final & Hf & Hl & E1 & E2).
  destruct (sortByY data) as [|first' rest] eqn:Hs; [done|].
  injection Hf as ->.
  eexists. split; [by apply (rebuild_nonempty data first rest)|].
  rewrite Hs.
  assert (∀ i seg,
    imap (λ i d, mkSegment (bool_decide (i ≠ 0%nat))
                   (mkVector3 (vx (position d))
                      (yOf first + averageSpacing data * INR i) (vz (position d)))
                   (rotation d) (scale d)) (first :: rest) !! i = Some seg →
    ∃ d, (first :: rest) !! i = Some d ∧
         seg = mkSegment (bool_decide (i ≠ 0%nat))
                 (mkVector3 (vx (position d))
                    (yOf first + averageSpacing data * INR i) (vz (position d)))
                 (rotation d) (scale d)) as Hseg.
  { intros i seg Hi. rewrite list_lookup_imap in Hi.
    destruct ((first :: rest) !! i) as [d|]; [|done]. injection Hi as <-. by exists d. }
  pose proof (averageSpacing_nonneg data lo hi Hlo Hhi Hall) as Hnn.
  split; [by rewrite length_imap, <- Hs, sortByY_length|].
  split; [|split; [|split; [|split]]].
  - intros i seg Hi. destruct (Hseg i seg Hi) as (d & Hd & ->).
    cbn [vx vy vz segPosition isClone segRotation segScale].
    rewrite E1. split; [done|]. split; [done|]. by exists d.
  - intros i j a b Hij Ha Hb.
    destruct (Hseg i a Ha) as (d1 & _ & ->). destruct (Hseg _ b Hb) as (d2 & _ & ->).
    cbn [vy segPosition]. apply le_INR in Hij. nra.
  - rewrite <- Hs. apply sortByY_ascending.
  - rewrite <- Hs. apply sortByY_perm.
  - done.
Qed.


Lemma stairs_data_bounds :
  segmentAt (19292879034861175 / 10000000000000000) ∈ stairsSegmentsData ∧
  segmentAt (14896431855229162 / 1000000000000000) ∈ stairsSegmentsData ∧
  (∀ d, d ∈ stairsSegmentsData →
     yOf (segmentAt (19292879034861175 / 10000000000000000)) <= yOf d
     <= yOf (segmentAt (14896431855229162 / 1000000000000000))).
Proof.
  split; [repeat constructor|]. split; [repeat constructor|].
  intros d Hd. unfold stairsSegmentsData in Hd.
  repeat (apply elem_of_cons in Hd as [->|Hd]; [unfold yOf; cbn; lra|]).
  by apply elem_of_nil in Hd.
Qed.

Lemma averageSpacing_witness :
  segmentAt (19292879034861175 / 10000000000000000) ∈ stairsSegmentsData ∧
  (2 <= length stairsSegmentsData)%nat ∧
  averageSpacing stairsSegmentsData
  = (yOf (segmentAt (14896431855229162 / 1000000000000000))
     - yOf (segmentAt (19292879034861175 / 10000000000000000))) / INR 3.
Proof.
  destruct stairs_data_bounds as (Hlo & Hhi & Hall).
  assert (2 <= length stairsSegmentsData)%nat as Hn by (cbn; lia).
  split; [exact Hlo|]. split; [exact Hn|].
  exact (proj1 (averageSpacing_is_rise_over_gaps stairsSegmentsData _ _ Hlo Hhi Hall Hn)).
Defined.

Lemma rebuilt_stairs_witness :
  segmentAt (19292879034861175 / 10000000000000000) ∈ stairsSegmentsData ∧
  ∃ segs, rebuildStairsFromData stairsSegmentsData = Some segs ∧
          length segs = length stairsSegmentsData.
Proof.
  destruct stairs_data_bounds as (Hlo & Hhi & Hall).
  split; [exact Hlo|].
  destruct (rebuilt_stairs_evenly_spaced stairsSegmentsData _ _ Hlo Hhi Hall)
    as (segs & H1 & H2 & _).
  exists segs. split; [exact H1|exact H2].
Defined.

End StairsFacts.

(** ** The pointer on the sphere of the stars ([constellation.js]) *)

Module PointerFacts.
Import Helix Pointer.
Local Open Scope R_scope.

Lemma dot_moved o d t :
  dot (addScaledVector o d t) (addScaledVector o d t)
  = dot d d * (t * t) + 2 * dot d o * t + dot o o.
Proof. unfold dot, addScaledVector. cbn. ring. Qed.

Lemma far_root a b c :
  a ≠ 0 → 0 <= b * b - 4 * a * c →
  let t := (- b + sqrt (b * b - 4 * a * c)) / (2 * a) in
  a * (t * t) + b * t + c = 0.
Proof.
  intros Ha Hd t. unfold t.
  set (s := sqrt (b * b - 4 * a * c)).
  assert (s * s = b * b - 4 * a * c) as Hs by (by apply sqrt_sqrt).
  assert (a * ((- b + s) / (2 * a) * ((- b + s) / (2 * a))) + b * ((- b + s) / (2 * a)) + c
          = (s * s - (b * b - 4 * a * c)) / (4 * a)) as -> by (field; done).
  rewrite Hs. unfold Rdiv. ring.
Qed.

(** Property X22: the point computed from the pointer ray lies on the sphere
    of radius [radius] about the origin whenever the discriminant is not
    negative, and is the far fallback point otherwise; with the ray origin
    inside the sphere the discriminant is positive and the point lies ahead
    of the origin along the ray. *)
Theorem pointer_projects_onto_sphere origin dir radius far :
  dot dir dir ≠ 0 →
  let b := 2 * dot dir origin in
  let disc := b * b - 4 * dot dir dir * (dot origin origin - radius * radius) in
  let p := sphereHit origin dir radius far in
  (0 <= disc → dot p p = radius * radius) ∧
  (disc < 0 → p = addScaledVector origin dir far) ∧
  (dot origin origin < radius * radius →
     0 < disc ∧ dot p p = radius * radius ∧
     ∃ t, 0 < t ∧ p = addScaledVector origin dir t).
Proof.
  intros Ha b disc p.
  assert (0 < dot dir dir) as Hpos.
  { unfold dot in *. nra. }
  assert (0 <= disc → dot p p = radius * radius) as Hon.
  { intros Hd. unfold p, sphereHit. cbn zeta. fold b. fold disc.
    rewrite decide_True by done. rewrite dot_moved.
    pose proof (far_root (dot dir dir) b (dot origin origin - radius * radius) Ha Hd) as H.
    cbn zeta in H. fold disc in H. unfold b in *. lra. }
  split; [done|]. split.
  { intros Hd. unfold p, sphereHit. cbn zeta. fold b. fold disc.
    rewrite decide_False by lra. done. }
  intros Hin.
  assert (b * b < disc) as Hbd by (unfold disc; nra).
  assert (0 < disc) as Hd by nra.
  split; [done|]. split; [apply Hon; lra|].
  exists ((- b + sqrt disc) / (2 * dot dir dir)). split.
  - apply Rmult_lt_0_compat; [|apply Rinv_0_lt_compat; lra].
    assert (Rabs b < sqrt disc) as Hlt.
    { rewrite <- sqrt_Rsqr_abs. apply sqrt_lt_1; [apply Rle_0_sqr|lra|unfold Rsqr; done]. }
    unfold Rabs in Hlt. destruct (Rcase_abs b); lra.
  - unfold p, sphereHit. cbn zeta. fold b. fold disc. by rewrite decide_True by lra.
Qed.

Lemma pointer_projects_onto_sphere_witness :
  dot (mkVector3 0 0 (-1)) (mkVector3 0 0 (-1)) ≠ 0 ∧
  dot (mkVector3 0 0 0) (mkVector3 0 0 0) < 900 * 900 ∧
  dot (sphereHit (mkVector3 0 0 0) (mkVector3 0 0 (-1)) 900 1000)
      (sphereHit (mkVector3 0 0 0) (mkVector3 0 0 (-1)) 900 1000) = 900 * 900.
Proof.
  assert (dot (mkVector3 0 0 (-1)) (mkVector3 0 0 (-1)) ≠ 0) as Ha by (unfold dot; cbn; lra).
  assert (dot (mkVector3 0 0 0) (mkVector3 0 0 0) < 900 * 900) as Hin by (unfold dot; cbn; lra).
  split; [exact Ha|]. split; [exact Hin|].
  exact (proj1 (proj2 (proj2 (proj2 (pointer_projects_onto_sphere
                  (mkVector3 0 0 0) (mkVector3 0 0 (-1)) 900 1000 Ha)) Hin))).
Defined.

End PointerFacts.

(** ** The sound effects ([audio_manager.js]) *)

Module AudioFacts.
Import Audio.

Lemma SOUND_MAP_get_keys key : is_Some (SOUND_MAP_get key) ↔ key ∈ soundKeys.
Proof.
  unfold SOUND_MAP_get, soundKeys. rewrite elem_of_union, elem_of_dom, elem_of_list_to_set.
  destruct (SOUND_MAP !! key) as [src|] eqn:Hk.
  - split; [intros _; left; by eexists|by eexists].
  - case_bool_decide as Hin.
    + split; [by right|by eexists].
    + split; [by intros [? ?]|]. intros [[? ?]|?]; done.
Qed.

Lemma play_dismissed key res st :
  SOUND_MAP_get key = None ∨ 2 ≤ size (_activeKeys st)
  ∨ (size (_activeKeys st) = 1 ∧ key ∈ _activeKeys st) →
  play key res st = (st, false).
Proof.
  intros H. unfold play. destruct (SOUND_MAP_get key) as [src|] eqn:Hk; [|done].
  destruct H as [H|[H|[H1 H2]]]; [done| |]; cbn zeta.
  - rewrite bool_decide_eq_false_2 by lia.
    rewrite (bool_decide_eq_false_2 (size (_activeKeys st) = 1)) by lia. done.
  - rewrite bool_decide_eq_false_2 by lia.
    rewrite (bool_decide_eq_false_2 (key ∉ _activeKeys st)) by (intros N; by apply N).
    by rewrite andb_false_r.
Qed.

Lemma play_accepted key res st :
  is_Some (SOUND_MAP_get key) →
  size (_activeKeys st) = 0 ∨ (size (_activeKeys st) = 1 ∧ key ∉ _activeKeys st) →
  let '(st', ok) := play key res st in
  ok = (match res with PlayThrows => false | _ => true end) ∧
  _audioEls st' = _audioEls st ∪ {[ key ]} ∧
  _activeKeys st' = (match res with
                     | ReturnsNothing => _activeKeys st ∪ {[ key ]}
                     | ReturnsPromise => _activeKeys st
                     | PlayThrows => _activeKeys st ∖ {[ key ]}
                     end) ∧
  pending st' = (match res with
                 | ReturnsPromise => pending st ++ [key]
                 | _ => pending st
                 end).
Proof.
  intros [src Hk] H. unfold play. rewrite Hk. cbn zeta.
  replace (bool_decide (size (_activeKeys st) = 0)
           || bool_decide (size (_activeKeys st) = 1) && bool_decide (key ∉ _activeKeys st))
    with true.
  - by destruct res.
  - symmetry. destruct H as [H|[H1 H2]].
    + by rewrite bool_decide_eq_true_2.
    + rewrite (bool_decide_eq_true_2 (size (_activeKeys st) = 1)) by done.
      rewrite (bool_decide_eq_true_2 (key ∉ _activeKeys st)) by done.
      by rewrite orb_true_r.
Qed.

Lemma size_add_le (X : gset string) k : size (X ∪ {[ k ]}) ≤ size X + 1.
Proof.
  rewrite size_union_alt.
  assert (size (({[ k ]} : gset string) ∖ X) ≤ size ({[ k ]} : gset string)) as H.
  { apply subseteq_size. intros x Hx. by apply elem_of_difference in Hx as [? _]. }
  rewrite size_singleton in H. lia.
Qed.

Lemma size_remove_le (X : gset string) k : size (X ∖ {[ k ]}) ≤ size X.
Proof. apply subseteq_size. intros x Hx. by apply elem_of_difference in Hx as [? _]. Qed.

Lemma play_active_size key res st :
  res ≠ ReturnsPromise → size (_activeKeys st) ≤ 2 →
  size (_activeKeys (fst (play key res st))) ≤ 2.
Proof.
  intros Hres Hsz. unfold play. destruct (SOUND_MAP_get key); [|done]. cbn zeta.
  destruct (bool_decide (size (_activeKeys st) = 0)
            || bool_decide (size (_activeKeys st) = 1) && bool_decide (key ∉ _activeKeys st))
    eqn:Hok; [|done].
  assert (size (_activeKeys st) ≤ 1) as Hle.
  { apply orb_true_iff in Hok as [H|H].
    - apply bool_decide_eq_true in H. lia.
    - apply andb_true_iff in H as [H _]. apply bool_decide_eq_true in H. lia. }
  destruct res; [done| |]; cbn.
  - pose proof (size_add_le (_activeKeys st) key). lia.
  - pose proof (size_remove_le (_activeKeys st) key). lia.
Qed.

Lemma audioStep_active_size st ev :
  match ev with Play _ ReturnsPromise => False | Settle _ _ => pending st = [] | _ => True end →
  size (_activeKeys st) ≤ 2 → size (_activeKeys (audioStep st ev)) ≤ 2.
Proof.
  intros Hev Hsz. destruct ev as [key res|i f|key|key b|]; cbn [audioStep].
  - apply play_active_size; [by destruct res|done].
  - rewrite Hev. done.
  - case_bool_decide; [|done]. cbn.
    pose proof (size_remove_le (_activeKeys st) key). lia.
  - destruct (bool_decide (key ∈ _audioEls st) && b); [|done]. cbn.
    pose proof (size_remove_le (_activeKeys st) key). lia.
  - cbn. rewrite size_empty. lia.
Qed.

Lemma audioStep_pending st ev :
  match ev with Play _ ReturnsPromise => False | _ => True end →
  pending st = [] → pending (audioStep st ev) = [].
Proof.
  intros Hev Hp. destruct ev as [key res|i f|key|key b|]; cbn [audioStep].
  - unfold play. destruct (SOUND_MAP_get key); [|done]. cbn zeta.
    destruct (_ || _); [|done]. by destruct res.
  - by rewrite Hp.
  - by case_bool_decide.
  - by destruct (_ && _).
  - done.
Qed.

Lemma audioStep_known st ev :
  _activeKeys st ∪ list_to_set (pending st) ⊆ _audioEls st →
  _audioEls st ⊆ soundKeys →
  _activeKeys (audioStep st ev) ∪ list_to_set (pending (audioStep st ev))
    ⊆ _audioEls (audioStep st ev) ∧
  _audioEls (audioStep st ev) ⊆ soundKeys.
Proof.
  intros H1 H2. destruct ev as [key res|i f|key|key b|]; cbn [audioStep].
  - unfold play. destruct (SOUND_MAP_get key) as [src|] eqn:Hk; [|done]. cbn zeta.
    assert (key ∈ soundKeys) as Hd by (apply SOUND_MAP_get_keys; by eexists).
    set (D := soundKeys) in *. clearbody D.
    destruct (_ || _); [|done].
    destruct res; cbn [fst _audioEls _activeKeys pending];
      rewrite ?list_to_set_app_L; cbn [list_to_set];
      (split; [|apply union_least; [done|by apply singleton_subseteq_l]]).
    + intros x Hx. apply elem_of_union in Hx as [Hx|Hx].
      * apply elem_of_union_l, H1. by apply elem_of_union_l.
      * apply elem_of_union in Hx as [Hx|Hx].
        -- apply elem_of_union_l, H1. by apply elem_of_union_r.
        -- apply elem_of_union_r. by rewrite union_empty_r_L in Hx.
    + intros x Hx. apply elem_of_union in Hx as [Hx|Hx].
      * apply elem_of_union in Hx as [Hx|Hx]; [|by apply elem_of_union_r].
        apply elem_of_union_l, H1. by apply elem_of_union_l.
      * apply elem_of_union_l, H1. by apply elem_of_union_r.
    + intros x Hx. apply elem_of_union in Hx as [Hx|Hx].
      * apply elem_of_difference in Hx as [Hx _].
        apply elem_of_union_l, H1. by apply elem_of_union_l.
      * apply elem_of_union_l, H1. by apply elem_of_union_r.
  - destruct (pending st !! i) as [key|] eqn:Hi; [|done].
    cbn [_audioEls _activeKeys pending].
    assert (key ∈ _audioEls st) as Hin.
    { apply H1, elem_of_union_r, elem_of_list_to_set. by eapply list_elem_of_lookup_2. }
    split; [|done].
    intros x Hx. apply elem_of_union in Hx as [Hx|Hx].
    + destruct f.
      * apply elem_of_union in Hx as [Hx|Hx]; [apply H1; by apply elem_of_union_l|].
        apply elem_of_singleton in Hx as ->. done.
      * apply elem_of_difference in Hx as [Hx _]. apply H1. by apply elem_of_union_l.
    + apply elem_of_list_to_set, list_elem_of_delete_inv in Hx.
      apply H1, elem_of_union_r. by apply elem_of_list_to_set.
  - case_bool_decide; [|done]. cbn [_audioEls _activeKeys pending]. split; [|done].
    intros x Hx. apply H1. apply elem_of_union in Hx as [Hx|Hx]; [|by apply elem_of_union_r].
    apply elem_of_difference in Hx as [Hx _]. by apply elem_of_union_l.
  - destruct (_ && _); [|done]. cbn [_audioEls _activeKeys pending]. split; [|done].
    intros x Hx. apply H1. apply elem_of_union in Hx as [Hx|Hx]; [|by apply elem_of_union_r].
    apply elem_of_difference in Hx as [Hx _]. by apply elem_of_union_l.
  - cbn [stopAll _audioEls _activeKeys pending]. split; [|done].
    intros x Hx. apply H1. apply elem_of_union in Hx as [Hx|Hx]; [|by apply elem_of_union_r].
    by apply elem_of_empty in Hx.
Qed.

(** Property X24: [SOUND_MAP[key]] is falsy only for a key that is neither
    mapped nor inherited from [Object.prototype], so [play] accepts the
    unmapped name constructor.  [AudioManager.play] dismisses a key whose
    entry is falsy, any key while two sounds are active, and the key of
    the one active sound; otherwise it starts the sound and returns true
    unless [a.play()] throws.  Active keys always belong to created
    elements, whose keys are mapped or inherited names.  While no call of
    [a.play()] answers with a promise, at most two sounds are active; with
    promises the bound fails: three plays accepted before their promises
    settle leave three active keys. *)
Theorem audio_play_rule :
  (∀ key, SOUND_MAP_get key = None
          ↔ (key ∉ dom SOUND_MAP) ∧ (key ∉ objectPrototypeNames)) ∧
  (("constructor" ∉ dom SOUND_MAP) ∧
   snd (play "constructor" ReturnsNothing noAudio) = true ∧
   "constructor" ∈ _activeKeys (fst (play "constructor" ReturnsNothing noAudio))) ∧
  (∀ key res st,
     SOUND_MAP_get key = None ∨ 2 ≤ size (_activeKeys st)
     ∨ (size (_activeKeys st) = 1 ∧ key ∈ _activeKeys st) →
     play key res st = (st, false)) ∧
  (∀ key res st,
     is_Some (SOUND_MAP_get key) →
     size (_activeKeys st) = 0 ∨ (size (_activeKeys st) = 1 ∧ key ∉ _activeKeys st) →
     snd (play key res st) = (match res with PlayThrows => false | _ => true end) ∧
     key ∈ _audioEls (fst (play key res st))) ∧
  (∀ evs, withoutPromises evs →
     size (_activeKeys (audioRun noAudio evs)) ≤ 2 ∧ pending (audioRun noAudio evs) = []) ∧
  (∀ evs,
     _activeKeys (audioRun noAudio evs) ⊆ _audioEls (audioRun noAudio evs) ∧
     _audioEls (audioRun noAudio evs) ⊆ soundKeys) ∧
  size (_activeKeys (audioRun noAudio
          [Play "painting:move-tile" ReturnsPromise;
           Play "painting:scene-victory" ReturnsPromise;
           Play "philosophy:on-star-link" ReturnsPromise;
           Settle 0 true; Settle 0 true; Settle 0 true])) = 3.
Proof.
  split.
  { intros key. rewrite eq_None_not_Some, SOUND_MAP_get_keys. unfold soundKeys.
    by rewrite not_elem_of_union, elem_of_list_to_set. }
  split.
  { assert (SOUND_MAP !! "constructor" = None) as Hc by (by vm_compute).
    split; [by apply not_elem_of_dom|].
    assert (is_Some (SOUND_MAP_get "constructor")) as Hk.
    { unfold SOUND_MAP_get. rewrite Hc. rewrite bool_decide_eq_true_2; [by eexists|].
      unfold objectPrototypeNames. by left. }
    pose proof (play_accepted "constructor" ReturnsNothing noAudio Hk) as H.
    destruct (play "constructor" ReturnsNothing noAudio) as [st' ok].
    destruct H as (Hok & _ & Hact & _); [left; apply size_empty|].
    cbn [fst snd]. rewrite Hact. split; [done|].
    by apply elem_of_union_r, elem_of_singleton. }
  split; [exact play_dismissed|]. split.
  { intros key res st Hk Hsz. pose proof (play_accepted key res st Hk Hsz) as H.
    destruct (play key res st) as [st' ok]. destruct H as (Hok & Hels & _).
    cbn [fst snd]. rewrite Hels. split; [done|].
    by apply elem_of_union_r, elem_of_singleton. }
  split.
  { intros evs Hev. unfold audioRun.
    assert (∀ st, size (_activeKeys st) ≤ 2 → pending st = [] →
              size (_activeKeys (foldl audioStep st evs)) ≤ 2
              ∧ pending (foldl audioStep st evs) = []) as Hgen.
    { induction Hev as [|ev evs Hev _ IH]; intros st Hsz Hp; [done|].
      cbn [foldl]. apply IH.
      - apply audioStep_active_size; [|done]. destruct ev as [? []| | | |]; done.
      - apply audioStep_pending; [|done]. destruct ev as [? []| | | |]; done. }
    apply Hgen; [cbn; rewrite size_empty; lia|done]. }
  split.
  { intros evs. unfold audioRun.
    assert (∀ st, _activeKeys st ∪ list_to_set (pending st) ⊆ _audioEls st →
              _audioEls st ⊆ soundKeys →
              _activeKeys (foldl audioStep st evs) ⊆ _audioEls (foldl audioStep st evs)
              ∧ _audioEls (foldl audioStep st evs) ⊆ soundKeys) as Hgen.
    { induction evs as [|ev evs IH]; intros st H1 H2.
      - split; [|done]. intros x Hx. apply H1. by apply elem_of_union_l.
      - cbn [foldl]. destruct (audioStep_known st ev H1 H2). by apply IH. }
    apply Hgen; cbn [noAudio _audioEls _activeKeys pending list_to_set].
    + by rewrite union_empty_r_L.
    + apply empty_subseteq. }
  vm_compute. done.
Qed.

End AudioFacts.

(** ** The particle field of the cosmic sky ([philosophy.js]) *)

Module PhilosophyFacts.
Import Helix Philosophy.
Local Open Scope R_scope.

(** Property X26: over the reals, a particle of the sky's particle field
    lies at distance r = 80 + 40 u1 from the origin, so inside the shell 80
    <= r < 120, and its z coordinate is r (2 u3 - 1), spread evenly over
    [-r, r). *)
Theorem particles_in_shell u1 u2 u3 :
  0 <= u1 < 1 → 0 <= u3 < 1 →
  let p := particle u1 u2 u3 in
  let r := 80 + u1 * 40 in
  vx p * vx p + vy p * vy p + vz p * vz p = r * r ∧
  80 <= r < 120 ∧
  vz p = r * (2 * u3 - 1) ∧ - r <= vz p < r.
Proof.
  intros H1 H3 p r. unfold p, particle. cbn zeta. fold r. cbn [vx vy vz].
  set (phi := acos (2 * u3 - 1)). set (theta := u2 * PI * 2).
  pose proof (sin2_cos2 phi) as Hphi. pose proof (sin2_cos2 theta) as Hth.
  unfold Rsqr in Hphi, Hth.
  split.
  { replace (r * sin phi * cos theta * (r * sin phi * cos theta)
             + r * sin phi * sin theta * (r * sin phi * sin theta)
             + r * cos phi * (r * cos phi))
      with (r * r * (sin phi * sin phi * (sin theta * sin theta + cos theta * cos theta)
                     + cos phi * cos phi)) by ring.
    rewrite Hth, Rmult_1_r, Hphi. ring. }
  split; [unfold r; lra|].
  assert (cos phi = 2 * u3 - 1) as -> by (unfold phi; by rewrite cos_acos by lra).
  split; [done|]. unfold r. nra.
Qed.

Lemma particles_in_shell_witness :
  0 <= 1 / 2 < 1 ∧ 0 <= 1 / 4 < 1 ∧
  vz (particle (1 / 2) 0 (1 / 4)) = (80 + 1 / 2 * 40) * (2 * (1 / 4) - 1).
Proof.
  assert (0 <= 1 / 2 < 1) as H1 by lra. assert (0 <= 1 / 4 < 1) as H3 by lra.
  split; [exact H1|]. split; [exact H3|].
  exact (proj1 (proj2 (proj2 (particles_in_shell (1 / 2) 0 (1 / 4) H1 H3)))).
Defined.

End PhilosophyFacts.
